(** * cap-telemetry: stack sampling to span reconstruction

    A shallow embedding of the stack differ ([convertSamplesToEvents],
    [convertSamplesToTrace]), of the live sampler's bookkeeping
    ([CAPStackSamplingTracer]) and of the batch profile reconstructor
    ([processProfileToSpans]), with the properties their specification
    states about them. *)

From Stdlib Require Import Strings.Ascii.
From Stdlib Require Import QArith.QArith_base QArith.Qround QArith.Qreduction.
From stdpp Require Import gmap strings list fin_maps.

Local Open Scope string_scope.
Local Open Scope nat_scope.
Local Open Scope list_scope.

(** ** Trace events *)

Inductive Kind := START | END.

Record TraceEvent (T : Type) := mkEvent {
  kind : Kind;
  ts : T;
  name : string
}.
Arguments mkEvent {T} _ _ _.
Arguments kind {T} _.
Arguments ts {T} _.
Arguments name {T} _.

#[global] Instance Kind_eq_dec : EqDecision Kind.
Proof. solve_decision. Defined.

(** ** The stack differ

    [convertSamplesToEvents] of the sampling tracer; the body of the loop of
    [convertSamplesToTrace] in stack-to-trace.js is the same three loops.
    Stacks are arrays of frame names, outermost first; [prevStack[i]] is list
    lookup, and every index the loops read is in range. *)

Module Differ.
Section Differ.
Context {T : Type}.

(** [while (commonLen < prevStack.length && commonLen < currStack.length &&
     prevStack[commonLen] === currStack[commonLen]) commonLen++].
    Each iteration increments [commonLen], which stays below
    [prevStack.length]: that many iterations are enough. *)
Fixpoint commonLen_loop (fuel : nat) (prevStack currStack : list string)
    (commonLen : nat) : nat :=
  match fuel with
  | 0 => commonLen
  | S fuel' =>
      match prevStack !! commonLen, currStack !! commonLen with
      | Some a, Some b =>
          if bool_decide (a = b)
          then commonLen_loop fuel' prevStack currStack (S commonLen)
          else commonLen
      | _, _ => commonLen
      end
  end.

Definition commonLen (prevStack currStack : list string) : nat :=
  commonLen_loop (length prevStack) prevStack currStack 0.

(** [for (let i = prevStack.length - 1; i >= commonLen; i--)
      events.push({kind: 'END', ts: currentTs, name: prevStack[i]})];
    the first argument is [i + 1]. *)
Fixpoint endLoop (n : nat) (prevStack : list string) (commonLen : nat)
    (currentTs : T) (events : list (TraceEvent T)) : list (TraceEvent T) :=
  match n with
  | 0 => events
  | S i =>
      if decide (commonLen ≤ i)
      then endLoop i prevStack commonLen currentTs
             (events ++ [mkEvent END currentTs (prevStack !!! i)])
      else events
  end.

(** [for (let i = commonLen; i < currStack.length; i++)
      events.push({kind: 'START', ts: currentTs, name: currStack[i]})]. *)
Fixpoint startLoop (fuel i : nat) (currStack : list string)
    (currentTs : T) (events : list (TraceEvent T)) : list (TraceEvent T) :=
  match fuel with
  | 0 => events
  | S fuel' =>
      if decide (i < length currStack)
      then startLoop fuel' (S i) currStack currentTs
             (events ++ [mkEvent START currentTs (currStack !!! i)])
      else events
  end.

(** The events one (previous stack, current stack) pair adds to [events]. *)
Definition diffInto (prevStack currStack : list string) (currentTs : T)
    (events : list (TraceEvent T)) : list (TraceEvent T) :=
  let commonLen := commonLen prevStack currStack in
  let events := endLoop (length prevStack) prevStack commonLen currentTs events in
  startLoop (length currStack - commonLen) commonLen currStack currentTs events.

Definition convertSamplesToEvents (prevStack currStack : list string)
    (currentTs : T) : list (TraceEvent T) :=
  diffInto prevStack currStack currentTs [].

(** stack-to-trace.js: samples are [{ts, stack}]. *)
Record TraceSample := mkTraceSample {
  ts_ts : T;
  ts_stack : list string
}.

(** The loop of [convertSamplesToTrace], from any loop state
    [(events, prevStack)]. *)
Fixpoint traceLoop (samples : list TraceSample)
    (events : list (TraceEvent T)) (prevStack : list string)
    : list (TraceEvent T) :=
  match samples with
  | [] => events
  | sample :: rest =>
      let currStack := ts_stack sample in
      let currentTs := ts_ts sample in
      traceLoop rest (diffInto prevStack currStack currentTs events) currStack
  end.

Definition convertSamplesToTrace (samples : list TraceSample)
    : list (TraceEvent T) :=
  traceLoop samples [] [].

(** The specification's words: [c] is the length of the longest prefix on
    which the two stacks agree, name by name. *)
Definition longest_common_prefix (prev curr : list string) (c : nat) : Prop :=
  c ≤ length prev ∧ c ≤ length curr ∧
  (∀ i, i < c → prev !! i = curr !! i) ∧
  (c < length prev → c < length curr → prev !! c ≠ curr !! c).

End Differ.
End Differ.

(** ** Spans of the trace backend

    The OpenTelemetry tracer is an external collaborator. A span is an object:
    [tracer.startSpan] makes a new one, the program keeps references to it and
    calls [setStatus] and [end] on them. The store below holds every span the
    tracer made, a reference being the span's position in it. As in the
    OpenTelemetry SDK, a span that has ended ignores later [setStatus] and
    [end] calls. *)

Module Otel.
Section Otel.
Context {T : Type}.

Inductive SpanStatusCode := UNSET | OK | ERROR.

(** [parent] is the span of the context given as third argument of
    [startSpan], [None] when the call passes no context (the tracer then takes
    the ambient one). *)
Record Span := mkSpan {
  span_name : string;
  startTime : T;
  parent : option nat;
  status : SpanStatusCode;
  endTime : option T
}.

Definition startSpan (name : string) (start : T) (ctx : option nat)
    (store : list Span) : nat * list Span :=
  (length store, store ++ [mkSpan name start ctx UNSET None]).

Definition setStatus (ref : nat) (code : SpanStatusCode) (store : list Span)
    : list Span :=
  match store !! ref with
  | Some s =>
      match endTime s with
      | None => <[ref := mkSpan (span_name s) (startTime s) (parent s) code None]> store
      | Some _ => store
      end
  | None => store
  end.

(** [span.end(t)]; [span.end()] is [endSpan ref now] with [now] the clock
    reading of that call. The span keeps the time it is given; what an SDK
    makes of an end time that is earlier than the start time is not
    modelled. *)
Definition endSpan (ref : nat) (t : T) (store : list Span) : list Span :=
  match store !! ref with
  | Some s =>
      match endTime s with
      | None =>
          <[ref := mkSpan (span_name s) (startTime s) (parent s) (status s) (Some t)]> store
      | Some _ => store
      end
  | None => store
  end.

Definition is_open (store : list Span) (ref : nat) : Prop :=
  ∃ s, store !! ref = Some s ∧ endTime s = None.

Definition ended_at (store : list Span) (ref : nat) (t : T) : Prop :=
  ∃ s, store !! ref = Some s ∧ endTime s = Some t.

End Otel.
Arguments Span : clear implicits.
Abbreviation SpanStore T := (list (Span T)).
End Otel.

(** ** The live sampler: [CAPStackSamplingTracer]

    Timestamps are [Date.now()] readings, integers. [samples] and
    [activeSpans] are the two [Map]s of the class, keyed by async id;
    the inner table of [activeSpans] is keyed by frame name. *)

Module Sampler.
Import Otel Differ.

Record Sample := mkSample {
  s_ts : Z;
  s_stack : list string;
  s_asyncId : Z
}.

Record Tracer := mkTracer {
  samples : gmap Z (list Sample);
  activeSpans : gmap Z (gmap string nat);
  currentAsyncId : Z;
  spans : SpanStore Z
}.

(** [new CAPStackSamplingTracer()] before any hook has fired. *)
Definition initial : Tracer := mkTracer ∅ ∅ 0 [].

(** One iteration of the loop of [applyEventsToSpans]: the context's table
    and the span store after [event]. *)
Definition applyEvent (event : TraceEvent Z)
    (st : gmap string nat * SpanStore Z) : gmap string nat * SpanStore Z :=
  let '(table, store) := st in
  match kind event with
  | START =>
      let '(span, store) := startSpan (name event) (ts event) None store in
      (<[name event := span]> table, store)
  | END =>
      match table !! name event with
      | Some span =>
          let store := setStatus span OK store in
          let store := endSpan span (ts event) store in
          (delete (name event) table, store)
      | None => (table, store)
      end
  end.

Definition applyEvents (events : list (TraceEvent Z))
    (st : gmap string nat * SpanStore Z) : gmap string nat * SpanStore Z :=
  fold_left (λ st event, applyEvent event st) events st.

Definition applyEventsToSpans (asyncId : Z) (events : list (TraceEvent Z))
    (t : Tracer) : Tracer :=
  let active :=
    match activeSpans t !! asyncId with
    | Some _ => activeSpans t
    | None => <[asyncId := ∅]> (activeSpans t)
    end in
  let table := default ∅ (active !! asyncId) in
  let '(table, store) := applyEvents events (table, spans t) in
  mkTracer (samples t) (<[asyncId := table]> active) (currentAsyncId t) store.

Definition processSamples (asyncId : Z) (t : Tracer) : Tracer :=
  match samples t !! asyncId with
  | None => t
  | Some samples =>
      if decide (length samples < 2) then t
      else
        match samples !! (length samples - 2), samples !! (length samples - 1) with
        | Some prevSample, Some currSample =>
            let events :=
              convertSamplesToEvents (s_stack prevSample) (s_stack currSample)
                (s_ts currSample) in
            applyEventsToSpans asyncId events t
        | _, _ => t
        end
  end.

(** [flushAsyncContext]. Every [span.end()] of [spans.forEach] reads the
    clock for itself: [now span] is the reading of the call made for [span].
    [Map.forEach] visits the spans in insertion order and [map_fold] in key
    order; ending one span leaves the others alone, so the store that
    results is the same. *)
Definition flushAsyncContext (asyncId : Z) (now : nat → Z) (t : Tracer) : Tracer :=
  let samples := delete asyncId (samples t) in
  match activeSpans t !! asyncId with
  | Some table =>
      let store :=
        map_fold (λ _ span store, endSpan span (now span) store) (spans t) table in
      mkTracer samples (delete asyncId (activeSpans t)) (currentAsyncId t) store
  | None => mkTracer samples (activeSpans t) (currentAsyncId t) (spans t)
  end.

(** The async hooks: [init], [before] and [after] set [currentAsyncId],
    [destroy] flushes the context. *)
Definition setCurrent (asyncId : Z) (t : Tracer) : Tracer :=
  mkTracer (samples t) (activeSpans t) asyncId (spans t).

(** [extractFunctionName]: the first match of
    [/at\s+(?:async\s+)?([^\s(]+)/] in the line, or ['unknown']. Lines are
    strings of bytes and [\s] is the ASCII white space. A match at a position
    reads [at], all the white space that follows (at least one character),
    then either [async], white space and a name, or a name; a name is the
    longest run of characters that are neither white space nor [(]. *)
Definition is_space (c : ascii) : bool :=
  let n := nat_of_ascii c in
  (Nat.leb 9 n && Nat.leb n 13) || Nat.eqb n 32.

Definition is_name_char (c : ascii) : bool :=
  negb (is_space c) && negb (Ascii.eqb c "(").

Fixpoint skip_spaces (s : string) : string :=
  match s with
  | String c rest => if is_space c then skip_spaces rest else s
  | EmptyString => s
  end.

Fixpoint take_name (s : string) : string :=
  match s with
  | String c rest => if is_name_char c then String c (take_name rest) else EmptyString
  | EmptyString => EmptyString
  end.

Fixpoint strip_prefix (p s : string) : option string :=
  match p, s with
  | EmptyString, _ => Some s
  | String a p', String b s' => if Ascii.eqb a b then strip_prefix p' s' else None
  | String _ _, EmptyString => None
  end.

(** [\s+] and what follows it. *)
Definition after_spaces (s : string) : option string :=
  match s with
  | String c _ => if is_space c then Some (skip_spaces s) else None
  | EmptyString => None
  end.

Definition name_at (s : string) : option string :=
  match take_name s with
  | EmptyString => None
  | name => Some name
  end.

Definition match_here (s : string) : option string :=
  match strip_prefix "at" s with
  | None => None
  | Some rest =>
      match after_spaces rest with
      | None => None
      | Some rest =>
          let with_async :=
            match strip_prefix "async" rest with
            | None => None
            | Some rest' =>
                match after_spaces rest' with
                | None => None
                | Some rest' => name_at rest'
                end
            end in
          match with_async with
          | Some name => Some name
          | None => name_at rest
          end
      end
  end.

Fixpoint search (s : string) : option string :=
  match match_here s with
  | Some name => Some name
  | None =>
      match s with
      | String _ rest => search rest
      | EmptyString => None
      end
  end.

Definition extractFunctionName (line : string) : string :=
  default "unknown" (search line).

(** A [RegExp] of [excludePatterns] is its [test]; the default patterns look
    for a substring or for a prefix of the name. *)
Fixpoint contains (p s : string) : bool :=
  String.prefix p s ||
  match s with
  | String _ rest => contains p rest
  | EmptyString => false
  end.

Definition defaultExcludePatterns : list (string → bool) :=
  [ contains "node_modules"; contains "internal/"; contains "async_hooks";
    String.prefix "Object."; String.prefix "Promise."; String.prefix "process." ].

(** [captureStackSample]. [excludePatterns] is the option of the constructor;
    [lines] is [error.stack.split('\n')], empty when there is no stack, and
    [now] the reading of [Date.now()]. *)
Section Capture.
Variable excludePatterns : list (string → bool).

Definition shouldExclude (name : string) : bool :=
  existsb (λ pattern, pattern name) excludePatterns.

Definition functionNames (lines : list string) : list string :=
  filter (λ name, name ≠ "" ∧ shouldExclude name = false)
         (extractFunctionName <$> drop 2 lines).

Definition captureStackSample (lines : list string) (now : Z)
    (t : Tracer) : Tracer :=
  let functionNames := functionNames lines in
  if decide (length functionNames = 0) then t
  else
    let sample := mkSample now functionNames (currentAsyncId t) in
    let samples :=
      match samples t !! currentAsyncId t with
      | Some _ => samples t
      | None => <[currentAsyncId t := []]> (samples t)
      end in
    let samples :=
      <[currentAsyncId t := default [] (samples !! currentAsyncId t) ++ [sample]]> samples in
    processSamples (currentAsyncId t)
      (mkTracer samples (activeSpans t) (currentAsyncId t) (spans t)).

(** What the environment does to a tracer: an async hook fires or the
    sampling timer ticks. The stack text of a tick is whatever the engine
    puts into [error.stack]; [stack_ok] restricts the filtered stacks the
    ticks capture, and with [λ _, True] a run ranges over every stack text,
    which is more than the timer callback of [start] can see. *)
Inductive step (stack_ok : list string → Prop) : Tracer → Tracer → Prop :=
  | step_hook asyncId t :
      step stack_ok t (setCurrent asyncId t)
  | step_destroy asyncId now t :
      step stack_ok t (flushAsyncContext asyncId now t)
  | step_tick lines now t :
      stack_ok (functionNames lines) →
      step stack_ok t (captureStackSample lines now t).

Definition reachable (stack_ok : list string → Prop) (t : Tracer) : Prop :=
  rtc (step stack_ok) initial t.
End Capture.

(** The bookkeeping invariants. [holds t ctx frame ref]: the table of
    context [ctx] has the span [ref] under [frame]. *)
Definition holds (t : Tracer) (asyncId : Z) (frame : string) (ref : nat) : Prop :=
  ∃ table, activeSpans t !! asyncId = Some table ∧ table !! frame = Some ref.

Definition tables_open (t : Tracer) : Prop :=
  ∀ ctx frame ref, holds t ctx frame ref → is_open (spans t) ref.

Definition held_once (t : Tracer) : Prop :=
  ∀ c1 f1 c2 f2 ref,
    holds t c1 f1 ref → holds t c2 f2 ref → c1 = c2 ∧ f1 = f2.

(** A table whose spans are open and held once. *)
Definition table_ok (st : gmap string nat * SpanStore Z) : Prop :=
  (∀ f ref, st.1 !! f = Some ref → is_open st.2 ref) ∧
  (∀ f1 f2 ref, st.1 !! f1 = Some ref → st.1 !! f2 = Some ref → f1 = f2).

(** No span left a table without being ended. *)
Definition open_spans_held (t : Tracer) : Prop :=
  ∀ ref, is_open (spans t) ref → ∃ ctx frame, holds t ctx frame ref.

(** The stack of the last sample recorded for a context. *)
Definition lastStack (t : Tracer) (asyncId : Z) : option (list string) :=
  samples t !! asyncId ≫= λ l, s_stack <$> last l.

Definition keys_in_last_stack (t : Tracer) : Prop :=
  ∀ ctx frame ref, holds t ctx frame ref →
    ∃ stack, lastStack t ctx = Some stack ∧ frame ∈ stack.

Definition last_stacks_distinct (t : Tracer) : Prop :=
  ∀ ctx stack, lastStack t ctx = Some stack → NoDup stack.

(** The invariant of the runs whose stacks repeat no frame. *)
Definition distinct_inv (t : Tracer) : Prop :=
  tables_open t ∧ held_once t ∧ keys_in_last_stack t ∧
  last_stacks_distinct t ∧ open_spans_held t.

End Sampler.

(** ** The batch reconstructor: [processProfileToSpans] of srv/tracer.ts *)

(** What a call does: it returns, or it throws. *)
Inductive outcome (A : Type) :=
  | Returned (a : A)
  | Thrown (error : string).
Arguments Returned {A} _.
Arguments Thrown {A} _.

(** JavaScript numbers are doubles; the reconstructor only adds, divides,
    takes remainders and rounds them, through this interface. [num_nan] is
    what adding [undefined] gives. *)
Class JSNumber (num : Type) := {
  num_add : num → num → num;
  num_mul : num → num → num;
  num_div : num → num → num;
  num_rem : num → num → num;
  num_floor : num → num;
  num_round : num → num;
  num_lit : Z → num;
  num_nan : num
}.

Module Profile.
Import Otel Differ.

(** A node of the call graph: [{id, callFrame: {functionName}, children}];
    a node without [children] has the empty list. *)
#[warnings="-register-all"]
Inductive ProfileNode := mkNode {
  node_id : Z;
  functionName : string;
  children : list ProfileNode
}.

Record CpuProfile (num : Type) := mkProfile {
  nodes : list ProfileNode;
  profileStartTime : num;
  profileSamples : list Z;
  timeDeltas : list num
}.
Arguments mkProfile {num} _ _ _ _.
Arguments nodes {num} _.
Arguments profileStartTime {num} _.
Arguments profileSamples {num} _.
Arguments timeDeltas {num} _.

Record Sample (num : Type) := mkSample {
  s_ts : num;
  s_stack : list string
}.
Arguments mkSample {num} _ _.
Arguments s_ts {num} _.
Arguments s_stack {num} _.

(** [traverse(node)], on the pair [(nodeMap, parentMap)]. *)
Fixpoint traverse (node : ProfileNode) (maps : gmap Z string * gmap Z Z)
    : gmap Z string * gmap Z Z :=
  match node with
  | mkNode id functionName children =>
      let nodeMap :=
        <[id := if decide (functionName = "") then "(anonymous)" else functionName]>
          (fst maps) in
      fold_left
        (λ maps child,
           traverse child (fst maps, <[node_id child := id]> (snd maps)))
        children (nodeMap, snd maps)
  end.

(** [while (currentId !== undefined && nodeMap.has(currentId))
      { stack.unshift(nodeMap.get(currentId)); currentId = parentMap.get(currentId) }].
    The loop need not end (a parent map with a cycle): [None] is a run that
    is still looping after [fuel] iterations. *)
Fixpoint walkUp (fuel : nat) (nodeMap : gmap Z string) (parentMap : gmap Z Z)
    (currentId : option Z) (stack : list string) : option (list string) :=
  match currentId with
  | None => Some stack
  | Some id =>
      match nodeMap !! id with
      | None => Some stack
      | Some name =>
          match fuel with
          | 0 => None
          | S fuel' => walkUp fuel' nodeMap parentMap (parentMap !! id) (name :: stack)
          end
      end
  end.

(** The ids of a call graph, in the order [traverse] visits its nodes. *)
Fixpoint node_ids (node : ProfileNode) : list Z :=
  match node with
  | mkNode id _ children => id :: flat_map node_ids children
  end.

(** [p] occurs in [l] before an occurrence of [c]. *)
Definition before (l : list Z) (p c : Z) : Prop :=
  ∃ l1 l2, l = l1 ++ p :: l2 ∧ c ∈ l2.

Section Numbers.
Context {num : Type} `{JSNumber num}.

Definition HrTime : Type := num * num.

Definition millisecondsToHrTime (ms : num) : HrTime :=
  let seconds := num_floor (num_div ms (num_lit 1000)) in
  let nanos := num_round (num_mul (num_rem ms (num_lit 1000)) (num_lit 1000000)) in
  (seconds, nanos).

(** [profile.profile.samples.forEach((nodeId, index) => ...)], from the
    loop state [(currentTime, samples)] at [index]. *)
Fixpoint buildSamples (fuel : nat) (nodeMap : gmap Z string) (parentMap : gmap Z Z)
    (deltas : list num) (ids : list Z) (index : nat) (currentTime : num)
    (samples : list (Sample num)) : option (list (Sample num)) :=
  match ids with
  | [] => Some samples
  | nodeId :: rest =>
      let currentTime :=
        match deltas !! index with
        | Some timeDelta => num_add currentTime timeDelta
        | None => num_nan
        end in
      match walkUp fuel nodeMap parentMap (Some nodeId) [] with
      | None => None
      | Some stack =>
          buildSamples fuel nodeMap parentMap deltas rest (S index) currentTime
            (samples ++ [mkSample (num_div currentTime (num_lit 1000)) stack])
      end
  end.

(** Steps 1 and 2 of [processProfileToSpans]: the linear samples.
    [profile.profile.nodes[0]] is [undefined] for an empty node array, and
    reading its [id] throws. *)
Definition reconstruct (fuel : nat) (profile : CpuProfile num)
    : option (outcome (list (Sample num))) :=
  match nodes profile with
  | [] => Some (Thrown "TypeError")
  | root :: _ =>
      let '(nodeMap, parentMap) := traverse root (∅, ∅) in
      Returned <$>
        buildSamples fuel nodeMap parentMap (timeDeltas profile)
          (profileSamples profile) 0 (profileStartTime profile) []
  end.

(** Step 3: the table of active spans, keyed by depth, and the store. *)
Definition Active : Type := gmap nat nat * SpanStore HrTime.

(** [for (let i = prevStack.length; i > commonLen; i--)
      if (activeSpans.has(i)) { activeSpans.get(i)?.end(...); activeSpans.delete(i) }]. *)
Fixpoint endOld (i : nat) (commonLen : nat) (ts : num) (st : Active) : Active :=
  match i with
  | 0 => st
  | S i' =>
      if decide (commonLen < i) then
        let st :=
          match fst st !! i with
          | Some span =>
              (delete i (fst st), endSpan span (millisecondsToHrTime ts) (snd st))
          | None => st
          end in
        endOld i' commonLen ts st
      else st
  end.

(** [for (let i = commonLen; i < currStack.length; i++)
      { if (fnName === '(root)') continue; ...; activeSpans.set(i + 1, span) }];
    [spanContext] carries [parentSpan]. *)
Fixpoint startNew (fuel i : nat) (currStack : list string) (ts : num)
    (parentSpan : nat) (st : Active) : Active :=
  match fuel with
  | 0 => st
  | S fuel' =>
      if decide (i < length currStack) then
        let fnName := currStack !!! i in
        let st :=
          if decide (fnName = "(root)") then st
          else
            let '(span, store) :=
              startSpan fnName (millisecondsToHrTime ts) (Some parentSpan) (snd st) in
            (<[i + 1 := span]> (fst st), store) in
        startNew fuel' (S i) currStack ts parentSpan st
      else st
  end.

(** One iteration of [samples.forEach] of step 3, on
    [(activeSpans, store, prevStack)]. *)
Definition processSample (parentSpan : nat) (sample : Sample num)
    (st : Active * list string) : Active * list string :=
  let '(act, prevStack) := st in
  let currStack := s_stack sample in
  let ts := s_ts sample in
  let commonLen := commonLen prevStack currStack in
  let act := endOld (length prevStack) commonLen ts act in
  let act := startNew (length currStack - commonLen) commonLen currStack ts parentSpan act in
  (act, currStack).

Definition processAll (parentSpan : nat) (samples : list (Sample num))
    (st : Active * list string) : Active * list string :=
  fold_left (λ st sample, processSample parentSpan sample st) samples st.

(** The invariant of step 3, for a run that started in [store0] with
    [parentSpan]: the keys of the table are depths between 1 and [n], its
    spans were made by the run, are open and held once; every span of the
    run that is open is held; the spans of the run have [parentSpan] as
    parent, and those of [store0] are untouched. *)
Definition active_inv (store0 : SpanStore HrTime) (parentSpan : nat)
    (n : nat) (st : Active) : Prop :=
  (∀ d ref, st.1 !! d = Some ref →
     1 ≤ d ≤ n ∧ length store0 ≤ ref ∧ is_open st.2 ref) ∧
  (∀ d1 d2 ref, st.1 !! d1 = Some ref → st.1 !! d2 = Some ref → d1 = d2) ∧
  (∀ r, length store0 ≤ r → is_open st.2 r → ∃ d, st.1 !! d = Some r) ∧
  (∀ r s, length store0 ≤ r → st.2 !! r = Some s → parent s = Some parentSpan) ∧
  (∀ r, r < length store0 → st.2 !! r = store0 !! r) ∧
  length store0 ≤ length st.2.

(** [activeSpans.forEach((span) => span.end())]; [now span] is the clock
    reading of the call made for [span]. *)
Definition cleanup (now : nat → HrTime) (st : Active) : SpanStore HrTime :=
  map_fold (λ _ span store, endSpan span (now span) store) (snd st) (fst st).

(** [processProfileToSpans(profile, parentSpan)] in a store that holds
    the spans made so far, [parentSpan] among them. *)
Definition processProfileToSpans (fuel : nat) (profile : CpuProfile num)
    (parentSpan : nat) (now : nat → HrTime) (store : SpanStore HrTime)
    : option (outcome (SpanStore HrTime)) :=
  match reconstruct fuel profile with
  | None => None
  | Some (Thrown e) => Some (Thrown e)
  | Some (Returned samples) =>
      let '(act, _) := processAll parentSpan samples ((∅, store), []) in
      Some (Returned (cleanup now act))
  end.
End Numbers.

End Profile.

(** Exact rational arithmetic as an instance of [JSNumber], for running the
    reconstructor on concrete profiles: [None] is NaN, and the operations
    agree with the double ones wherever those are exact. *)
Module ExactNum.
Definition num : Type := option Q.

Definition lift2 (f : Q → Q → Q) (a b : num) : num :=
  match a, b with
  | Some x, Some y => Some (Qred (f x y))
  | _, _ => None
  end.

Definition trunc (q : Q) : Z := Z.quot (Qnum q) (Z.pos (Qden q)).

Definition div (a b : num) : num :=
  match a, b with
  | Some x, Some y =>
      if decide (Qnum y = 0%Z) then None else Some (Qred (Qdiv x y))
  | _, _ => None
  end.

Definition rem (a b : num) : num :=
  match a, b with
  | Some x, Some y =>
      if decide (Qnum y = 0%Z) then None
      else Some (Qred (Qminus x (Qmult y (inject_Z (trunc (Qdiv x y))))))
  | _, _ => None
  end.

Definition floor (a : num) : num := (λ q, inject_Z (Qfloor q)) <$> a.
Definition round (a : num) : num :=
  (λ q, inject_Z (Qfloor (Qplus q (Qmake 1 2)))) <$> a.

#[global] Instance exact_number : JSNumber num := {
  num_add := lift2 Qplus;
  num_mul := lift2 Qmult;
  num_div := div;
  num_rem := rem;
  num_floor := floor;
  num_round := round;
  num_lit := λ z, Some (inject_Z z);
  num_nan := None
}.
End ExactNum.

(** The scenario of the specification; timestamps are decimal fractions. *)
Definition scenario : list (@Differ.TraceSample Q) :=
  [ Differ.mkTraceSample (Qmake 75 10) ["main"];
    Differ.mkTraceSample (Qmake 91 10) ["main"; "fn1"; "fn2"];
    Differ.mkTraceSample (Qmake 93 10) ["main"; "fn2"; "fn1"];
    Differ.mkTraceSample (Qmake 107 10) ["main"] ].

Definition scenario_events : list (TraceEvent Q) :=
  [ mkEvent START (Qmake 91 10) "fn1";
    mkEvent START (Qmake 91 10) "fn2";
    mkEvent END (Qmake 93 10) "fn2";
    mkEvent END (Qmake 93 10) "fn1";
    mkEvent START (Qmake 93 10) "fn2";
    mkEvent START (Qmake 93 10) "fn1";
    mkEvent END (Qmake 107 10) "fn1";
    mkEvent END (Qmake 107 10) "fn2" ].



(** Concrete profiles: the call graph (root) -> main -> work. *)
Definition graph : Profile.ProfileNode :=
  Profile.mkNode 1 "(root)" [Profile.mkNode 2 "main" [Profile.mkNode 3 "work" []]].

Definition ms (z : Z) : ExactNum.num := Some (inject_Z z).

(** A sample entry (99) that is no node of the graph. *)
Definition unknown_id_profile : Profile.CpuProfile ExactNum.num :=
  Profile.mkProfile [graph] (ms 0) [3; 99; 3]%Z [ms 1000; ms 1000; ms 1000].

(** Two sample entries, one time delta. *)
Definition short_deltas_profile : Profile.CpuProfile ExactNum.num :=
  Profile.mkProfile [graph] (ms 0) [3; 3]%Z [ms 1000].

(** A graph that repeats a node id below itself: main (2) has a child with
    the id 2, so the parent map sends 2 to 2. *)
Definition repeated_id_graph : Profile.ProfileNode :=
  Profile.mkNode 1 "(root)" [Profile.mkNode 2 "main" [Profile.mkNode 2 "main" []]].

Definition repeated_id_profile : Profile.CpuProfile ExactNum.num :=
  Profile.mkProfile [repeated_id_graph] (ms 0) [2]%Z [ms 1000].

(** main alone, then main calling work. *)
Definition nested_profile : Profile.CpuProfile ExactNum.num :=
  Profile.mkProfile [graph] (ms 0) [2; 3]%Z [ms 1000; ms 1000].

(** The span under which the profile is processed, made by the caller. *)
Definition caller_store : Otel.SpanStore (@Profile.HrTime ExactNum.num) :=
  [Otel.mkSpan "request" (ms 0, ms 0) None Otel.UNSET None].

(** The live sampler after two ticks in the context 0: the stack x, then a
    called twice below it on the captured stack. A captured stack starts with
    the line of the error and the frame of [captureStackSample]. *)
Definition frameLine (name : string) : string :=
  String.append "    at " (String.append name " (/srv/app.js:1:1)").

Definition capturedLines (frames : list string) : list string :=
  "Error" :: frameLine "CAPStackSamplingTracer.captureStackSample"
    :: (frameLine <$> frames).

Definition tick (frames : list string) (now : Z) (t : Sampler.Tracer)
    : Sampler.Tracer :=
  Sampler.captureStackSample Sampler.defaultExcludePatterns
    (capturedLines frames) now t.

Definition repeated_frame_run : Sampler.Tracer :=
  tick ["a"; "a"; "x"] 20 (tick ["x"] 10 Sampler.initial).






(** * More of the code *)

(** ** Replaying a trace

    What the events of a trace say: START enters a frame, END leaves the
    frame that was entered last. The replayed stack has its innermost frame
    first; a trace that leaves a frame other than the innermost one does not
    replay. *)
Module Replay.
Section Replay.
Context {T : Type}.

Definition replayEvent (stack : list string) (event : TraceEvent T)
    : option (list string) :=
  match kind event, stack with
  | START, _ => Some (name event :: stack)
  | END, top :: rest => if decide (top = name event) then Some rest else None
  | END, [] => None
  end.

Fixpoint replay (events : list (TraceEvent T)) (stack : list string)
    : option (list string) :=
  match events with
  | [] => Some stack
  | event :: events =>
      match replayEvent stack event with
      | Some stack => replay events stack
      | None => None
      end
  end.

Definition count_kind (k : Kind) (events : list (TraceEvent T)) : nat :=
  length (filter (λ event, kind event = k) events).

End Replay.
End Replay.

(** ** [captureStack] of stack-to-trace.js

    [obj.stack.split('\n').slice(skipFrames).map(...).reverse()]; a line
    gives the first match of [/at\s+([^\s]+)\s+/], or ['anonymous']. A match at
    a position reads [at], the white space that follows, the longest run of
    characters that are no white space, and needs white space after it. *)
Module Capture.
Import Sampler.

Fixpoint take_word (s : string) : string :=
  match s with
  | String c rest => if is_space c then EmptyString else String c (take_word rest)
  | EmptyString => EmptyString
  end.

Fixpoint skip_word (s : string) : string :=
  match s with
  | String c rest => if is_space c then s else skip_word rest
  | EmptyString => s
  end.

Definition word_here (s : string) : option string :=
  match strip_prefix "at" s with
  | None => None
  | Some rest =>
      match after_spaces rest with
      | None => None
      | Some rest =>
          match take_word rest, skip_word rest with
          | String c word, String _ _ => Some (String c word)
          | _, _ => None
          end
      end
  end.

Fixpoint search_word (s : string) : option string :=
  match word_here s with
  | Some word => Some word
  | None =>
      match s with
      | String _ rest => search_word rest
      | EmptyString => None
      end
  end.

Definition frameName (line : string) : string :=
  default "anonymous" (search_word line).

Definition captureStack (skipFrames : nat) (stackLines : list string)
    : list string :=
  reverse (frameName <$> drop skipFrames stackLines).

(** Every character of a string passes the test. *)
Fixpoint all_chars (test : ascii → bool) (s : string) : bool :=
  match s with
  | String c rest => test c && all_chars test rest
  | EmptyString => true
  end.

End Capture.

(** ** [stop] of the sampler

    [enabled] is the flag of the class. [stop] returns at once when the flag
    is off; otherwise it clears the timer, disables the async hook, so that
    no hook fires during the call, and flushes every context that has a
    table, [now span] being the clock reading of the [span.end()] made for
    [span]. [start], which enables the hook and creates the timer, is not
    modelled: the hooks that fire while it runs are the engine's. *)
Module Lifecycle.
Import Otel Sampler.

Record Sampling := mkSampling {
  enabled : bool;
  tracer : Tracer
}.

(** [this.activeSpans.forEach((_, asyncId) => this.flushAsyncContext(asyncId))]:
    a flush removes the entry being visited only, so every context that had a
    table is visited once. *)
Definition flushAll (now : nat → Z) (t : Tracer) : Tracer :=
  map_fold (λ asyncId _ t, flushAsyncContext asyncId now t) t (activeSpans t).

Definition stop (now : nat → Z) (s : Sampling) : Sampling :=
  if enabled s then mkSampling false (flushAll now (tracer s)) else s.

(** How a span may change between two states of a store: its name, start
    time and parent stay, and once it has ended nothing of it changes. *)
Definition evolves {T : Type} (s s' : Span T) : Prop :=
  span_name s' = span_name s ∧ startTime s' = startTime s ∧
  parent s' = parent s ∧ (endTime s ≠ None → s' = s).

Definition store_evolves {T : Type} (store store' : SpanStore T) : Prop :=
  ∀ r s, store !! r = Some s → ∃ s', store' !! r = Some s' ∧ evolves s s'.

(** A frame name that may become a span name under [excludePatterns]. *)
Definition allowed (excludePatterns : list (string → bool)) (name : string) : Prop :=
  name ≠ "" ∧ shouldExclude excludePatterns name = false.

(** The samples and spans of a tracer whose frames all passed the filter. *)
Definition names_allowed (excludePatterns : list (string → bool)) (t : Tracer) : Prop :=
  (∀ ctx l sample, samples t !! ctx = Some l → sample ∈ l →
     s_asyncId sample = ctx ∧ s_stack sample ≠ [] ∧
     Forall (allowed excludePatterns) (s_stack sample)) ∧
  (∀ r s, spans t !! r = Some s → allowed excludePatterns (span_name s)).

(** The statuses the sampler gives: no span has the status ERROR, one with
    the status OK has ended, and the span a table holds under a frame has
    that frame as name and no status yet; of one store, of one table and of a
    tracer. *)
Definition statuses_ok (store : SpanStore Z) : Prop :=
  ∀ r s, store !! r = Some s →
    status s ≠ ERROR ∧ (status s = OK → endTime s ≠ None).

Definition table_named (st : gmap string nat * SpanStore Z) : Prop :=
  ∀ f ref, st.1 !! f = Some ref →
    ∃ s, st.2 !! ref = Some s ∧ span_name s = f ∧ status s = UNSET.

Definition status_sound (t : Tracer) : Prop :=
  (∀ r s, spans t !! r = Some s →
     status s ≠ ERROR ∧ (status s = OK → endTime s ≠ None)) ∧
  (∀ ctx frame ref, holds t ctx frame ref →
     ∃ s, spans t !! ref = Some s ∧ span_name s = frame ∧ status s = UNSET).

End Lifecycle.

(** ** The call graph, node by node *)
Module Graph.
Import Otel Profile.

(** [node.callFrame.functionName || '(anonymous)']. *)
Definition frameOf (functionName : string) : string :=
  if decide (functionName = "") then "(anonymous)" else functionName.

(** The nodes of a graph in the order [traverse] visits them, each with its
    frame, the frames of the nodes above it (outermost first) and the id of
    its parent. *)
Fixpoint node_entries (outer : list string) (parent : option Z)
    (node : ProfileNode) : list (Z * string * list string * option Z) :=
  match node with
  | mkNode id functionName children =>
      (id, frameOf functionName, outer, parent)
        :: flat_map (node_entries (outer ++ [frameOf functionName]) (Some id)) children
  end.

Definition entry_id (e : Z * string * list string * option Z) : Z := e.1.1.1.
Definition entry_frame (e : Z * string * list string * option Z) : string := e.1.1.2.
Definition entry_outer (e : Z * string * list string * option Z) : list string := e.1.2.
Definition entry_parent (e : Z * string * list string * option Z) : option Z := e.2.

(** The entries written into the two maps, one after the other. *)
Definition insert_frames (entries : list (Z * string * list string * option Z))
    (nodeMap : gmap Z string) : gmap Z string :=
  fold_left (λ m e, <[entry_id e := entry_frame e]> m) entries nodeMap.

Definition insert_parents (entries : list (Z * string * list string * option Z))
    (parentMap : gmap Z Z) : gmap Z Z :=
  fold_left
    (λ m e, match entry_parent e with
            | Some p => <[entry_id e := p]> m
            | None => m
            end)
    entries parentMap.

Section Mirror.
Context {num : Type} `{JSNumber num}.

(** The table of step 3 mirrors the first [n] frames of a stack: its keys
    are depths between 1 and [n], held once; the frame at index [i] has a
    span at depth [i + 1], open and named after it, unless it is the root
    frame, which has none. *)
Definition mirrors (n : nat) (st : @Active num) (stack : list string) : Prop :=
  (∀ d ref, st.1 !! d = Some ref → 1 ≤ d ≤ n) ∧
  (∀ d1 d2 ref, st.1 !! d1 = Some ref → st.1 !! d2 = Some ref → d1 = d2) ∧
  (∀ i frame, i < n → stack !! i = Some frame →
     match st.1 !! (S i) with
     | Some ref =>
         frame ≠ "(root)" ∧
         ∃ s, st.2 !! ref = Some s ∧ span_name s = frame ∧ endTime s = None
     | None => frame = "(root)"
     end).
End Mirror.

End Graph.

(** ** [CAPEventTracer.wrapHandler]

    [wrappedHandler] is an async function: a call returns a promise, and the
    model gives how that promise settles. It starts a span with two
    attributes and awaits the handler. When the await gives a value it sets
    the status OK and the promise is fulfilled with the value. When the
    await throws it reads [error.message], sets the status ERROR with it,
    calls [recordException] and throws the error again; reading the message
    of [null] or [undefined] is a TypeError, which leaves the [catch] block
    at once. Either way [finally] ends the span. The spans are kept as in the
    store of the sampler, here with what this tracer writes into them;
    [start] and [now] are the clock readings of [startSpan] and [end]. *)
Module EventTracer.
Import Otel.

Inductive AttributeValue :=
  | AttrString (s : string)
  | AttrBool (b : bool).

(** What a handler throws, as [catch (error)] gets it: [null] or
    [undefined], or a value of [E], whose [message] property the section
    below takes as a function of it. *)
Inductive Caught (E : Type) :=
  | Nullish
  | Value (e : E).
Arguments Nullish {E}.
Arguments Value {E} e.

(** What [wrappedHandler] throws: what it caught, or the TypeError of
    [error.message]. *)
Inductive Raised (E : Type) :=
  | Rethrown (error : Caught E)
  | MessageTypeError.
Arguments Rethrown {E} error.
Arguments MessageTypeError {E}.

(** How a promise settles. *)
Inductive settled (R X : Type) :=
  | Fulfilled (value : R)
  | Rejected (error : X).
Arguments Fulfilled {R X} value.
Arguments Rejected {R X} error.

Section Wrap.
Context {A R E M : Type}.

(** [error.message] of a value that is neither [null] nor [undefined];
    [M] has whatever the property can hold, [undefined] included. *)
Variable message : E → M.

(** [h_message] is the message [setStatus] was given, [None] when it was
    given none; [h_exceptions] are the values [recordException] was called
    with. *)
Record HandlerSpan := mkHandlerSpan {
  h_name : string;
  h_attributes : list (string * AttributeValue);
  h_start : Z;
  h_status : SpanStatusCode;
  h_message : option M;
  h_exceptions : list (Caught E);
  h_end : option Z
}.

(** An operation on a span that has not ended; an ended span ignores it. *)
Definition on_open (ref : nat) (f : HandlerSpan → HandlerSpan)
    (store : list HandlerSpan) : list HandlerSpan :=
  match store !! ref with
  | Some s => match h_end s with
              | None => <[ref := f s]> store
              | Some _ => store
              end
  | None => store
  end.

Definition h_setStatus (ref : nat) (code : SpanStatusCode) (msg : option M) :=
  on_open ref (λ s, mkHandlerSpan (h_name s) (h_attributes s) (h_start s) code msg
                      (h_exceptions s) (h_end s)).

Definition h_recordException (ref : nat) (error : Caught E) :=
  on_open ref (λ s, mkHandlerSpan (h_name s) (h_attributes s) (h_start s) (h_status s)
                      (h_message s) (h_exceptions s ++ [error]) (h_end s)).

Definition h_endSpan (ref : nat) (now : Z) :=
  on_open ref (λ s, mkHandlerSpan (h_name s) (h_attributes s) (h_start s) (h_status s)
                      (h_message s) (h_exceptions s) (Some now)).

(** [await handler.apply(this, args)]: the value the await gives or the
    error it throws (thrown by the call itself or the reason of a rejected
    promise), and the store as it is when the await is over. *)
Definition Handler : Type :=
  A → list HandlerSpan → settled R (Caught E) * list HandlerSpan.

Definition Wrapped : Type :=
  A → list HandlerSpan → settled R (Raised E) * list HandlerSpan.

Definition newSpan (spanName : string) (isAsync : bool) (start : Z) : HandlerSpan :=
  mkHandlerSpan spanName
    [("cap.event.name", AttrString spanName); ("cap.handler.async", AttrBool isAsync)]
    start UNSET None [] None.

(** [isAsync] is [handler.constructor.name === 'AsyncFunction']. *)
Definition wrapHandler (handler : Handler) (isAsync : bool) (spanName : string)
    (start now : Z) : Wrapped :=
  λ args store,
    let span := length store in
    let store := store ++ [newSpan spanName isAsync start] in
    let '(result, store) := handler args store in
    let '(result, store) :=
      match result with
      | Fulfilled value => (Fulfilled value, h_setStatus span OK None store)
      | Rejected Nullish => (Rejected MessageTypeError, store)
      | Rejected (Value e) =>
          (Rejected (Rethrown (Value e)),
           h_recordException span (Value e)
             (h_setStatus span ERROR (Some (message e)) store))
      end in
    (result, h_endSpan span now store).

End Wrap.
Arguments HandlerSpan : clear implicits.
End EventTracer.
(** * Properties *)

(** A decidable closed proposition, settled by evaluation. *)
Ltac by_compute := apply (bool_decide_unpack _); vm_compute; exact I.

(** ** The stack differ *)

Module DifferFacts.
Import Differ.
Section DifferFacts.
Context {T : Type}.
Implicit Types (prev curr : list string) (t : T) (events : list (TraceEvent T)).

Lemma commonLen_loop_spec fuel prev curr c :
  c ≤ length prev → c ≤ length curr →
  (∀ i, i < c → prev !! i = curr !! i) →
  length prev - c ≤ fuel →
  longest_common_prefix prev curr (commonLen_loop fuel prev curr c).
Proof.
  revert c. induction fuel as [|fuel IH]; intros c Hp Hc Hagree Hfuel; simpl.
  - repeat split; auto; lia.
  - destruct (prev !! c) as [a|] eqn:Ea; [destruct (curr !! c) as [b|] eqn:Eb|].
    + case_bool_decide as Hab.
      * subst b. apply IH.
        -- apply lookup_lt_Some in Ea. lia.
        -- apply lookup_lt_Some in Eb. lia.
        -- intros i Hi. destruct (decide (i = c)) as [->|]; [congruence|].
           apply Hagree. lia.
        -- lia.
      * repeat split; auto. intros _ _. rewrite Ea, Eb. congruence.
    + apply lookup_ge_None in Eb. repeat split; auto; lia.
    + apply lookup_ge_None in Ea. repeat split; auto; lia.
Qed.

Lemma commonLen_spec prev curr :
  longest_common_prefix prev curr (commonLen prev curr).
Proof. apply commonLen_loop_spec; [lia..| intros; lia | lia]. Qed.

Lemma longest_common_prefix_unique prev curr c c' :
  longest_common_prefix prev curr c → longest_common_prefix prev curr c' → c = c'.
Proof.
  intros (Hp & Hc & Ha & Hd) (Hp' & Hc' & Ha' & Hd').
  destruct (Nat.lt_trichotomy c c') as [Hlt|[->|Hlt]]; [|done|].
  - exfalso. apply Hd; [lia..|]. by apply Ha'.
  - exfalso. apply Hd'; [lia..|]. by apply Ha.
Qed.

Lemma commonLen_refl (s : list string) : commonLen s s = length s.
Proof.
  apply (longest_common_prefix_unique s s); [apply commonLen_spec|].
  repeat split; auto; lia.
Qed.

Lemma endLoop_spec n prev c t events :
  n ≤ length prev →
  endLoop n prev c t events
  = events ++ (mkEvent END t <$> reverse (drop c (take n prev))).
Proof.
  revert events. induction n as [|i IH]; intros events Hn; simpl.
  - by rewrite take_0, drop_nil, app_nil_r.
  - destruct (lookup_lt_is_Some_2 prev i) as [x Hx]; [lia|].
    case_decide as Hci.
    + rewrite IH by lia. rewrite (take_S_r _ _ _ Hx).
      rewrite drop_app_le by (rewrite length_take; lia).
      rewrite reverse_app. simpl.
      rewrite (list_lookup_total_correct _ _ _ Hx).
      by rewrite <- app_assoc.
    + rewrite drop_ge by (rewrite length_take; lia).
      by rewrite app_nil_r.
Qed.

Lemma startLoop_spec fuel i curr t events :
  startLoop fuel i curr t events
  = events ++ (mkEvent START t <$> take fuel (drop i curr)).
Proof.
  revert i events. induction fuel as [|fuel IH]; intros i events; simpl.
  - by rewrite app_nil_r.
  - case_decide as Hi.
    + destruct (lookup_lt_is_Some_2 curr i) as [x Hx]; [lia|].
      rewrite IH, (drop_S _ _ _ Hx). simpl.
      rewrite (list_lookup_total_correct _ _ _ Hx).
      by rewrite <- app_assoc.
    + rewrite drop_ge by lia. by rewrite app_nil_r.
Qed.

Lemma diffInto_spec prev curr t events :
  diffInto prev curr t events
  = events
    ++ (mkEvent END t <$> reverse (drop (commonLen prev curr) prev))
    ++ (mkEvent START t <$> drop (commonLen prev curr) curr).
Proof.
  unfold diffInto. rewrite startLoop_spec, endLoop_spec by lia.
  rewrite firstn_all. rewrite take_ge by (rewrite length_drop; lia).
  by rewrite <- app_assoc.
Qed.

Lemma convertSamplesToEvents_spec prev curr t :
  convertSamplesToEvents prev curr t
  = (mkEvent END t <$> reverse (drop (commonLen prev curr) prev))
    ++ (mkEvent START t <$> drop (commonLen prev curr) curr).
Proof. unfold convertSamplesToEvents. by rewrite diffInto_spec. Qed.

Lemma diffInto_app prev curr t events :
  diffInto prev curr t events = events ++ convertSamplesToEvents prev curr t.
Proof. by rewrite diffInto_spec, convertSamplesToEvents_spec. Qed.

Lemma convertSamplesToEvents_same (s : list string) t :
  convertSamplesToEvents s s t = [].
Proof.
  rewrite convertSamplesToEvents_spec, commonLen_refl.
  by rewrite drop_all.
Qed.

End DifferFacts.
End DifferFacts.

Module DifferClaims.
Import Differ DifferFacts.
Section DifferClaims.
Context {T : Type}.

(** C1. For every pair of stacks and every timestamp, the events of one diff
    are [length prev - c] END events followed by [length curr - c] START
    events, [c] being the length of the longest common prefix of the two
    stacks under name equality. The [k]-th END event names frame
    [length prev - 1 - k] of the previous stack (innermost first, indices
    strictly descending) and the [k]-th START event names frame [c + k] of
    the current stack (outermost first, indices strictly ascending); the
    loop body of [convertSamplesToTrace] appends exactly these events. *)
Theorem diff_ends_then_starts (prev curr : list string) (t : T) :
  ∃ (c : nat) (ends starts : list (TraceEvent T)),
    longest_common_prefix prev curr c ∧
    convertSamplesToEvents prev curr t = ends ++ starts ∧
    (∀ events, diffInto prev curr t events = events ++ ends ++ starts) ∧
    length ends = length prev - c ∧
    length starts = length curr - c ∧
    (∀ k, k < length prev - c →
       ∃ frame, prev !! (length prev - 1 - k) = Some frame ∧
                ends !! k = Some (mkEvent END t frame)) ∧
    (∀ k, k < length curr - c →
       ∃ frame, curr !! (c + k) = Some frame ∧
                starts !! k = Some (mkEvent START t frame)).
Proof.
  set (c := commonLen prev curr).
  exists c, (mkEvent END t <$> reverse (drop c prev)),
         (mkEvent START t <$> drop c curr).
  pose proof (commonLen_spec prev curr) as (Hp & Hc & _).
  split; [apply commonLen_spec|].
  split; [apply convertSamplesToEvents_spec|].
  split; [intros; apply diffInto_spec|].
  split; [by rewrite length_fmap, length_reverse, length_drop|].
  split; [by rewrite length_fmap, length_drop|].
  split.
  - intros k Hk.
    destruct (lookup_lt_is_Some_2 prev (length prev - 1 - k)) as [x Hx]; [lia|].
    exists x. split; [done|].
    rewrite list_lookup_fmap, reverse_lookup by (rewrite length_drop; fold c; lia).
    rewrite length_drop, lookup_drop. fold c.
    replace (c + (length prev - c - S k)) with (length prev - 1 - k) by lia.
    by rewrite Hx.
  - intros k Hk.
    destruct (lookup_lt_is_Some_2 curr (c + k)) as [x Hx]; [fold c; lia|].
    exists x. split; [done|].
    by rewrite list_lookup_fmap, lookup_drop, Hx.
Qed.

End DifferClaims.

(** C2. The four samples main@7.5, main/fn1/fn2@9.1, main/fn2/fn1@9.3 and
    main@10.7, diffed in order with main already open, give no event at 7.5,
    START fn1, START fn2 at 9.1, END fn2, END fn1, START fn2, START fn1 at 9.3
    (common prefix of length 1) and END fn1, END fn2 at 10.7: so it is from
    the loop state whose previous stack is main, and after an earlier sample
    that opened main; when main is not open before, [convertSamplesToTrace]
    puts START main@7.5 in front. *)
Theorem scenario_trace :
  convertSamplesToEvents ["main"] ["main"] (Qmake 75 10) = [] ∧
  convertSamplesToEvents ["main"] ["main"; "fn1"; "fn2"] (Qmake 91 10)
    = [mkEvent START (Qmake 91 10) "fn1"; mkEvent START (Qmake 91 10) "fn2"] ∧
  commonLen ["main"; "fn1"; "fn2"] ["main"; "fn2"; "fn1"] = 1 ∧
  convertSamplesToEvents ["main"; "fn1"; "fn2"] ["main"; "fn2"; "fn1"] (Qmake 93 10)
    = [mkEvent END (Qmake 93 10) "fn2"; mkEvent END (Qmake 93 10) "fn1";
       mkEvent START (Qmake 93 10) "fn2"; mkEvent START (Qmake 93 10) "fn1"] ∧
  convertSamplesToEvents ["main"; "fn2"; "fn1"] ["main"] (Qmake 107 10)
    = [mkEvent END (Qmake 107 10) "fn1"; mkEvent END (Qmake 107 10) "fn2"] ∧
  traceLoop scenario [] ["main"] = scenario_events ∧
  (∀ t0, convertSamplesToTrace (mkTraceSample t0 ["main"] :: scenario)
         = mkEvent START t0 "main" :: scenario_events) ∧
  convertSamplesToTrace scenario
    = mkEvent START (Qmake 75 10) "main" :: scenario_events.
Proof. repeat split; try intros t0; vm_compute; reflexivity. Qed.

End DifferClaims.

(** ** The span store *)

Module OtelFacts.
Import Otel.
Section OtelFacts.
Context {T : Type}.
Implicit Types (store : list (Span T)) (ref r : nat) (t : T).

Lemma length_setStatus ref code store :
  length (setStatus ref code store) = length store.
Proof.
  unfold setStatus. destruct (store !! ref) as [s|]; [|done].
  destruct (endTime s); [done|]. by rewrite length_insert.
Qed.

Lemma length_endSpan ref t store :
  length (endSpan ref t store) = length store.
Proof.
  unfold endSpan. destruct (store !! ref) as [s|]; [|done].
  destruct (endTime s); [done|]. by rewrite length_insert.
Qed.

Lemma setStatus_lookup_ne ref code store r :
  r ≠ ref → setStatus ref code store !! r = store !! r.
Proof.
  intros Hne. unfold setStatus. destruct (store !! ref) as [s|]; [|done].
  destruct (endTime s); [done|]. by rewrite list_lookup_insert_ne.
Qed.

Lemma endSpan_lookup_ne ref t store r :
  r ≠ ref → endSpan ref t store !! r = store !! r.
Proof.
  intros Hne. unfold endSpan. destruct (store !! ref) as [s|]; [|done].
  destruct (endTime s); [done|]. by rewrite list_lookup_insert_ne.
Qed.

Lemma setStatus_open ref code store r :
  is_open store r ↔ is_open (setStatus ref code store) r.
Proof.
  destruct (decide (r = ref)) as [->|Hne].
  - unfold is_open, setStatus.
    destruct (store !! ref) as [s|] eqn:Hs; [|by rewrite Hs].
    destruct (endTime s) eqn:He; [by rewrite Hs|].
    rewrite list_lookup_insert_eq by (by eapply lookup_lt_Some).
    split; intros (s' & ? & ?); simplify_eq; eauto.
  - unfold is_open. by rewrite setStatus_lookup_ne.
Qed.

Lemma setStatus_ended ref code store r t :
  ended_at store r t ↔ ended_at (setStatus ref code store) r t.
Proof.
  destruct (decide (r = ref)) as [->|Hne].
  - unfold ended_at, setStatus.
    destruct (store !! ref) as [s|] eqn:Hs; [|by rewrite Hs].
    destruct (endTime s) eqn:He; [by rewrite Hs|].
    rewrite list_lookup_insert_eq by (by eapply lookup_lt_Some).
    split; intros (s' & ? & ?); simplify_eq/=.
  - unfold ended_at. by rewrite setStatus_lookup_ne.
Qed.

Lemma endSpan_open_ended ref t store :
  is_open store ref → ended_at (endSpan ref t store) ref t.
Proof.
  intros (s & Hs & He). unfold ended_at, endSpan. rewrite Hs, He.
  rewrite list_lookup_insert_eq by (by eapply lookup_lt_Some). eauto.
Qed.

Lemma endSpan_ended_mono ref t store r t' :
  ended_at store r t' → ended_at (endSpan ref t store) r t'.
Proof.
  intros (s & Hs & He). destruct (decide (r = ref)) as [->|Hne].
  - unfold ended_at, endSpan. rewrite Hs, He. eauto.
  - unfold ended_at. rewrite endSpan_lookup_ne by done. eauto.
Qed.

Lemma endSpan_open_ne ref t store r :
  r ≠ ref → is_open store r ↔ is_open (endSpan ref t store) r.
Proof. intros Hne. unfold is_open. by rewrite endSpan_lookup_ne. Qed.

Lemma endSpan_open_inv ref t store r :
  is_open (endSpan ref t store) r → is_open store r ∧ r ≠ ref.
Proof.
  intros Hopen. destruct (decide (r = ref)) as [->|Hne].
  - exfalso. destruct Hopen as (s & Hs & He). unfold endSpan in Hs.
    destruct (store !! ref) as [s0|] eqn:Hs0; [|congruence].
    destruct (endTime s0) eqn:He0; [congruence|].
    rewrite list_lookup_insert_eq in Hs by (by eapply lookup_lt_Some).
    by simplify_eq/=.
  - split; [|done]. by apply (endSpan_open_ne ref t).
Qed.

Lemma startSpan_lookup_old name start ctx store r :
  r < length store →
  (startSpan name start ctx store).2 !! r = store !! r.
Proof. intros Hr. simpl. by rewrite lookup_app_l. Qed.

Lemma startSpan_lookup_new name start ctx store :
  (startSpan name start ctx store).2 !! (startSpan name start ctx store).1
  = Some (mkSpan name start ctx UNSET None).
Proof. simpl. by rewrite list_lookup_middle. Qed.

Lemma startSpan_open_old name start ctx store r :
  is_open store r → is_open (startSpan name start ctx store).2 r.
Proof.
  intros (s & Hs & He). exists s. split; [|done].
  rewrite startSpan_lookup_old; [done|]. by eapply lookup_lt_Some.
Qed.

Lemma startSpan_open_inv name start ctx store r :
  is_open (startSpan name start ctx store).2 r →
  is_open store r ∨ r = length store.
Proof.
  intros (s & Hs & He). simpl in Hs.
  destruct (decide (r < length store)) as [Hlt|Hge].
  - left. rewrite lookup_app_l in Hs by done. by exists s.
  - right. apply lookup_lt_Some in Hs. rewrite length_app in Hs. simpl in Hs. lia.
Qed.

Lemma endSpan_lookup_Some ref t store r s' :
  endSpan ref t store !! r = Some s' →
  ∃ s, store !! r = Some s ∧ span_name s' = span_name s ∧
       startTime s' = startTime s ∧ parent s' = parent s.
Proof.
  destruct (decide (r = ref)) as [->|Hne].
  - unfold endSpan. destruct (store !! ref) as [s|] eqn:Hs; [|by rewrite Hs].
    destruct (endTime s) eqn:He.
    + rewrite Hs. intros [= <-]. eauto.
    + rewrite list_lookup_insert_eq by (by eapply lookup_lt_Some).
      intros [= <-]. eauto.
  - rewrite endSpan_lookup_ne by done. eauto.
Qed.

Lemma setStatus_lookup_Some ref code store r s' :
  setStatus ref code store !! r = Some s' →
  ∃ s, store !! r = Some s ∧ span_name s' = span_name s ∧
       startTime s' = startTime s ∧ parent s' = parent s.
Proof.
  destruct (decide (r = ref)) as [->|Hne].
  - unfold setStatus. destruct (store !! ref) as [s|] eqn:Hs; [|by rewrite Hs].
    destruct (endTime s) eqn:He.
    + rewrite Hs. intros [= <-]. eauto.
    + rewrite list_lookup_insert_eq by (by eapply lookup_lt_Some).
      intros [= <-]. eauto.
  - rewrite setStatus_lookup_ne by done. eauto.
Qed.

Lemma is_open_lt store r : is_open store r → r < length store.
Proof. intros (s & Hs & _). by eapply lookup_lt_Some. Qed.

Lemma open_not_ended store r t : is_open store r → ended_at store r t → False.
Proof. intros (s & Hs & He) (s' & Hs' & He'). congruence. Qed.

(** Ending every span a table holds: [spans.forEach(span => span.end())]. *)
Lemma end_all_spec {K} `{Countable K} (table : gmap K nat) now store :
  let store' := map_fold (λ _ span st, endSpan span (now span) st) store table in
  length store' = length store ∧
  (∀ r t, ended_at store r t → ended_at store' r t) ∧
  (∀ r, is_open store r →
     (ended_at store' r (now r) ∧ ∃ k, table !! k = Some r) ∨
     (is_open store' r ∧ ∀ k, table !! k ≠ Some r)) ∧
  (∀ r, (∀ k, table !! k ≠ Some r) → store' !! r = store !! r).
Proof.
  apply (map_fold_weak_ind
    (λ store' table,
       length store' = length store ∧
       (∀ r t, ended_at store r t → ended_at store' r t) ∧
       (∀ r, is_open store r →
          (ended_at store' r (now r) ∧ ∃ k, table !! k = Some r) ∨
          (is_open store' r ∧ ∀ k, table !! k ≠ Some r)) ∧
       (∀ r, (∀ k, table !! k ≠ Some r) → store' !! r = store !! r))).
  - split; [done|]. split; [done|]. split; [|done].
    intros r Hr. right. split; [done|]. intros k. by rewrite lookup_empty.
  - intros k ref m st Hk (Hlen & Hend & Hopen & Hframe).
    split; [by rewrite length_endSpan|].
    split; [intros r t Hr; by apply endSpan_ended_mono, Hend|].
    split.
    + intros r Hr. destruct (Hopen r Hr) as [[He (k' & Hk')]|[Ho Hnot]].
      * left. split; [by apply endSpan_ended_mono|].
        exists k'. rewrite lookup_insert_ne; [done|]. intros ->. congruence.
      * destruct (decide (r = ref)) as [->|Hne].
        -- left. split; [by apply endSpan_open_ended|].
           exists k. by rewrite lookup_insert_eq.
        -- right. split; [by apply endSpan_open_ne|].
           intros k'. rewrite lookup_insert. case_decide; [congruence|apply Hnot].
    + intros r Hnot. rewrite endSpan_lookup_ne.
      * apply Hframe. intros k' Hk'. apply (Hnot k').
        rewrite lookup_insert_ne; [done|]. intros ->. congruence.
      * intros ->. apply (Hnot k). by rewrite lookup_insert_eq.
Qed.

Lemma end_all_open_inv {K} `{Countable K} (table : gmap K nat) now store r :
  is_open (map_fold (λ _ span st, endSpan span (now span) st) store table) r →
  is_open store r ∧ ∀ k, table !! k ≠ Some r.
Proof.
  destruct (end_all_spec table now store) as (Hlen & Hmono & Hends & _).
  intros Hopen. assert (is_open store r) as Ho.
  { pose proof (is_open_lt _ _ Hopen) as Hlt. rewrite Hlen in Hlt.
    destruct (lookup_lt_is_Some_2 store r Hlt) as [s Hs].
    destruct (endTime s) as [e|] eqn:He; [|by exists s].
    exfalso. eapply open_not_ended; [exact Hopen|]. apply Hmono. by exists s. }
  split; [done|].
  destruct (Hends r Ho) as [[He _]|[_ Hnot]]; [|done].
  exfalso. eapply open_not_ended; [exact Hopen|exact He].
Qed.

Lemma end_all_parent {K} `{Countable K} (table : gmap K nat) now store r s' :
  map_fold (λ _ span st, endSpan span (now span) st) store table !! r = Some s' →
  ∃ s, store !! r = Some s ∧ parent s' = parent s.
Proof.
  revert r s'.
  apply (map_fold_weak_ind
    (λ store' (table : gmap K nat),
       ∀ r s', store' !! r = Some s' →
         ∃ s, store !! r = Some s ∧ parent s' = parent s)).
  - eauto.
  - intros k ref m st _ IH r s' (s1 & Hs1 & _ & _ & Hp)%endSpan_lookup_Some.
    destruct (IH r s1 Hs1) as (s & Hs & Hp'). exists s. split; [done|congruence].
Qed.

End OtelFacts.
End OtelFacts.

(** ** The live sampler *)

Module SamplerFacts.
Import Otel OtelFacts Differ DifferFacts Sampler.

Implicit Types (table : gmap string nat) (store : list (Span Z)).
Implicit Types (event : TraceEvent Z) (events : list (TraceEvent Z)).
Implicit Types (t : Tracer).

(** The two lines the source gives as examples, a line without a frame,
    and the default patterns. *)
Lemma extractFunctionName_examples :
  extractFunctionName "    at BooksService.processBooksArray (/path/file.ts:123:45)"
    = "BooksService.processBooksArray" ∧
  extractFunctionName "    at async BooksService.init (/path/file.ts:123:45)"
    = "BooksService.init" ∧
  extractFunctionName "Error" = "unknown" ∧
  shouldExclude defaultExcludePatterns "process.processTimers" = true ∧
  shouldExclude defaultExcludePatterns "BooksService.init" = false.
Proof. repeat split; vm_compute; reflexivity. Qed.

Lemma applyEvent_end_absent table store ts frame :
  table !! frame = None →
  applyEvent (mkEvent END ts frame) (table, store) = (table, store).
Proof. intros Hnone. unfold applyEvent. simpl. by rewrite Hnone. Qed.

Lemma applyEvents_app events1 events2 st :
  applyEvents (events1 ++ events2) st
  = applyEvents events2 (applyEvents events1 st).
Proof. unfold applyEvents. by rewrite fold_left_app. Qed.

Lemma applyEvents_cons event events st :
  applyEvents (event :: events) st = applyEvents events (applyEvent event st).
Proof. done. Qed.

Lemma applyEvent_length event st :
  length st.2 ≤ length (applyEvent event st).2.
Proof.
  destruct st as [table store], event as [[] ts frame]; simpl.
  - rewrite length_app. simpl. lia.
  - destruct (table !! frame); simpl; [|done].
    by rewrite length_endSpan, length_setStatus.
Qed.

Lemma applyEvent_ok event st : table_ok st → table_ok (applyEvent event st).
Proof.
  destruct st as [table store], event as [[] ts frame];
    intros [Hopen Hinj]; simpl in *.
  - split; simpl.
    + intros f ref. rewrite lookup_insert. case_decide.
      * intros [= <-]. eexists. split; [apply list_lookup_middle; done|done].
      * intros Hf. apply (startSpan_open_old frame ts None), (Hopen f ref Hf).
    + intros f1 f2 ref. rewrite !lookup_insert.
      repeat case_decide; subst; try done.
      * intros [= <-] Hf2. apply Hopen, is_open_lt in Hf2. lia.
      * intros Hf1 [= <-]. apply Hopen, is_open_lt in Hf1. lia.
      * apply Hinj.
  - destruct (table !! frame) as [span|] eqn:Hspan; simpl; [|done].
    split; simpl.
    + intros f ref. rewrite lookup_delete. case_decide; [done|].
      intros Hf. apply endSpan_open_ne.
      * intros ->. by specialize (Hinj _ _ _ Hf Hspan).
      * apply setStatus_open, (Hopen f ref Hf).
    + intros f1 f2 ref. rewrite !lookup_delete.
      repeat case_decide; try done. apply Hinj.
Qed.

(** A span of the store that the table does not hold is neither changed nor
    taken into the table. *)
Lemma applyEvent_frame event st r :
  r < length st.2 → (∀ f, st.1 !! f ≠ Some r) →
  (applyEvent event st).2 !! r = st.2 !! r ∧
  (∀ f, (applyEvent event st).1 !! f ≠ Some r).
Proof.
  destruct st as [table store], event as [[] ts frame];
    intros Hr Hnot; simpl in *.
  - split; simpl; [by rewrite lookup_app_l|].
    intros f. rewrite lookup_insert. case_decide; [|apply Hnot].
    intros [= Heq]. lia.
  - destruct (table !! frame) as [span|] eqn:Hspan; simpl; [|done].
    split.
    + rewrite endSpan_lookup_ne, setStatus_lookup_ne; [done|..];
        intros ->; by apply (Hnot frame).
    + intros f. rewrite lookup_delete. case_decide; [done|apply Hnot].
Qed.

Lemma applyEvents_length events st :
  length st.2 ≤ length (applyEvents events st).2.
Proof.
  revert st. induction events as [|event events IH]; intros st; [done|].
  rewrite applyEvents_cons. etrans; [apply (applyEvent_length event)|apply IH].
Qed.

Lemma applyEvents_ok events st : table_ok st → table_ok (applyEvents events st).
Proof.
  revert st. induction events as [|event events IH]; intros st Hok; [done|].
  rewrite applyEvents_cons. by apply IH, applyEvent_ok.
Qed.

Lemma applyEvents_frame events st r :
  r < length st.2 → (∀ f, st.1 !! f ≠ Some r) →
  (applyEvents events st).2 !! r = st.2 !! r ∧
  (∀ f, (applyEvents events st).1 !! f ≠ Some r).
Proof.
  revert st. induction events as [|event events IH]; intros st Hr Hnot; [done|].
  rewrite applyEvents_cons.
  destruct (applyEvent_frame event st r Hr Hnot) as [Heq Hnot'].
  destruct (IH (applyEvent event st)) as [Heq' Hnot''];
    [pose proof (applyEvent_length event st); lia|done|].
  split; [by rewrite Heq'|done].
Qed.

Lemma applyEventsToSpans_unfold asyncId events t :
  applyEventsToSpans asyncId events t
  = let st := applyEvents events (default ∅ (activeSpans t !! asyncId), spans t) in
    mkTracer (samples t) (<[asyncId := st.1]> (activeSpans t))
      (currentAsyncId t) st.2.
Proof.
  unfold applyEventsToSpans.
  destruct (activeSpans t !! asyncId) as [table|] eqn:Htable; simpl.
  - rewrite Htable. simpl. by destruct (applyEvents _ _).
  - rewrite lookup_insert_eq. simpl.
    destruct (applyEvents _ _). simpl. by rewrite insert_insert_eq.
Qed.

Lemma holds_own t asyncId f ref :
  holds t asyncId f ref ↔ default ∅ (activeSpans t !! asyncId) !! f = Some ref.
Proof.
  unfold holds. destruct (activeSpans t !! asyncId) as [table|]; simpl.
  - split; [by intros (? & [= <-] & ?)|eauto].
  - rewrite lookup_empty. split; [by intros (? & ? & ?)|done].
Qed.

(** Replacing the table of one context and the store, where the spans of
    the other tables are left alone. *)
Lemma replace_table_inv t asyncId table' store' smp cur :
  tables_open t → held_once t →
  table_ok (table', store') →
  (∀ r, is_open (spans t) r →
     (∀ f, default ∅ (activeSpans t !! asyncId) !! f ≠ Some r) →
     store' !! r = spans t !! r ∧ ∀ f, table' !! f ≠ Some r) →
  let t' := mkTracer smp (<[asyncId := table']> (activeSpans t)) cur store' in
  tables_open t' ∧ held_once t'.
Proof.
  intros Hopen Honce [Hok1 Hok2] Hframe t'.
  assert (Hother : ∀ ctx f ref, ctx ≠ asyncId → holds t' ctx f ref →
            holds t ctx f ref ∧ is_open (spans t) ref ∧
            ∀ f', default ∅ (activeSpans t !! asyncId) !! f' ≠ Some ref).
  { intros ctx f ref Hne (table & Htable & Hf). simpl in Htable.
    rewrite lookup_insert_ne in Htable by done.
    assert (holds t ctx f ref) as Hh by (by exists table).
    split; [done|]. split; [by eapply Hopen|].
    intros f' Hf'. apply holds_own in Hf'.
    by destruct (Honce _ _ _ _ _ Hh Hf'). }
  assert (Hown : ∀ f ref, holds t' asyncId f ref → table' !! f = Some ref).
  { intros f ref (table & Htable & Hf). simpl in Htable.
    rewrite lookup_insert_eq in Htable. by simplify_eq. }
  split.
  - intros ctx f ref Hh. destruct (decide (ctx = asyncId)) as [->|Hne].
    + apply (Hok1 f), Hown, Hh.
    + destruct (Hother _ _ _ Hne Hh) as (_ & (s & Hs & He) & Hnot).
      destruct (Hframe ref) as [Heq _]; [by exists s|done|].
      exists s. simpl. by rewrite Heq.
  - intros c1 f1 c2 f2 ref H1 H2.
    destruct (decide (c1 = asyncId)) as [->|Hne1];
      destruct (decide (c2 = asyncId)) as [->|Hne2].
    + split; [done|]. eapply Hok2; by apply Hown.
    + exfalso. destruct (Hother _ _ _ Hne2 H2) as (_ & Ho & Hnot).
      destruct (Hframe ref Ho Hnot) as [_ Hnot']. by apply (Hnot' f1), Hown.
    + exfalso. destruct (Hother _ _ _ Hne1 H1) as (_ & Ho & Hnot).
      destruct (Hframe ref Ho Hnot) as [_ Hnot']. by apply (Hnot' f2), Hown.
    + eapply Honce; [by apply (Hother _ _ _ Hne1)|by apply (Hother _ _ _ Hne2)].
Qed.

Lemma own_table_ok t asyncId :
  tables_open t → held_once t →
  table_ok (default ∅ (activeSpans t !! asyncId), spans t).
Proof.
  intros Hopen Honce. split; simpl.
  - intros f ref Hf. apply holds_own in Hf. by eapply Hopen.
  - intros f1 f2 ref Hf1 Hf2. apply holds_own in Hf1, Hf2.
    by destruct (Honce _ _ _ _ _ Hf1 Hf2).
Qed.

Lemma applyEventsToSpans_inv asyncId events t :
  tables_open t → held_once t →
  tables_open (applyEventsToSpans asyncId events t) ∧
  held_once (applyEventsToSpans asyncId events t).
Proof.
  intros Hopen Honce. rewrite applyEventsToSpans_unfold.
  apply replace_table_inv; [done..| |].
  - rewrite <- surjective_pairing. by apply applyEvents_ok, own_table_ok.
  - intros r Hr Hnot. apply applyEvents_frame; [by apply is_open_lt|done].
Qed.

Lemma with_samples_inv t smp :
  tables_open t → held_once t →
  tables_open (mkTracer smp (activeSpans t) (currentAsyncId t) (spans t)) ∧
  held_once (mkTracer smp (activeSpans t) (currentAsyncId t) (spans t)).
Proof. done. Qed.

Lemma processSamples_inv asyncId t :
  tables_open t → held_once t →
  tables_open (processSamples asyncId t) ∧ held_once (processSamples asyncId t).
Proof.
  intros Hopen Honce. unfold processSamples.
  destruct (samples t !! asyncId) as [l|]; [|done].
  case_decide; [done|].
  destruct (l !! _); [|done]. destruct (l !! _); [|done].
  by apply applyEventsToSpans_inv.
Qed.

Lemma flushAsyncContext_inv asyncId now t :
  tables_open t → held_once t →
  tables_open (flushAsyncContext asyncId now t) ∧
  held_once (flushAsyncContext asyncId now t).
Proof.
  intros Hopen Honce. unfold flushAsyncContext.
  destruct (activeSpans t !! asyncId) as [table|] eqn:Htable; [|done].
  destruct (end_all_spec table now (spans t)) as (_ & _ & Hends & Hframe).
  assert (Hsub : ∀ ctx f ref,
    holds (mkTracer (delete asyncId (samples t)) (delete asyncId (activeSpans t))
             (currentAsyncId t)
             (map_fold (λ _ span st, endSpan span (now span) st) (spans t) table))
          ctx f ref → ctx ≠ asyncId ∧ holds t ctx f ref).
  { intros ctx f ref (tb & Htb & Hf). simpl in Htb.
    apply lookup_delete_Some in Htb as [Hne Htb]. split; [done|by exists tb]. }
  split.
  - intros ctx f ref Hh. destruct (Hsub _ _ _ Hh) as [Hne Hh'].
    destruct (Hopen _ _ _ Hh') as (s & Hs & He). exists s. split; [|done].
    simpl. rewrite Hframe; [done|]. intros k Hk.
    assert (holds t asyncId k ref) as Hh'' by (by exists table).
    by destruct (Honce _ _ _ _ _ Hh' Hh'').
  - intros c1 f1 c2 f2 ref H1 H2.
    destruct (Hsub _ _ _ H1) as [_ H1'], (Hsub _ _ _ H2) as [_ H2'].
    by eapply Honce.
Qed.

(** *** The spans of the sampler are started without a context *)

Lemma applyEvent_parent event st :
  (∀ r s, st.2 !! r = Some s → parent s = None) →
  ∀ r s, (applyEvent event st).2 !! r = Some s → parent s = None.
Proof.
  destruct st as [table store], event as [[] ts frame]; intros Hpar r s; simpl in *.
  - intros [Hs|[_ Hs]]%lookup_app_Some; [by eapply Hpar|].
    destruct (r - length store) as [|k]; simpl in Hs; [|done]. by simplify_eq.
  - destruct (table !! frame) as [span|]; simpl; [|by apply Hpar].
    intros (s1 & Hs1 & _ & _ & ->)%endSpan_lookup_Some.
    apply setStatus_lookup_Some in Hs1 as (s0 & Hs0 & _ & _ & ->).
    by eapply Hpar.
Qed.

Lemma applyEvents_parent events st :
  (∀ r s, st.2 !! r = Some s → parent s = None) →
  ∀ r s, (applyEvents events st).2 !! r = Some s → parent s = None.
Proof.
  revert st. induction events as [|event events IH]; intros st Hpar; [done|].
  rewrite applyEvents_cons. by apply IH, applyEvent_parent.
Qed.

Lemma processSamples_parent asyncId t :
  (∀ r s, spans t !! r = Some s → parent s = None) →
  ∀ r s, spans (processSamples asyncId t) !! r = Some s → parent s = None.
Proof.
  intros Hpar. unfold processSamples.
  destruct (samples t !! asyncId) as [l|]; [|done].
  case_decide; [done|].
  destruct (l !! _); [|done]. destruct (l !! _); [|done].
  rewrite applyEventsToSpans_unfold. simpl. by apply applyEvents_parent.
Qed.

Lemma flushAsyncContext_parent asyncId now t :
  (∀ r s, spans t !! r = Some s → parent s = None) →
  ∀ r s, spans (flushAsyncContext asyncId now t) !! r = Some s → parent s = None.
Proof.
  intros Hpar r s. unfold flushAsyncContext.
  destruct (activeSpans t !! asyncId) as [table|]; simpl; [|by apply Hpar].
  intros (s0 & Hs0 & ->)%end_all_parent. by eapply Hpar.
Qed.

(** *** Diffs of stacks without repeated frames *)

Lemma applyEvents_ends names ts st :
  let st' := applyEvents (mkEvent END ts <$> names) st in
  (∀ f, st'.1 !! f = if decide (f ∈ names) then None else st.1 !! f) ∧
  (∀ r, is_open st'.2 r →
     is_open st.2 r ∧ ∀ f, st.1 !! f = Some r → st'.1 !! f = Some r).
Proof.
  revert st. induction names as [|n names IH]; intros [table store].
  - split; [|done]. intros f. case_decide as Hf; [|done]. by apply elem_of_nil in Hf.
  - rewrite fmap_cons, applyEvents_cons.
    destruct (IH (applyEvent (mkEvent END ts n) (table, store))) as [Hdom Hleak].
    unfold applyEvent in Hdom, Hleak |- *.
    cbn [kind name fst snd] in Hdom, Hleak |- *.
    destruct (table !! n) as [span|] eqn:Hn; cbn [fst snd] in *.
    + split.
      * intros f. rewrite Hdom, lookup_delete.
        destruct (decide (f ∈ names)) as [Hin|Hnin].
        -- rewrite decide_True; [done|by right].
        -- destruct (decide (n = f)) as [->|Hne].
           ++ rewrite decide_True; [done|by left].
           ++ rewrite decide_False; [done|].
              intros [->|?]%elem_of_cons; done.
      * intros r Hr. destruct (Hleak r Hr) as [Ho Hkeep].
        apply endSpan_open_inv in Ho as [Ho Hne].
        apply setStatus_open in Ho. split; [done|].
        intros f Hf. apply Hkeep. rewrite lookup_delete_ne; [done|].
        intros ->. congruence.
    + split; [|done].
      intros f. rewrite Hdom.
      destruct (decide (f ∈ names)) as [Hin|Hnin].
      * rewrite decide_True; [done|by right].
      * destruct (decide (n = f)) as [->|Hne].
        -- rewrite decide_True; [done|by left].
        -- rewrite decide_False; [done|].
           intros [->|?]%elem_of_cons; done.
Qed.

Lemma applyEvents_starts names ts st :
  NoDup names → (∀ f, f ∈ names → st.1 !! f = None) →
  let st' := applyEvents (mkEvent START ts <$> names) st in
  (∀ f, f ∉ names → st'.1 !! f = st.1 !! f) ∧
  (∀ f, f ∈ names → is_Some (st'.1 !! f)) ∧
  (∀ r, is_open st'.2 r → (∃ f, st'.1 !! f = Some r) ∨ is_open st.2 r).
Proof.
  revert st. induction names as [|n names IH]; intros [table store] Hnd Hfresh.
  - split; [done|]. split; [|by right]. intros f Hf. by apply elem_of_nil in Hf.
  - rewrite fmap_cons, applyEvents_cons. apply NoDup_cons in Hnd as [Hn Hnd].
    destruct (IH (applyEvent (mkEvent START ts n) (table, store)) Hnd)
      as (Hkeep & Hnew & Hleak).
    { intros f Hf. simpl. rewrite lookup_insert_ne by (intros ->; done).
      apply (Hfresh f). by right. }
    simpl in Hkeep, Hnew, Hleak |- *.
    split; [|split].
    + intros f Hf. apply not_elem_of_cons in Hf as [Hne Hf].
      rewrite Hkeep by done. by rewrite lookup_insert_ne.
    + intros f [->|Hf]%elem_of_cons; [|by apply Hnew].
      rewrite Hkeep by done. rewrite lookup_insert_eq. eauto.
    + intros r Hr. destruct (Hleak r Hr) as [?|Ho]; [by left|].
      apply (startSpan_open_inv n ts None store) in Ho as [Ho| ->]; [by right|].
      left. exists n. rewrite Hkeep by done. by rewrite lookup_insert_eq.
Qed.

Lemma held_dec table r :
  (∃ f, table !! f = Some r) ∨ (∀ f, table !! f ≠ Some r).
Proof.
  destruct (decide (r ∈ (map_to_list table).*2)) as [Hin|Hnin].
  - left. apply list_elem_of_fmap in Hin as ([f r'] & -> & Hin).
    exists f. by apply elem_of_map_to_list in Hin.
  - right. intros f Hf. apply Hnin, list_elem_of_fmap.
    exists (f, r). split; [done|]. by apply elem_of_map_to_list.
Qed.

Lemma common_prefix_take (prev curr : list string) :
  take (commonLen prev curr) prev = take (commonLen prev curr) curr.
Proof.
  destruct (commonLen_spec prev curr) as (Hp & Hc & Hagree & _).
  apply list_eq. intros i.
  destruct (decide (i < commonLen prev curr)) as [Hi|Hi].
  - rewrite !lookup_take_lt by done. by apply Hagree.
  - rewrite !lookup_take_ge by lia. done.
Qed.

(** One diff applied to a table whose keys are frames of the previous
    stack: the keys become frames of the current stack, and no span leaves
    the table open. *)
Lemma applyEvents_diff prev curr ts st :
  NoDup prev → NoDup curr →
  (∀ f, is_Some (st.1 !! f) → f ∈ prev) →
  let st' := applyEvents (convertSamplesToEvents prev curr ts) st in
  (∀ f, is_Some (st'.1 !! f) → f ∈ curr) ∧
  (∀ r, is_open st'.2 r →
     (∃ f, st'.1 !! f = Some r) ∨
     (is_open st.2 r ∧ ∀ f, st.1 !! f ≠ Some r)).
Proof.
  intros Hndp Hndc Hdom. rewrite convertSamplesToEvents_spec, applyEvents_app.
  set (c := commonLen prev curr).
  pose proof (applyEvents_ends (reverse (drop c prev)) ts st) as [Hdom1 Hleak1].
  set (st1 := applyEvents (mkEvent END ts <$> reverse (drop c prev)) st) in *.
  assert (Hst1 : ∀ f, is_Some (st1.1 !! f) → f ∈ take c curr).
  { intros f. rewrite Hdom1. case_decide as Hf; [by intros [? ?]|].
    intros Hsome. apply Hdom in Hsome.
    rewrite <- (take_drop c prev) in Hsome.
    apply elem_of_app in Hsome as [Hin|Hin].
    - unfold c. by rewrite <- common_prefix_take.
    - destruct Hf. by apply elem_of_reverse. }
  assert (Hfresh : ∀ f, f ∈ drop c curr → st1.1 !! f = None).
  { intros f Hf. apply eq_None_not_Some. intros Hsome%Hst1.
    rewrite <- (take_drop c curr) in Hndc.
    apply NoDup_app in Hndc as (_ & Hdisj & _). by eapply Hdisj. }
  assert (Hnd2 : NoDup (drop c curr)).
  { rewrite <- (take_drop c curr) in Hndc. by apply NoDup_app in Hndc as (_ & _ & ?). }
  destruct (applyEvents_starts (drop c curr) ts st1 Hnd2 Hfresh)
    as (Hkeep & Hnew & Hleak2).
  simpl. split.
  - intros f Hsome. destruct (decide (f ∈ drop c curr)) as [Hin|Hnin].
    + by apply (subseteq_drop c curr).
    + rewrite Hkeep in Hsome by done.
      apply Hst1 in Hsome. by apply (subseteq_take c curr).
  - intros r Hr. destruct (Hleak2 r Hr) as [?|Ho]; [by left|].
    destruct (Hleak1 r Ho) as [Ho' Hheld].
    destruct (held_dec st.1 r) as [[f Hf]|Hnot].
    + left. exists f. pose proof (Hheld f Hf) as Hf1.
      rewrite Hkeep; [done|]. intros Hin. apply Hfresh in Hin. congruence.
    + by right.
Qed.

Lemma flushAsyncContext_holds asyncId now t ctx f ref :
  holds (flushAsyncContext asyncId now t) ctx f ref
  ↔ ctx ≠ asyncId ∧ holds t ctx f ref.
Proof.
  unfold flushAsyncContext, holds.
  destruct (activeSpans t !! asyncId) as [table|] eqn:Htable; simpl.
  - split.
    + intros (tb & Htb & Hf). apply lookup_delete_Some in Htb as [Hne Htb].
      split; [done|by exists tb].
    + intros (Hne & tb & Htb & Hf). exists tb. split; [|done].
      by rewrite lookup_delete_ne.
  - split; [|by intros [_ ?]].
    intros (tb & Htb & Hf). split; [|by exists tb]. intros ->. congruence.
Qed.

Lemma flushAsyncContext_lastStack asyncId now t ctx :
  lastStack (flushAsyncContext asyncId now t) ctx
  = if decide (ctx = asyncId) then None else lastStack t ctx.
Proof.
  unfold lastStack, flushAsyncContext.
  destruct (activeSpans t !! asyncId); simpl;
    rewrite lookup_delete; by repeat case_decide; subst.
Qed.

Lemma flushAsyncContext_distinct asyncId now t :
  distinct_inv t → distinct_inv (flushAsyncContext asyncId now t).
Proof.
  intros (Hopen & Honce & Hkeys & Hnd & Hheld).
  destruct (flushAsyncContext_inv asyncId now t Hopen Honce) as [Hopen' Honce'].
  split; [done|]. split; [done|]. split; [|split].
  - intros ctx f ref [Hne Hh]%flushAsyncContext_holds.
    rewrite flushAsyncContext_lastStack, decide_False by done. by eapply Hkeys.
  - intros ctx stack. rewrite flushAsyncContext_lastStack.
    case_decide; [done|apply Hnd].
  - intros r Hr.
    assert (is_open (spans t) r ∧ ∀ f, ¬ holds t asyncId f r) as [Ho Hnot].
    { unfold flushAsyncContext in Hr.
      destruct (activeSpans t !! asyncId) as [table|] eqn:Htable; simpl in Hr.
      - apply end_all_open_inv in Hr as [Ho Hnot]. split; [done|].
        intros f (tb & Htb & Hf). simplify_eq. by apply (Hnot f).
      - split; [done|]. intros f (tb & Htb & _). congruence. }
    destruct (Hheld r Ho) as (ctx & f & Hh). exists ctx, f.
    apply flushAsyncContext_holds. split; [|done]. intros ->. by apply (Hnot f).
Qed.

Section Runs.
Variable excludePatterns : list (string → bool).
Variable stack_ok : list string → Prop.

Lemma captureStackSample_inv lines now t :
  tables_open t → held_once t →
  tables_open (captureStackSample excludePatterns lines now t) ∧
  held_once (captureStackSample excludePatterns lines now t).
Proof.
  intros Hopen Honce. unfold captureStackSample.
  case_decide; [done|]. by apply processSamples_inv.
Qed.

(** A tick with a non-empty stack records the sample and applies the
    diff against the context's last stack, when it has one. *)
Lemma captureStackSample_unfold lines now t :
  let names := functionNames excludePatterns lines in
  let cur := currentAsyncId t in
  let t1 :=
    mkTracer
      (<[cur := default [] (samples t !! cur) ++ [mkSample now names cur]]> (samples t))
      (activeSpans t) cur (spans t) in
  names ≠ [] →
  captureStackSample excludePatterns lines now t
  = match lastStack t cur with
    | Some prev => applyEventsToSpans cur (convertSamplesToEvents prev names now) t1
    | None => t1
    end.
Proof.
  intros names cur t1 Hne. unfold captureStackSample. fold names cur.
  rewrite decide_False by (by destruct names).
  set (old := default [] (samples t !! cur)).
  assert (Hmap :
    (let samples0 := match samples t !! cur with
                     | Some _ => samples t
                     | None => <[cur := []]> (samples t)
                     end in
     <[cur := default [] (samples0 !! cur) ++ [mkSample now names cur]]> samples0)
    = <[cur := old ++ [mkSample now names cur]]> (samples t)).
  { unfold old. destruct (samples t !! cur) as [l|] eqn:Hl; simpl.
    - by rewrite Hl.
    - by rewrite lookup_insert_eq, insert_insert_eq. }
  simpl in Hmap. rewrite Hmap. fold t1.
  unfold processSamples. simpl. rewrite lookup_insert_eq.
  unfold lastStack. fold cur.
  destruct (samples t !! cur) as [l|] eqn:Hl; simpl in *; [|done].
  subst old. destruct (last l) as [p|] eqn:Hlast; simpl.
  - assert (0 < length l) as Hlen by (destruct l; [done|simpl; lia]).
    rewrite decide_False by (rewrite length_app; simpl; lia).
    rewrite length_app. simpl.
    replace (length l + 1 - 2) with (pred (length l)) by lia.
    replace (length l + 1 - 1) with (length l) by lia.
    rewrite lookup_app_l by lia. rewrite <- last_lookup, Hlast.
    by rewrite list_lookup_middle.
  - apply last_None in Hlast as ->. done.
Qed.

Lemma recorded_lastStack (t : Tracer) cur smp sample act store ctx :
  lastStack (mkTracer (<[cur := smp ++ [sample]]> (samples t)) act cur store) ctx
  = if decide (ctx = cur) then Some (s_stack sample) else lastStack t ctx.
Proof.
  unfold lastStack. simpl. case_decide as Hctx.
  - subst. rewrite lookup_insert_eq. simpl. by rewrite last_snoc.
  - by rewrite lookup_insert_ne.
Qed.

Lemma captureStackSample_distinct lines now t :
  NoDup (functionNames excludePatterns lines) →
  distinct_inv t →
  distinct_inv (captureStackSample excludePatterns lines now t).
Proof.
  intros Hnd Hinv.
  destruct (decide (functionNames excludePatterns lines = []))
    as [Hnil|Hne].
  { unfold captureStackSample. by rewrite Hnil. }
  rewrite captureStackSample_unfold by done.
  destruct Hinv as (Hopen & Honce & Hkeys & Hdist & Hheld).
  set (names := functionNames excludePatterns lines) in *.
  set (cur := currentAsyncId t).
  set (sample := mkSample now names cur).
  set (t1 := mkTracer _ _ _ _).
  assert (Hlast1 : ∀ ctx, lastStack t1 ctx
            = if decide (ctx = cur) then Some names else lastStack t ctx).
  { intros ctx. unfold t1. apply recorded_lastStack. }
  assert (Hdist1 : ∀ ctx stack, lastStack t1 ctx = Some stack → NoDup stack).
  { intros ctx stack. rewrite Hlast1. case_decide; [by intros [= <-]|apply Hdist]. }
  destruct (lastStack t cur) as [prev|] eqn:Hprev.
  - rewrite applyEventsToSpans_unfold.
    change (activeSpans t1) with (activeSpans t).
    change (spans t1) with (spans t). change (samples t1) with (samples t1).
    set (table0 := default ∅ (activeSpans t !! cur)).
    destruct (applyEvents_diff prev names now (table0, spans t)) as [Hdom Hleak].
    { by eapply Hdist. }
    { done. }
    { intros f [ref Hf]. apply holds_own in Hf.
      destruct (Hkeys _ _ _ Hf) as (stack & Hstack & Hin). congruence. }
    set (st' := applyEvents (convertSamplesToEvents prev names now) (table0, spans t)) in *.
    destruct (applyEventsToSpans_inv cur (convertSamplesToEvents prev names now) t1)
      as [Hopen' Honce']; [done..|].
    rewrite applyEventsToSpans_unfold in Hopen', Honce'.
    change (activeSpans t1) with (activeSpans t) in Hopen', Honce'.
    change (spans t1) with (spans t) in Hopen', Honce'.
    fold table0 st' in Hopen', Honce'. cbv zeta in Hopen', Honce' |- *.
    set (t' := mkTracer _ (<[cur := _]> _) _ _) in *.
    assert (Hholds : ∀ ctx f ref, holds t' ctx f ref ↔
              if decide (ctx = cur) then st'.1 !! f = Some ref else holds t ctx f ref).
    { intros ctx f ref. unfold holds, t'. simpl. case_decide as Hctx.
      - subst. rewrite lookup_insert_eq. split; [by intros (? & [= <-] & ?)|eauto].
      - by rewrite lookup_insert_ne. }
    split; [done|]. split; [done|]. split; [|split].
    + intros ctx f ref Hh. apply Hholds in Hh.
      change (lastStack t' ctx) with (lastStack t1 ctx). rewrite Hlast1.
      case_decide; [|by eapply Hkeys].
      exists names. split; [done|]. apply Hdom. eauto.
    + intros ctx stack. change (lastStack t' ctx) with (lastStack t1 ctx).
      apply Hdist1.
    + intros r Hr. destruct (Hleak r Hr) as [[f Hf]|[Ho Hnot]].
      * exists cur, f. apply Hholds. by rewrite decide_True.
      * destruct (Hheld r Ho) as (ctx & f & Hh). exists ctx, f.
        apply Hholds. case_decide as Hctx; [|done].
        subst. apply holds_own in Hh. by destruct (Hnot f).
  - split; [done|]. split; [done|]. split; [|split; [done|done]].
    intros ctx f ref Hh. change (holds t ctx f ref) in Hh.
    rewrite Hlast1. case_decide as Hctx; [|by eapply Hkeys].
    subst. destruct (Hkeys _ _ _ Hh) as (stack & Hstack & _). congruence.
Qed.

Lemma reachable_parent t :
  reachable excludePatterns stack_ok t →
  ∀ r s, spans t !! r = Some s → parent s = None.
Proof.
  unfold reachable. revert t.
  apply (rtc_ind_r (λ t, ∀ r s, spans t !! r = Some s → parent s = None));
    [done|].
  intros t1 t2 _ Hstep IH. destruct Hstep.
  - done.
  - by apply flushAsyncContext_parent.
  - unfold captureStackSample. case_decide; [done|].
    by apply processSamples_parent.
Qed.

Lemma step_distinct t t' :
  step excludePatterns NoDup t t' →
  distinct_inv t → distinct_inv t'.
Proof.
  intros Hstep Hinv. destruct Hstep.
  - done.
  - by apply flushAsyncContext_distinct.
  - by apply captureStackSample_distinct.
Qed.

(** The invariant of the runs in which no captured stack repeats a
    frame: the keys of a table are frames of the context's last stack,
    and every open span is held by a table. *)
Lemma reachable_distinct t :
  reachable excludePatterns NoDup t → distinct_inv t.
Proof.
  unfold reachable. revert t. apply rtc_ind_r.
  - split; [|split; [|split; [|split]]].
    + by intros ctx f ref (tb & Htb & _).
    + by intros c1 f1 c2 f2 ref (tb & Htb & _).
    + by intros ctx f ref (tb & Htb & _).
    + by intros ctx stack.
    + intros r (s & Hs & _). done.
  - intros t1 t2 _ Hstep IH. by eapply step_distinct.
Qed.

Lemma step_inv t t' :
  step excludePatterns stack_ok t t' →
  tables_open t ∧ held_once t → tables_open t' ∧ held_once t'.
Proof.
  intros Hstep [Hopen Honce]. destruct Hstep.
  - done.
  - by apply flushAsyncContext_inv.
  - by apply captureStackSample_inv.
Qed.

(** In every reachable state the spans the tables hold are open, and no
    span is held twice. *)
Lemma reachable_inv t :
  reachable excludePatterns stack_ok t →
  tables_open t ∧ held_once t.
Proof.
  unfold reachable. revert t. apply rtc_ind_r.
  - split.
    + by intros ctx f ref (tb & Htb & _).
    + by intros c1 f1 c2 f2 ref (tb & Htb & _).
  - intros t1 t2 _ Hstep IH. by eapply step_inv.
Qed.
End Runs.

End SamplerFacts.

Module SamplerClaims.
Import Otel OtelFacts Differ DifferFacts Sampler SamplerFacts.




(** C8. Diffing a stack against itself emits no event, whatever the
    timestamp: [convertSamplesToEvents s s t] is empty, and a sample whose
    stack equals the previous one adds nothing to the events of
    [convertSamplesToTrace]. In the live sampler a tick whose filtered stack
    equals the last stack of its context leaves the span store and every
    table entry as they were. *)
Theorem diff_same_stack_no_events :
  (∀ (T : Type) (s : list string) (t : T),
     convertSamplesToEvents s s t = [] ∧
     (∀ events, diffInto s s t events = events) ∧
     (∀ events rest,
        traceLoop (mkTraceSample t s :: rest) events s = traceLoop rest events s)) ∧
  (∀ excludePatterns lines now (t : Tracer),
     lastStack t (currentAsyncId t) = Some (functionNames excludePatterns lines) →
     let t' := captureStackSample excludePatterns lines now t in
     spans t' = spans t ∧
     ∀ ctx frame ref, holds t' ctx frame ref ↔ holds t ctx frame ref).
Proof.
  split.
  - intros T s t. split; [apply convertSamplesToEvents_same|]. split.
    + intros events.
      by rewrite diffInto_app, convertSamplesToEvents_same, app_nil_r.
    + intros events rest. simpl.
      by rewrite diffInto_app, convertSamplesToEvents_same, app_nil_r.
  - intros patterns lines now t Hlast t'. unfold t'.
    destruct (decide (functionNames patterns lines = [])) as [Hnil|Hne].
    { unfold captureStackSample. by rewrite Hnil. }
    rewrite captureStackSample_unfold by done. rewrite Hlast.
    rewrite convertSamplesToEvents_same, applyEventsToSpans_unfold. simpl.
    split; [done|]. intros ctx frame ref.
    destruct (decide (ctx = currentAsyncId t)) as [->|Hctx].
    + rewrite (holds_own t). unfold holds. simpl. rewrite lookup_insert_eq.
      split; [by intros (? & [= <-] & ?)|eauto].
    + unfold holds. simpl. by rewrite lookup_insert_ne.
Qed.

Lemma diff_same_stack_no_events_witness :
  spans (tick ["x"] 20 (tick ["x"] 10 initial)) = spans (tick ["x"] 10 initial).
Proof.
  destruct diff_same_stack_no_events as [_ Hsame].
  apply (Hsame defaultExcludePatterns (capturedLines ["x"]) 20%Z
           (tick ["x"] 10 initial)).
  vm_compute. reflexivity.
Defined.

(** C10. A tick whose stack is empty after filtering returns before any
    sample is built: the tracer is left exactly as it was, so no sample is
    recorded, no diff runs, and every context's samples, table and spans
    stay as they were. *)
Theorem empty_stack_tick_changes_nothing
    (excludePatterns : list (string → bool))
    (lines : list string) (now : Z) (t : Tracer) :
  functionNames excludePatterns lines = [] →
  captureStackSample excludePatterns lines now t = t.
Proof.
  intros Hempty. unfold captureStackSample. by rewrite Hempty.
Qed.

Lemma empty_stack_tick_changes_nothing_witness :
  captureStackSample defaultExcludePatterns
    (capturedLines ["process.processTimers"; "Object.<anonymous>"])
    30%Z repeated_frame_run
  = repeated_frame_run.
Proof.
  apply (empty_stack_tick_changes_nothing defaultExcludePatterns).
  vm_compute. reflexivity.
Defined.

End SamplerClaims.

(** ** The batch reconstructor *)

Module ProfileFacts.
Import Otel OtelFacts Differ DifferFacts Profile.

Lemma ProfileNode_forall_ind (P : ProfileNode → Prop) :
  (∀ id fn children, Forall P children → P (mkNode id fn children)) →
  ∀ node, P node.
Proof.
  intros Hnode. fix IH 1. intros [id fn children]. apply Hnode.
  induction children as [|child children IHc]; constructor; [apply IH|apply IHc].
Qed.

Lemma node_id_head node : ∃ rest, node_ids node = node_id node :: rest.
Proof. destruct node. simpl. eauto. Qed.

Lemma before_cons_insert x (m l : list Z) p c :
  before (x :: l) p c → before (x :: m ++ l) p c.
Proof.
  intros (l1 & l2 & Heq & Hin). destruct l1 as [|y l1]; simpl in Heq; simplify_eq.
  - exists [], (m ++ l2). split; [done|]. apply elem_of_app. by right.
  - exists (y :: m ++ l1), l2. split; [|done]. simpl. by rewrite <- app_assoc.
Qed.

Lemma before_cons_app x (m l : list Z) p c :
  before m p c → before (x :: m ++ l) p c.
Proof.
  intros (l1 & l2 & -> & Hin). exists (x :: l1), (l2 ++ l).
  split; [simpl; by rewrite <- app_assoc|]. apply elem_of_app. by left.
Qed.

Lemma before_lookup (l : list Z) p c :
  before l p c → ∃ i j, i < j ∧ l !! i = Some p ∧ l !! j = Some c.
Proof.
  intros (l1 & l2 & -> & Hin). apply list_elem_of_lookup in Hin as [k Hk].
  exists (length l1), (length l1 + S k). split; [lia|]. split.
  - by rewrite list_lookup_middle.
  - rewrite lookup_app_r by lia.
    replace (length l1 + S k - length l1) with (S k) by lia. done.
Qed.

(** The two maps [traverse] builds: the keys it adds to the node map are
    ids of the graph, and every entry it adds to the parent map sends a node
    to one that [traverse] visited before it. *)
Lemma traverse_spec node :
  ∀ maps,
    (∀ k v, (traverse node maps).1 !! k = Some v →
       maps.1 !! k = Some v ∨ k ∈ node_ids node) ∧
    (∀ c p, (traverse node maps).2 !! c = Some p →
       maps.2 !! c = Some p ∨ before (node_ids node) p c).
Proof.
  induction node as [id fn children IH] using ProfileNode_forall_ind.
  intros maps. simpl.
  set (nm := <[id := _]> maps.1).
  set (step := λ (maps : gmap Z string * gmap Z Z) (child : ProfileNode),
                 traverse child (maps.1, <[node_id child := id]> maps.2)).
  assert (Hfold : ∀ acc,
    (∀ k v, (fold_left step children acc).1 !! k = Some v →
       acc.1 !! k = Some v ∨ k ∈ flat_map node_ids children) ∧
    (∀ c p, (fold_left step children acc).2 !! c = Some p →
       acc.2 !! c = Some p ∨ before (id :: flat_map node_ids children) p c)).
  { induction IH as [|child children Hchild _ IHc]; intros acc; simpl; [by auto|].
    destruct (IHc (step acc child)) as [Hnm Hpm].
    destruct (Hchild (acc.1, <[node_id child := id]> acc.2)) as [Hnm1 Hpm1].
    split.
    - intros k v Hk. rewrite elem_of_app.
      destruct (Hnm k v Hk) as [Hk1|?]; [|by auto].
      destruct (Hnm1 k v Hk1); by auto.
    - intros c p Hc.
      destruct (Hpm c p Hc) as [Hc1|Hb]; [|right; by apply before_cons_insert].
      destruct (Hpm1 c p Hc1) as [Hc2|Hb]; [|right; by apply before_cons_app].
      simpl in Hc2. rewrite lookup_insert in Hc2. case_decide; [|by left].
      simplify_eq. right. exists [], (node_ids child ++ flat_map node_ids children).
      split; [done|]. apply elem_of_app. left.
      destruct (node_id_head child) as [rest ->]. by left. }
  destruct (Hfold (nm, maps.2)) as [Hnm Hpm]. split; [|done].
  intros k v Hk. destruct (Hnm k v Hk) as [Hk1|?]; [|right; by right].
  simpl in Hk1. unfold nm in Hk1. rewrite lookup_insert in Hk1.
  case_decide; [right; subst; by left|by left].
Qed.

Lemma walkUp_mono fuel fuel' nodeMap parentMap currentId stack result :
  walkUp fuel nodeMap parentMap currentId stack = Some result →
  fuel ≤ fuel' →
  walkUp fuel' nodeMap parentMap currentId stack = Some result.
Proof.
  revert fuel' currentId stack.
  induction fuel as [|fuel IH]; intros fuel' currentId stack Hwalk Hle.
  - destruct currentId as [id|]; simpl in Hwalk.
    + destruct (nodeMap !! id) eqn:Hid; [done|].
      destruct fuel'; simpl; by rewrite Hid.
    + by destruct fuel'.
  - destruct fuel' as [|fuel']; [lia|].
    destruct currentId as [id|]; simpl in *; [|done].
    destruct (nodeMap !! id); [|done]. apply IH; [done|lia].
Qed.

(** A node that is its own parent: the walk never leaves it. *)
Lemma walkUp_self_parent fuel nodeMap parentMap id name stack :
  nodeMap !! id = Some name → parentMap !! id = Some id →
  walkUp fuel nodeMap parentMap (Some id) stack = None.
Proof.
  intros Hname Hparent. revert stack.
  induction fuel as [|fuel IH]; intros stack; simpl; rewrite Hname; [done|].
  rewrite Hparent. apply IH.
Qed.

Lemma walkUp_unknown fuel nodeMap parentMap id :
  nodeMap !! id = None → walkUp fuel nodeMap parentMap (Some id) [] = Some [].
Proof. intros Hid. destruct fuel; simpl; by rewrite Hid. Qed.

(** In a graph whose ids are distinct the walk from any id ends. *)
Lemma walkUp_terminates root fuel id stack :
  NoDup (node_ids root) → length (node_ids root) ≤ fuel →
  is_Some (walkUp fuel (traverse root (∅, ∅)).1 (traverse root (∅, ∅)).2
             (Some id) stack).
Proof.
  intros Hnd Hfuel.
  destruct (traverse_spec root (∅, ∅)) as [Hnm Hpm].
  set (nm := (traverse root (∅, ∅)).1) in *.
  set (pm := (traverse root (∅, ∅)).2) in *.
  assert (Hrank : ∀ fuel n id stack,
    node_ids root !! n = Some id → n < fuel →
    is_Some (walkUp fuel nm pm (Some id) stack)).
  { clear fuel id stack Hfuel.
    induction fuel as [|fuel IH]; intros n id stack Hn Hlt; [lia|].
    simpl. destruct (nm !! id) as [name|]; [|by eauto].
    destruct (pm !! id) as [p|] eqn:Hp; [|destruct fuel; by eauto].
    destruct (Hpm id p Hp) as [Hp'|Hb]; [simpl in Hp'; by rewrite lookup_empty in Hp'|].
    apply before_lookup in Hb as (i & j & Hij & Hi & Hj).
    assert (j = n) as -> by (by eapply NoDup_lookup).
    apply (IH i); [done|lia]. }
  destruct (nm !! id) as [name|] eqn:Hid.
  - destruct (Hnm id name Hid) as [Hid'|Hin]; [simpl in Hid'; by rewrite lookup_empty in Hid'|].
    apply list_elem_of_lookup in Hin as [n Hn].
    apply (Hrank fuel n); [done|]. apply lookup_lt_Some in Hn. lia.
  - destruct fuel; simpl; rewrite Hid; eauto.
Qed.

Section Numbers.
Context {num : Type} `{JSNumber num}.
Implicit Types (deltas : list num) (ids : list Z) (samples : list (Sample num)).

Lemma buildSamples_mono fuel fuel' nodeMap parentMap deltas ids index
    currentTime samples result :
  buildSamples fuel nodeMap parentMap deltas ids index currentTime samples
    = Some result →
  fuel ≤ fuel' →
  buildSamples fuel' nodeMap parentMap deltas ids index currentTime samples
    = Some result.
Proof.
  intros Hbuild Hle. revert index currentTime samples Hbuild.
  induction ids as [|id ids IH]; intros index currentTime samples; simpl; [done|].
  destruct (walkUp fuel _ _ _ _) as [stack|] eqn:Hwalk; [|done].
  rewrite (walkUp_mono _ _ _ _ _ _ _ Hwalk Hle). apply IH.
Qed.

Lemma buildSamples_total fuel nodeMap parentMap deltas ids index
    currentTime samples :
  (∀ id, is_Some (walkUp fuel nodeMap parentMap (Some id) [])) →
  is_Some (buildSamples fuel nodeMap parentMap deltas ids index currentTime samples).
Proof.
  intros Hwalk. revert index currentTime samples.
  induction ids as [|id ids IH]; intros index currentTime samples; simpl; [by eauto|].
  destruct (Hwalk id) as [stack ->]. apply IH.
Qed.

(** One sample per entry of [ids]; its stack is what the walk from the
    entry collects, and its timestamp is NaN / 1000 where the entry has no
    time delta. *)
Lemma buildSamples_spec fuel nodeMap parentMap deltas ids index
    currentTime samples result :
  buildSamples fuel nodeMap parentMap deltas ids index currentTime samples
    = Some result →
  length result = length samples + length ids ∧
  (∀ j, j < length samples → result !! j = samples !! j) ∧
  (∀ k id, ids !! k = Some id →
     ∃ s, result !! (length samples + k) = Some s ∧
          walkUp fuel nodeMap parentMap (Some id) [] = Some (s_stack s) ∧
          (deltas !! (index + k) = None →
           s_ts s = num_div num_nan (num_lit 1000))).
Proof.
  revert index currentTime samples.
  induction ids as [|id ids IH]; intros index currentTime samples; simpl.
  - intros [= <-]. split; [lia|]. split; [done|]. by intros k id.
  - destruct (walkUp fuel _ _ _ _) as [stack|] eqn:Hwalk; [|done].
    intros Hbuild. apply IH in Hbuild as (Hlen & Hpre & Hnth).
    rewrite length_app in Hlen, Hpre, Hnth. simpl in Hlen, Hpre, Hnth.
    split; [lia|]. split.
    + intros j Hj. rewrite Hpre by lia. by rewrite lookup_app_l.
    + intros [|k] id' Hk; simpl in Hk.
      * simplify_eq. eexists. split; [|split].
        -- rewrite Hpre by lia. rewrite Nat.add_0_r. apply list_lookup_middle. done.
        -- done.
        -- simpl. rewrite Nat.add_0_r. by intros ->.
      * destruct (Hnth k id' Hk) as (s & Hs & Hw & Hts).
        exists s. split; [|split; [done|]].
        -- rewrite <- Hs. f_equal. lia.
        -- intros Hd. apply Hts. rewrite <- Hd. f_equal. lia.
Qed.

Lemma reconstruct_mono fuel fuel' (profile : CpuProfile num) result :
  reconstruct fuel profile = Some result → fuel ≤ fuel' →
  reconstruct fuel' profile = Some result.
Proof.
  unfold reconstruct. destruct (nodes profile) as [|root rest]; [done|].
  destruct (traverse root (∅, ∅)) as [nodeMap parentMap].
  destruct (buildSamples fuel _ _ _ _ _ _ _) as [samples|] eqn:Hbuild; [|done].
  intros [= <-] Hle. by rewrite (buildSamples_mono _ _ _ _ _ _ _ _ _ _ Hbuild Hle).
Qed.

Lemma reconstruct_total fuel (profile : CpuProfile num) root rest :
  nodes profile = root :: rest →
  NoDup (node_ids root) → length (node_ids root) ≤ fuel →
  ∃ samples, reconstruct fuel profile = Some (Returned samples).
Proof.
  intros Hnodes Hnd Hfuel. unfold reconstruct. rewrite Hnodes.
  pose proof (λ id, walkUp_terminates root fuel id [] Hnd Hfuel) as Hwalk.
  destruct (traverse root (∅, ∅)) as [nodeMap parentMap]. simpl in Hwalk.
  destruct (buildSamples_total fuel nodeMap parentMap (timeDeltas profile)
              (profileSamples profile) 0 (profileStartTime profile) [] Hwalk)
    as [samples ->].
  by exists samples.
Qed.

End Numbers.

Section Spans.
Context {num : Type} `{JSNumber num}.
Variable store0 : list (Span (@HrTime num)).
Variable parentSpan : nat.
Implicit Types (st : @Active num).

Lemma active_inv_weaken n n' st :
  active_inv store0 parentSpan n st → n ≤ n' →
  active_inv store0 parentSpan n' st.
Proof.
  intros (Hkeys & Hrest) Hle. split; [|done].
  intros d ref Hd. destruct (Hkeys d ref Hd) as (? & ? & ?).
  split; [lia|done].
Qed.

Lemma active_inv_initial : active_inv store0 parentSpan 0 (∅, store0).
Proof.
  split; [|split; [|split; [|split; [|split]]]]; simpl; try done.
  - intros r Hr Hopen. apply is_open_lt in Hopen. lia.
  - intros r s Hr Hs. apply lookup_lt_Some in Hs. lia.
Qed.

(** The END loop leaves no key above [commonLen]. *)
Lemma endOld_inv i commonLen ts st :
  active_inv store0 parentSpan i st →
  active_inv store0 parentSpan (i `min` commonLen) (endOld i commonLen ts st).
Proof.
  revert st. induction i as [|i IH]; intros st Hinv; cbn [endOld]; [done|].
  case_decide as Hc; [|by replace (S i `min` commonLen) with (S i) by lia].
  replace (S i `min` commonLen) with (i `min` commonLen) by lia.
  apply IH. destruct Hinv as (Hkeys & Hinj & Hheld & Hpar & Hold & Hlen).
  destruct (st.1 !! S i) as [span|] eqn:Hspan.
  - destruct (Hkeys _ _ Hspan) as (_ & Hbase & Hopen).
    split; [|split; [|split; [|split; [|split]]]]; simpl.
    + intros d ref [Hne Hd]%lookup_delete_Some.
      destruct (Hkeys _ _ Hd) as ([? ?] & ? & ?).
      split; [lia|]. split; [done|].
      apply endSpan_open_ne; [|done].
      intros ->. by specialize (Hinj _ _ _ Hd Hspan).
    + intros d1 d2 ref [_ H1]%lookup_delete_Some [_ H2]%lookup_delete_Some.
      by eapply Hinj.
    + intros r Hr [Ho Hne]%endSpan_open_inv.
      destruct (Hheld r Hr Ho) as [d Hd]. exists d.
      apply lookup_delete_Some. split; [|done]. intros <-. congruence.
    + intros r s Hr (s0 & Hs0 & _ & _ & ->)%endSpan_lookup_Some. by eapply Hpar.
    + intros r Hr. rewrite endSpan_lookup_ne by lia. by apply Hold.
    + by rewrite length_endSpan.
  - split; [|done].
    intros d ref Hd. destruct (Hkeys _ _ Hd) as ([? ?] & ? & ?).
    split; [|done].
    destruct (decide (d = S i)) as [->|]; [congruence|lia].
Qed.

(** The START loop stores a span only at a depth above the keys of the
    table. *)
Lemma startNew_inv fuel i currStack ts st :
  i ≤ length currStack →
  active_inv store0 parentSpan i st →
  active_inv store0 parentSpan (length currStack)
    (startNew fuel i currStack ts parentSpan st).
Proof.
  revert i st. induction fuel as [|fuel IH]; intros i st Hi Hinv; simpl.
  { by eapply active_inv_weaken. }
  case_decide as Hlt; [|by eapply active_inv_weaken].
  apply IH; [lia|]. case_decide as Hroot.
  { eapply active_inv_weaken; [done|lia]. }
  destruct Hinv as (Hkeys & Hinj & Hheld & Hpar & Hold & Hlen). simpl.
  set (span := mkSpan (currStack !!! i) (millisecondsToHrTime ts) (Some parentSpan)
                 UNSET None).
  assert (Hfresh : ∀ d, st.1 !! d ≠ Some (length st.2)).
  { intros d Hd. destruct (Hkeys _ _ Hd) as (_ & _ & Ho%is_open_lt). lia. }
  split; [|split; [|split; [|split; [|split]]]]; simpl.
  + intros d ref. rewrite lookup_insert. case_decide.
    * intros [= <-]. split; [lia|]. split; [lia|].
      exists span. split; [by apply list_lookup_middle|done].
    * intros Hd. destruct (Hkeys _ _ Hd) as ([? ?] & ? & (s & Hs & He)).
      split; [lia|]. split; [done|].
      exists s. split; [|done]. rewrite lookup_app_l; [done|by eapply lookup_lt_Some].
  + intros d1 d2 ref. rewrite !lookup_insert.
    repeat case_decide; subst; try done.
    * intros [= <-] Hd2. by destruct (Hfresh d2).
    * intros Hd1 [= <-]. by destruct (Hfresh d1).
    * apply Hinj.
  + intros r Hr Ho.
    apply (startSpan_open_inv (currStack !!! i) (millisecondsToHrTime ts)
             (Some parentSpan) st.2) in Ho as [Ho| ->].
    * destruct (Hheld r Hr Ho) as [d Hd]. exists d.
      rewrite lookup_insert_ne; [done|]. intros <-.
      destruct (Hkeys _ _ Hd) as ([? ?] & _). lia.
    * exists (i + 1). by rewrite lookup_insert_eq.
  + intros r s Hr Hs. destruct (decide (r < length st.2)) as [Hlt'|Hge].
    * rewrite lookup_app_l in Hs by done. by eapply Hpar.
    * apply lookup_app_Some in Hs as [Hs|[_ Hs]].
      -- apply lookup_lt_Some in Hs. lia.
      -- destruct (r - length st.2) as [|k]; simpl in Hs; [|done]. by simplify_eq.
  + intros r Hr. rewrite lookup_app_l by lia. by apply Hold.
  + rewrite length_app. lia.
Qed.

Lemma processSample_inv sample act prevStack :
  active_inv store0 parentSpan (length prevStack) act →
  let st' := processSample parentSpan sample (act, prevStack) in
  active_inv store0 parentSpan (length st'.2) st'.1.
Proof.
  intros Hinv. simpl.
  destruct (commonLen_spec prevStack (s_stack sample)) as (_ & Hc & _).
  apply startNew_inv; [done|].
  eapply active_inv_weaken; [by apply endOld_inv|lia].
Qed.

Lemma processAll_inv samples (st : @Active num * list string) :
  active_inv store0 parentSpan (length st.2) st.1 →
  let st' := processAll parentSpan samples st in
  active_inv store0 parentSpan (length st'.2) st'.1.
Proof.
  revert st. induction samples as [|sample samples IH]; intros [act prev] Hinv; [done|].
  simpl. apply IH. by apply processSample_inv.
Qed.

End Spans.

Section Run.
Context {num : Type} `{JSNumber num}.

Lemma endOld_le i commonLen ts (st : @Active num) :
  i ≤ commonLen → endOld i commonLen ts st = st.
Proof. intros Hle. destruct i; simpl; [done|]. by rewrite decide_False by lia. Qed.

Lemma reconstruct_Returned fuel (profile : CpuProfile num) root rest samples :
  nodes profile = root :: rest →
  reconstruct fuel profile = Some (Returned samples) →
  buildSamples fuel (traverse root (∅, ∅)).1 (traverse root (∅, ∅)).2
    (timeDeltas profile) (profileSamples profile) 0 (profileStartTime profile) []
  = Some samples.
Proof.
  intros Hnodes. unfold reconstruct. rewrite Hnodes.
  destruct (traverse root (∅, ∅)) as [nodeMap parentMap]. simpl.
  destruct (buildSamples _ _ _ _ _ _ _ _); [|done]. by intros [= <-].
Qed.

(** What a finished call leaves in the store. *)
Lemma processProfileToSpans_spec fuel (profile : CpuProfile num) parentSpan
    now store0 store' :
  processProfileToSpans fuel profile parentSpan now store0 = Some (Returned store') →
  (∀ r s, length store0 ≤ r → store' !! r = Some s → parent s = Some parentSpan) ∧
  (∀ r, r < length store0 → store' !! r = store0 !! r) ∧
  (∀ r, length store0 ≤ r → ¬ is_open store' r).
Proof.
  unfold processProfileToSpans.
  destruct (reconstruct fuel profile) as [[samples|e]|]; [|done..].
  pose proof (processAll_inv store0 parentSpan samples ((∅, store0), [])
                (active_inv_initial store0 parentSpan)) as Hinv.
  destruct (processAll parentSpan samples _) as [act prev]. simpl in Hinv.
  destruct Hinv as (Hkeys & _ & Hheld & Hpar & Hold & _).
  intros [= <-]. unfold cleanup. split; [|split].
  - intros r s Hr (s0 & Hs0 & ->)%end_all_parent. by eapply Hpar.
  - intros r Hr.
    destruct (end_all_spec act.1 now act.2) as (_ & _ & _ & Hframe).
    rewrite Hframe; [by apply Hold|].
    intros d Hd. destruct (Hkeys _ _ Hd) as (_ & ? & _). lia.
  - intros r Hr [Ho Hnot]%end_all_open_inv.
    destruct (Hheld r Hr Ho) as [d Hd]. by apply (Hnot d).
Qed.

End Run.

End ProfileFacts.

Module ProfileClaims.
Import Otel OtelFacts Differ DifferFacts Profile ProfileFacts.

(** C9. The Samples of a profile are a function of the profile alone: any
    two runs of the reconstruction that finish give the same outcome, and on
    a call graph whose node ids are distinct (there the walk to the root
    ends) every run finishes with one and the same Sample sequence. *)
Theorem reconstruct_deterministic {num : Type} `{JSNumber num}
    (profile : CpuProfile num) :
  (∀ fuel1 fuel2 result1 result2,
     reconstruct fuel1 profile = Some result1 →
     reconstruct fuel2 profile = Some result2 →
     result1 = result2) ∧
  (∀ root rest,
     nodes profile = root :: rest → NoDup (node_ids root) →
     ∃ samples, ∀ fuel,
       length (node_ids root) ≤ fuel →
       reconstruct fuel profile = Some (Returned samples)).
Proof.
  split.
  - intros fuel1 fuel2 result1 result2 H1 H2.
    apply (reconstruct_mono _ (fuel1 `max` fuel2)) in H1; [|lia].
    apply (reconstruct_mono _ (fuel1 `max` fuel2)) in H2; [|lia].
    congruence.
  - intros root rest Hnodes Hnd.
    destruct (reconstruct_total (length (node_ids root)) profile root rest)
      as [samples Hrun]; [done..|].
    exists samples. intros fuel Hfuel. by eapply reconstruct_mono.
Qed.

Lemma reconstruct_deterministic_witness :
  ∃ samples, ∀ fuel, 3 ≤ fuel →
    reconstruct fuel nested_profile = Some (Returned samples).
Proof.
  destruct (reconstruct_deterministic nested_profile) as [_ Htotal].
  apply (Htotal graph []); [reflexivity|by_compute].
Defined.

(** C4, as the code has it. The reconstruction validates nothing and has no
    invalid-profile error. An empty node array makes it throw a TypeError;
    with a call graph whose node ids are distinct it returns one Sample per
    entry of [samples], whatever the entries and the time deltas are: an
    entry that is no node id gives a Sample with an empty stack, an entry
    without a time delta gives a Sample whose timestamp is NaN / 1000, and
    the spans are then made from these Samples. *)
Theorem reconstruct_validates_nothing {num : Type} `{JSNumber num}
    (profile : CpuProfile num) :
  (nodes profile = [] →
   ∀ fuel, reconstruct fuel profile = Some (Thrown "TypeError")) ∧
  (∀ root rest,
     nodes profile = root :: rest → NoDup (node_ids root) →
     ∃ samples,
       (∀ fuel, length (node_ids root) ≤ fuel →
          reconstruct fuel profile = Some (Returned samples)) ∧
       length samples = length (profileSamples profile) ∧
       (∀ k nodeId,
          profileSamples profile !! k = Some nodeId →
          nodeId ∉ node_ids root →
          ∃ s, samples !! k = Some s ∧ s_stack s = []) ∧
       (∀ k,
          k < length (profileSamples profile) →
          length (timeDeltas profile) ≤ k →
          ∃ s, samples !! k = Some s ∧
               s_ts s = num_div num_nan (num_lit 1000)) ∧
       (∀ fuel parentSpan now store,
          length (node_ids root) ≤ fuel →
          ∃ store',
            processProfileToSpans fuel profile parentSpan now store
            = Some (Returned store'))).
Proof.
  split.
  - intros Hnodes fuel. unfold reconstruct. by rewrite Hnodes.
  - intros root rest Hnodes Hnd.
    destruct (reconstruct_total (length (node_ids root)) profile root rest)
      as [samples Hrun]; [done..|].
    assert (Hall : ∀ fuel, length (node_ids root) ≤ fuel →
              reconstruct fuel profile = Some (Returned samples)).
    { intros fuel Hfuel. by eapply reconstruct_mono. }
    pose proof (reconstruct_Returned _ _ _ _ _ Hnodes Hrun) as Hbuild.
    apply buildSamples_spec in Hbuild as (Hlen & _ & Hnth).
    simpl in Hlen, Hnth.
    exists samples. split; [done|]. split; [done|]. split; [|split].
    + intros k nodeId Hk Hunknown.
      destruct (Hnth k nodeId Hk) as (s & Hs & Hwalk & _).
      exists s. split; [done|].
      rewrite walkUp_unknown in Hwalk; [by simplify_eq|].
      apply eq_None_not_Some. intros [name Hname].
      destruct (traverse_spec root (∅, ∅)) as [Hnm _].
      destruct (Hnm _ _ Hname) as [Hempty|Hin]; [|done].
      simpl in Hempty. by rewrite lookup_empty in Hempty.
    + intros k Hk Hshort.
      destruct (lookup_lt_is_Some_2 (profileSamples profile) k Hk) as [nodeId Hid].
      destruct (Hnth k nodeId Hid) as (s & Hs & _ & Hts).
      exists s. split; [done|]. apply Hts. by apply lookup_ge_None.
    + intros fuel parentSpan now store Hfuel.
      unfold processProfileToSpans. rewrite (Hall fuel Hfuel).
      destruct (processAll parentSpan samples _) as [act prev]. eauto.
Qed.

Lemma reconstruct_validates_nothing_witness :
  ∃ samples,
    reconstruct 3 unknown_id_profile = Some (Returned samples) ∧
    length samples = 3 ∧
    ∃ s, samples !! 1 = Some s ∧ s_stack s = [].
Proof.
  destruct (reconstruct_validates_nothing unknown_id_profile) as [_ Hgraph].
  destruct (Hgraph graph []) as (samples & Hrun & Hlen & Hunknown & _).
  - reflexivity.
  - by_compute.
  - exists samples. split; [apply Hrun; vm_compute; lia|]. split; [exact Hlen|].
    apply (Hunknown 1 99%Z); [reflexivity|by_compute].
Defined.

(** Against C4: a sample entry that is no node of the graph, and a sample
    array longer than the time deltas, are reconstructed without any error,
    and spans are made from the result; on a graph that repeats a node id
    below itself the walk to the root never ends, and no error is raised
    either. *)
Lemma malformed_profile_is_reconstructed :
  reconstruct 3 unknown_id_profile
  = Some (Returned [ mkSample (ms 1) ["(root)"; "main"; "work"];
                     mkSample (ms 2) [];
                     mkSample (ms 3) ["(root)"; "main"; "work"] ]) ∧
  reconstruct 3 short_deltas_profile
  = Some (Returned [ mkSample (ms 1) ["(root)"; "main"; "work"];
                     mkSample None ["(root)"; "main"; "work"] ]) ∧
  (∃ store,
    processProfileToSpans 3 unknown_id_profile 0 (λ _, (ms 9, ms 9)) caller_store
    = Some (Returned store) ∧
    span_name <$> store = ["request"; "main"; "work"; "main"; "work"]) ∧
  (∀ fuel, reconstruct fuel repeated_id_profile = None).
Proof.
  split; [vm_compute; reflexivity|]. split; [vm_compute; reflexivity|]. split.
  - eexists. split; [vm_compute; reflexivity|]. reflexivity.
  - intros fuel. unfold reconstruct. simpl nodes.
    destruct (traverse repeated_id_graph (∅, ∅)) as [nodeMap parentMap] eqn:Hmaps.
    assert (nodeMap !! 2%Z = Some "main") as Hname.
    { change nodeMap with (nodeMap, parentMap).1. rewrite <- Hmaps.
      vm_compute. reflexivity. }
    assert (parentMap !! 2%Z = Some 2%Z) as Hparent.
    { change parentMap with (nodeMap, parentMap).2. rewrite <- Hmaps.
      vm_compute. reflexivity. }
    rewrite Hmaps. change (profileSamples repeated_id_profile) with [2%Z].
    cbn [buildSamples]. by rewrite (walkUp_self_parent _ _ _ _ _ _ Hname Hparent).
Qed.

End ProfileClaims.

(** ** The open-span bookkeeping of both paths *)

Module BookkeepingClaims.
Import Otel OtelFacts Differ DifferFacts Sampler SamplerFacts Profile ProfileFacts.

(** C5. An END event whose frame has no span in the table of its context
    changes nothing: the iteration of [applyEventsToSpans] leaves the table
    and the store as they are, so the spans, the samples, the tables of the
    other contexts and the entries of the context's own table are unchanged
    (a context without a table gets an empty one); in the batch
    reconstructor the iteration of the END loop for a depth without a span
    does nothing either. *)
Theorem end_without_open_span_is_noop :
  (∀ (table : gmap string nat) (store : SpanStore Z) ts frame,
     table !! frame = None →
     applyEvent (mkEvent END ts frame) (table, store) = (table, store)) ∧
  (∀ (t : Tracer) asyncId ts frame,
     default ∅ (activeSpans t !! asyncId) !! frame = None →
     let t' := applyEventsToSpans asyncId [mkEvent END ts frame] t in
     spans t' = spans t ∧
     samples t' = samples t ∧
     currentAsyncId t' = currentAsyncId t ∧
     (∀ ctx, ctx ≠ asyncId → activeSpans t' !! ctx = activeSpans t !! ctx) ∧
     default ∅ (activeSpans t' !! asyncId) = default ∅ (activeSpans t !! asyncId) ∧
     (is_Some (activeSpans t !! asyncId) → t' = t)) ∧
  (∀ (num : Type) (JS : JSNumber num) i commonLen (ts : num) (st : @Active num),
     st.1 !! S i = None →
     endOld (S i) commonLen ts st = endOld i commonLen ts st).
Proof.
  split; [exact applyEvent_end_absent|]. split.
  - intros t asyncId ts frame Hnone t'. unfold t'.
    rewrite applyEventsToSpans_unfold.
    change (applyEvents [mkEvent END ts frame] ?st)
      with (applyEvent (mkEvent END ts frame) st).
    rewrite applyEvent_end_absent by done. simpl.
    split; [done|]. split; [done|]. split; [done|]. split; [|split].
    + intros ctx Hne. by rewrite lookup_insert_ne.
    + by rewrite lookup_insert_eq.
    + intros [table Htable]. rewrite Htable. simpl.
      rewrite insert_id by done. by destruct t.
  - intros num JS i commonLen ts st Hnone. cbn [endOld].
    rewrite Hnone. case_decide; [done|].
    symmetry. apply endOld_le. lia.
Qed.

Lemma end_without_open_span_is_noop_witness :
  spans (applyEventsToSpans 0 [mkEvent END 30%Z "y"] repeated_frame_run)
  = spans repeated_frame_run.
Proof.
  destruct end_without_open_span_is_noop as (_ & Hnoop & _).
  apply (Hnoop repeated_frame_run 0%Z 30%Z "y"). vm_compute. reflexivity.
Defined.

(** X21. The batch reconstructor keys its table by depth: in every state
    of its sample loop the keys are depths of the previous stack, each span
    of the table is open and held at one depth only, and every span the run
    opened that has not ended is in the table, so a span is only ever stored
    at an empty depth. The live sampler keys the table of a context by frame
    name: in every reachable state each span of a table is open and held
    once, and in the runs whose captured stacks repeat no frame the keys of a
    table are frames of the context's last stack and every open span is held
    by a table. *)
Theorem open_spans_bookkeeping :
  (∀ (num : Type) (JS : JSNumber num) parentSpan
     (samples : list (Profile.Sample num)) (store0 : SpanStore (@HrTime num)),
     let st := processAll parentSpan samples ((∅, store0), []) in
     active_inv store0 parentSpan (length st.2) st.1) ∧
  (∀ excludePatterns t,
     reachable excludePatterns (λ _, True) t →
     tables_open t ∧ held_once t) ∧
  (∀ excludePatterns t,
     reachable excludePatterns NoDup t →
     keys_in_last_stack t ∧ open_spans_held t).
Proof.
  split; [|split].
  - intros num JS parentSpan samples store0.
    apply (processAll_inv store0 parentSpan samples ((∅, store0), [])).
    apply active_inv_initial.
  - intros patterns t Hreach. by eapply reachable_inv.
  - intros patterns t Hreach.
    by destruct (reachable_distinct _ _ Hreach) as (_ & _ & ? & _ & ?).
Qed.

Lemma open_spans_bookkeeping_witness :
  open_spans_held (tick ["a"; "x"] 20 (tick ["x"] 10 Sampler.initial)).
Proof.
  destruct open_spans_bookkeeping as (_ & _ & Hdistinct).
  apply (Hdistinct defaultExcludePatterns).
  eapply rtc_r; [eapply rtc_r; [apply rtc_refl|]|].
  - apply (step_tick defaultExcludePatterns NoDup (capturedLines ["x"]) 10%Z).
    by_compute.
  - apply (step_tick defaultExcludePatterns NoDup (capturedLines ["a"; "x"]) 20%Z).
    by_compute.
Defined.


(** C7, as the code has it. Every span the batch reconstructor opens, at
    whatever depth, is started in the context that carries the [parentSpan]
    argument, the spans of the caller are untouched and every span the call
    opened has ended when it returns; every span the live sampler opens is
    started without a context. No span is given the span one depth above
    it as parent. *)
Theorem spans_parent_is_callers :
  (∀ (num : Type) (JS : JSNumber num) fuel (profile : CpuProfile num)
     parentSpan now store0 store',
     processProfileToSpans fuel profile parentSpan now store0
       = Some (Returned store') →
     (∀ r s, length store0 ≤ r → store' !! r = Some s →
        parent s = Some parentSpan) ∧
     (∀ r, r < length store0 → store' !! r = store0 !! r) ∧
     (∀ r, length store0 ≤ r → ¬ is_open store' r)) ∧
  (∀ excludePatterns t,
     reachable excludePatterns (λ _, True) t →
     ∀ r s, spans t !! r = Some s → parent s = None).
Proof.
  split.
  - intros num JS fuel profile parentSpan now store0 store'.
    apply processProfileToSpans_spec.
  - intros patterns t Hreach. by eapply reachable_parent.
Qed.

Lemma spans_parent_is_callers_witness :
  ∃ store',
    processProfileToSpans 3 nested_profile 0 (λ _, (ms 9, ms 9)) caller_store
      = Some (Returned store') ∧
    ∀ r s, 1 ≤ r → store' !! r = Some s → parent s = Some 0.
Proof.
  destruct spans_parent_is_callers as [Hbatch _].
  eexists. split; [vm_compute; reflexivity|].
  apply (Hbatch ExactNum.num _ 3 nested_profile 0 (λ _, (ms 9, ms 9)) caller_store).
  vm_compute. reflexivity.
Defined.

(** Against C7: when work is opened at depth 2, below main, the span at
    depth 1 of the table is main's (reference 1), yet the parent given to
    the span of work is the caller's span (reference 0). *)
Lemma child_span_parent_is_not_enclosing_span :
  let main_only := Profile.mkSample (ms 1) ["(root)"; "main"] in
  let main_work := Profile.mkSample (ms 2) ["(root)"; "main"; "work"] in
  let before_work := processAll 0 [main_only] ((∅, caller_store), []) in
  let after_work := processAll 0 [main_only; main_work] ((∅, caller_store), []) in
  reconstruct 3 nested_profile = Some (Returned [main_only; main_work]) ∧
  commonLen ["(root)"; "main"] ["(root)"; "main"; "work"] = 2 ∧
  before_work.1.1 !! 2 = Some 1 ∧
  span_name <$> before_work.1.2 !! 1 = Some "main" ∧
  after_work.1.1 !! 3 = Some 2 ∧
  span_name <$> after_work.1.2 !! 2 = Some "work" ∧
  parent <$> after_work.1.2 !! 2 = Some (Some 0) ∧
  parent <$> after_work.1.2 !! 2 ≠ Some (Some 1).
Proof. repeat split; try (vm_compute; reflexivity). vm_compute. congruence. Qed.

End BookkeepingClaims.

(** * Properties of the rest of the code *)

(** ** The differ, replayed *)

Module ReplayFacts.
Import Differ DifferFacts Replay.
Section ReplayFacts.
Context {T : Type}.
Implicit Types (events : list (TraceEvent T)) (stack : list string) (t : T).

Lemma replay_app events1 events2 stack :
  replay (events1 ++ events2) stack
  = match replay events1 stack with
    | Some stack' => replay events2 stack'
    | None => None
    end.
Proof.
  revert stack. induction events1 as [|event events1 IH]; intros stack; simpl; [done|].
  destruct (replayEvent stack event); [apply IH|done].
Qed.

Lemma replay_ends t (frames rest : list string) :
  replay (mkEvent END t <$> frames) (frames ++ rest) = Some rest.
Proof.
  induction frames as [|frame frames IH]; [done|].
  rewrite fmap_cons. cbn [replay app]. unfold replayEvent. cbn [kind name].
  by rewrite decide_True.
Qed.

Lemma replay_starts t (frames stack : list string) :
  replay (mkEvent START t <$> frames) stack = Some (reverse frames ++ stack).
Proof.
  revert stack. induction frames as [|frame frames IH]; intros stack; simpl; [done|].
  rewrite IH, reverse_cons. by rewrite <- app_assoc.
Qed.

Lemma common_prefix_take_eq (prev curr : list string) :
  take (commonLen prev curr) prev = take (commonLen prev curr) curr.
Proof.
  destruct (commonLen_spec prev curr) as (Hp & Hc & Hagree & _).
  apply list_eq. intros i.
  destruct (decide (i < commonLen prev curr)) as [Hi|Hi].
  - rewrite !lookup_take_lt by done. by apply Hagree.
  - by rewrite !lookup_take_ge by lia.
Qed.

Lemma replay_diff prev curr t :
  replay (convertSamplesToEvents prev curr t) (reverse prev) = Some (reverse curr).
Proof.
  rewrite convertSamplesToEvents_spec, replay_app.
  set (c := commonLen prev curr).
  rewrite <- (take_drop c prev) at 2. rewrite reverse_app, replay_ends.
  rewrite replay_starts. unfold c. rewrite common_prefix_take_eq.
  by rewrite <- reverse_app, take_drop.
Qed.

Lemma replay_counts events stack stack' :
  replay events stack = Some stack' →
  length stack' + count_kind END events = length stack + count_kind START events.
Proof.
  revert stack. induction events as [|[k t frame] events IH]; intros stack; simpl.
  - intros [= <-]. unfold count_kind. simpl. lia.
  - unfold replayEvent. simpl. destruct k.
    + intros Hrep%IH. unfold count_kind in *.
      rewrite (filter_cons_True (λ event, kind event = START)) by done.
      rewrite (filter_cons_False (λ event, kind event = END)) by done.
      simpl in *. lia.
    + destruct stack as [|top rest]; [done|]. case_decide; [|done].
      intros Hrep%IH. unfold count_kind in *.
      rewrite (filter_cons_False (λ event, kind event = START)) by done.
      rewrite (filter_cons_True (λ event, kind event = END)) by done.
      simpl in *. lia.
Qed.

Lemma replay_traceLoop samples events prev stack0 :
  replay events stack0 = Some (reverse prev) →
  replay (traceLoop samples events prev) stack0
  = Some (reverse (default prev (ts_stack <$> last samples))).
Proof.
  revert events prev. induction samples as [|sample samples IH]; intros events prev Hrep.
  - done.
  - simpl. rewrite IH.
    + f_equal. f_equal. rewrite last_cons. by destruct (last samples).
    + by rewrite diffInto_app, replay_app, Hrep, replay_diff.
Qed.

End ReplayFacts.
End ReplayFacts.

Module DifferExtras.
Import Differ DifferFacts Replay ReplayFacts.
Section DifferExtras.
Context {T : Type}.

(** X1. Replaying the events of one diff on the previous stack gives the
    current stack: every END event leaves the frame that is innermost at that
    point, and the START events enter the new frames from the outside in. *)
Theorem diff_replays_to_current (prev curr : list string) (t : T) :
  replay (convertSamplesToEvents prev curr t) (reverse prev) = Some (reverse curr).
Proof. apply replay_diff. Qed.

(** X2. The whole trace of [convertSamplesToTrace] replays from the empty
    stack without ever leaving a frame that is not the innermost one, and
    ends on the stack of the last sample; so the trace has as many START
    events as END events plus the frames of that last stack. *)
Theorem trace_replays_to_last_stack (samples : list (@TraceSample T)) :
  let final := default [] (ts_stack <$> last samples) in
  replay (convertSamplesToTrace samples) [] = Some (reverse final) ∧
  count_kind START (convertSamplesToTrace samples)
  = count_kind END (convertSamplesToTrace samples) + length final.
Proof.
  intros final.
  assert (replay (convertSamplesToTrace samples) [] = Some (reverse final)) as Hrep.
  { unfold convertSamplesToTrace. by rewrite (replay_traceLoop samples [] [] []). }
  split; [done|].
  apply replay_counts in Hrep. rewrite length_reverse in Hrep. simpl in Hrep. lia.
Qed.

(** X3. Frames that two stacks share from the outside do not matter to the
    diff: the common prefix grows by their number and the events are those
    of the two remainders. *)
Theorem diff_ignores_shared_frames (shared prev curr : list string) (t : T) :
  commonLen (shared ++ prev) (shared ++ curr) = length shared + commonLen prev curr ∧
  convertSamplesToEvents (shared ++ prev) (shared ++ curr) t
  = convertSamplesToEvents prev curr t.
Proof.
  assert (commonLen (shared ++ prev) (shared ++ curr)
          = length shared + commonLen prev curr) as Hlen.
  { apply (longest_common_prefix_unique (shared ++ prev) (shared ++ curr));
      [apply commonLen_spec|].
    destruct (commonLen_spec prev curr) as (Hp & Hc & Hagree & Hdiff).
    split; [rewrite length_app; lia|]. split; [rewrite length_app; lia|]. split.
    - intros i Hi. destruct (decide (i < length shared)) as [Hlt|Hge].
      + by rewrite !lookup_app_l.
      + rewrite !lookup_app_r by lia. apply Hagree. lia.
    - rewrite !length_app. intros H1 H2. rewrite !lookup_app_r by lia.
      replace (length shared + commonLen prev curr - length shared)
        with (commonLen prev curr) by lia.
      apply Hdiff; lia. }
  split; [done|].
  rewrite !convertSamplesToEvents_spec, Hlen.
  rewrite !drop_app_ge by lia.
  by replace (length shared + commonLen prev curr - length shared)
    with (commonLen prev curr) by lia.
Qed.

(** X4. The two edge cases of the diff: from the empty stack it is one START
    per frame, outermost first, and to the empty stack it is one END per
    frame, innermost first. *)
Theorem diff_with_empty_stack (stack : list string) (t : T) :
  convertSamplesToEvents [] stack t = (mkEvent START t <$> stack) ∧
  convertSamplesToEvents stack [] t = (mkEvent END t <$> reverse stack).
Proof.
  rewrite !convertSamplesToEvents_spec.
  assert (commonLen [] stack = 0) as ->.
  { destruct (commonLen_spec [] stack) as (H0 & _). simpl in H0. lia. }
  assert (commonLen stack [] = 0) as ->.
  { destruct (commonLen_spec stack []) as (_ & H0 & _). simpl in H0. lia. }
  simpl. rewrite !drop_0. by rewrite app_nil_r.
Qed.

End DifferExtras.
End DifferExtras.

(** ** Frame names *)

Module NameFacts.
Import Sampler Capture.

Lemma take_name_chars s : all_chars is_name_char (take_name s) = true.
Proof.
  induction s as [|c s IH]; simpl; [done|].
  destruct (is_name_char c) eqn:Hc; simpl; [|done]. by rewrite Hc.
Qed.

Lemma name_at_Some s name :
  name_at s = Some name → name ≠ "" ∧ all_chars is_name_char name = true.
Proof.
  unfold name_at. pose proof (take_name_chars s) as Hchars.
  destruct (take_name s) as [|c rest]; [done|]. by intros [= <-].
Qed.

Lemma match_here_Some s name :
  match_here s = Some name → name ≠ "" ∧ all_chars is_name_char name = true.
Proof.
  unfold match_here. destruct (strip_prefix "at" s) as [rest|]; [|done].
  destruct (after_spaces rest) as [rest1|]; [|done].
  destruct (strip_prefix "async" rest1) as [rest2|].
  - destruct (after_spaces rest2) as [rest3|].
    + destruct (name_at rest3) as [name'|] eqn:Hname.
      * intros [= <-]. by eapply name_at_Some.
      * apply name_at_Some.
    + apply name_at_Some.
  - apply name_at_Some.
Qed.

Lemma search_Some s name :
  search s = Some name → name ≠ "" ∧ all_chars is_name_char name = true.
Proof.
  induction s as [|c s IH]; cbn [search].
  - destruct (match_here "") as [name'|] eqn:Hm; [|done].
    intros [= <-]. by eapply match_here_Some.
  - destruct (match_here (String c s)) as [name'|] eqn:Hm; [|exact IH].
    intros [= <-]. by eapply match_here_Some.
Qed.

Lemma take_word_chars s : all_chars (λ c, negb (is_space c)) (take_word s) = true.
Proof.
  induction s as [|c s IH]; simpl; [done|].
  destruct (is_space c) eqn:Hc; simpl; [done|]. by rewrite Hc.
Qed.

Lemma word_here_Some s word :
  word_here s = Some word →
  word ≠ "" ∧ all_chars (λ c, negb (is_space c)) word = true.
Proof.
  unfold word_here. destruct (strip_prefix "at" s) as [rest|]; [|done].
  destruct (after_spaces rest) as [rest1|]; [|done].
  pose proof (take_word_chars rest1) as Hchars.
  destruct (take_word rest1) as [|c w]; [done|].
  destruct (skip_word rest1); [done|]. by intros [= <-].
Qed.

Lemma search_word_Some s word :
  search_word s = Some word →
  word ≠ "" ∧ all_chars (λ c, negb (is_space c)) word = true.
Proof.
  induction s as [|c s IH]; cbn [search_word].
  - destruct (word_here "") as [w|] eqn:Hw; [|done].
    intros [= <-]. by eapply word_here_Some.
  - destruct (word_here (String c s)) as [w|] eqn:Hw; [|exact IH].
    intros [= <-]. by eapply word_here_Some.
Qed.

(** X5. [extractFunctionName] never gives the empty string, and the name it
    gives has no white space and no opening parenthesis; so the [name &&]
    test of [captureStackSample] drops nothing, the captured names are the
    extracted names that no pattern excludes, and there are at most as many
    as lines after the first two. *)
Theorem extracted_names_are_names :
  (∀ line,
     extractFunctionName line ≠ "" ∧
     all_chars is_name_char (extractFunctionName line) = true) ∧
  (∀ excludePatterns lines,
     functionNames excludePatterns lines
     = filter (λ name, shouldExclude excludePatterns name = false)
         (extractFunctionName <$> drop 2 lines) ∧
     length (functionNames excludePatterns lines) ≤ length lines - 2).
Proof.
  assert (Hname : ∀ line,
    extractFunctionName line ≠ "" ∧
    all_chars is_name_char (extractFunctionName line) = true).
  { intros line. unfold extractFunctionName.
    destruct (search line) as [name|] eqn:Hs; simpl; [by eapply search_Some|].
    split; [done|]. vm_compute. reflexivity. }
  split; [done|]. intros patterns lines. split.
  - unfold functionNames. induction (drop 2 lines) as [|line rest IH]; [done|].
    rewrite fmap_cons. destruct (Hname line) as [Hne _].
    destruct (shouldExclude patterns (extractFunctionName line)) eqn:Hex.
    + rewrite !filter_cons_False; [done|congruence|]. intros [_ ?]. congruence.
    + rewrite !filter_cons_True by done. by rewrite IH.
  - unfold functionNames. etrans; [apply length_filter|].
    by rewrite length_fmap, length_drop.
Qed.

(** X6. [captureStack] gives one name per line after the skipped ones, in
    the opposite order (the last line, the outermost frame, comes first);
    a name is never empty and has no white space. *)
Theorem captureStack_names (skipFrames : nat) (stackLines : list string) :
  length (captureStack skipFrames stackLines) = length stackLines - skipFrames ∧
  (∀ i, i < length stackLines - skipFrames →
     captureStack skipFrames stackLines !! i
     = frameName <$> stackLines !! (length stackLines - 1 - i)) ∧
  (∀ name, name ∈ captureStack skipFrames stackLines →
     name ≠ "" ∧ all_chars (λ c, negb (is_space c)) name = true).
Proof.
  unfold captureStack. split; [|split].
  - by rewrite length_reverse, length_fmap, length_drop.
  - intros i Hi.
    rewrite reverse_lookup by (rewrite length_fmap, length_drop; lia).
    rewrite length_fmap, length_drop, list_lookup_fmap, lookup_drop.
    do 2 f_equal. lia.
  - intros name [line [-> _]]%elem_of_reverse%list_elem_of_fmap.
    unfold frameName. destruct (search_word line) as [word|] eqn:Hw; simpl.
    + by eapply search_word_Some.
    + split; [done|]. vm_compute. reflexivity.
Qed.

Lemma captureStack_names_witness :
  captureStack 2
    ["Error"; "    at captureStack (/srv/t.js:8:9)";
     "    at innerFunction (/srv/t.js:85:17)";
     "    at outerFunction (/srv/t.js:95:10)"] !! 0
  = Some "outerFunction".
Proof.
  destruct (captureStack_names 2
    ["Error"; "    at captureStack (/srv/t.js:8:9)";
     "    at innerFunction (/srv/t.js:85:17)";
     "    at outerFunction (/srv/t.js:95:10)"]) as (_ & Horder & _).
  rewrite Horder; [vm_compute; reflexivity|vm_compute; lia].
Defined.

End NameFacts.

(** ** The live sampler, continued *)

Module SamplerExtras.
Import Otel OtelFacts Differ DifferFacts Sampler SamplerFacts Lifecycle.

Implicit Types (t : Tracer) (store : list (Span Z)).

Lemma evolves_refl {T} (s : Span T) : evolves s s.
Proof. by repeat split. Qed.

Lemma evolves_trans {T} (s1 s2 s3 : Span T) :
  evolves s1 s2 → evolves s2 s3 → evolves s1 s3.
Proof.
  intros (Hn & Hs & Hp & He) (Hn' & Hs' & Hp' & He').
  split; [congruence|]. split; [congruence|]. split; [congruence|].
  intros Hended. rewrite He' by (by rewrite He). by apply He.
Qed.

Lemma store_evolves_refl {T} (store : list (Span T)) : store_evolves store store.
Proof. intros r s Hs. exists s. split; [done|apply evolves_refl]. Qed.

Lemma store_evolves_trans {T} (s1 s2 s3 : list (Span T)) :
  store_evolves s1 s2 → store_evolves s2 s3 → store_evolves s1 s3.
Proof.
  intros H12 H23 r s Hs. destruct (H12 r s Hs) as (s' & Hs' & He).
  destruct (H23 r s' Hs') as (s'' & Hs'' & He'). exists s''.
  split; [done|]. by eapply evolves_trans.
Qed.

Lemma endSpan_evolves {T} ref (e : T) (store : list (Span T)) :
  store_evolves store (endSpan ref e store).
Proof.
  intros r s Hs. destruct (decide (r = ref)) as [->|Hne].
  - unfold endSpan. rewrite Hs. destruct (endTime s) eqn:He.
    + exists s. split; [done|apply evolves_refl].
    + eexists. rewrite list_lookup_insert_eq by (by eapply lookup_lt_Some).
      split; [done|]. by repeat split.
  - exists s. rewrite endSpan_lookup_ne by done. split; [done|apply evolves_refl].
Qed.

Lemma end_all_evolves {T K} `{Countable K} (table : gmap K nat) (now : nat → T)
    (store : list (Span T)) :
  store_evolves store (map_fold (λ _ span st, endSpan span (now span) st) store table).
Proof.
  apply (map_fold_weak_ind
           (λ (st' : list (Span T)) (_ : gmap K nat), store_evolves store st')).
  - apply store_evolves_refl.
  - intros k ref m st _ IH. eapply store_evolves_trans; [done|apply endSpan_evolves].
Qed.

Lemma flushAsyncContext_unknown asyncId now t :
  activeSpans t !! asyncId = None → samples t !! asyncId = None →
  flushAsyncContext asyncId now t = t.
Proof.
  intros Hact Hsmp. unfold flushAsyncContext. rewrite Hact.
  rewrite delete_id by done. by destruct t.
Qed.

Lemma recorded_lookup t cur l ctx :
  ctx ≠ cur → <[cur := l]> (samples t) !! ctx = samples t !! ctx.
Proof. intros Hne. by rewrite lookup_insert_ne. Qed.

(** X7. The first stack recorded for a context opens no span: the tick only
    stores the sample, the span store and the tables are as before, and the
    filtered stack, when it is not empty, is the last stack of the context
    from then on. *)
Theorem first_stack_opens_no_span (excludePatterns : list (string → bool))
    (lines : list string) (now : Z) (t : Tracer) :
  lastStack t (currentAsyncId t) = None →
  let t' := captureStackSample excludePatterns lines now t in
  spans t' = spans t ∧ activeSpans t' = activeSpans t ∧
  (functionNames excludePatterns lines ≠ [] →
   lastStack t' (currentAsyncId t) = Some (functionNames excludePatterns lines)).
Proof.
  intros Hlast t'. unfold t'.
  destruct (decide (functionNames excludePatterns lines = [])) as [Hnil|Hne].
  { unfold captureStackSample. by rewrite Hnil. }
  rewrite captureStackSample_unfold by done. rewrite Hlast.
  split; [done|]. split; [done|]. intros _.
  rewrite recorded_lastStack. by rewrite decide_True.
Qed.

Lemma first_stack_opens_no_span_witness :
  spans (tick ["main"; "handler"] 10 initial) = [] ∧
  activeSpans (tick ["main"; "handler"] 10 initial) = ∅.
Proof.
  destruct (first_stack_opens_no_span defaultExcludePatterns
              (capturedLines ["main"; "handler"]) 10%Z initial) as (Hs & Ha & _).
  - reflexivity.
  - split; [exact Hs|exact Ha].
Defined.

(** X8. A tick works on the current context only: the samples and the table
    of every other context are untouched, and in a reachable state so is
    every span that another context holds. *)
Theorem tick_leaves_other_contexts (excludePatterns : list (string → bool))
    (lines : list string) (now : Z) (t : Tracer) (ctx : Z) :
  ctx ≠ currentAsyncId t →
  let t' := captureStackSample excludePatterns lines now t in
  samples t' !! ctx = samples t !! ctx ∧
  activeSpans t' !! ctx = activeSpans t !! ctx ∧
  (reachable excludePatterns (λ _, True) t →
   ∀ frame ref, holds t ctx frame ref → spans t' !! ref = spans t !! ref).
Proof.
  intros Hctx t'. unfold t'.
  destruct (decide (functionNames excludePatterns lines = [])) as [Hnil|Hne].
  { unfold captureStackSample. by rewrite Hnil. }
  rewrite captureStackSample_unfold by done.
  destruct (lastStack t (currentAsyncId t)) as [prev|]; simpl.
  - rewrite applyEventsToSpans_unfold. simpl.
    rewrite !lookup_insert_ne by done.
    split; [done|]. split; [done|].
    intros Hreach frame ref Hh.
    destruct (reachable_inv _ _ _ Hreach) as [Hopen Honce].
    apply applyEvents_frame; simpl.
    + by eapply is_open_lt, Hopen.
    + intros f Hf. apply holds_own in Hf.
      destruct (Honce _ _ _ _ _ Hh Hf). congruence.
  - by rewrite lookup_insert_ne.
Qed.

Lemma tick_leaves_other_contexts_witness :
  samples (tick ["y"] 30 (setCurrent 7 repeated_frame_run)) !! 0%Z
  = samples repeated_frame_run !! 0%Z.
Proof.
  destruct (tick_leaves_other_contexts defaultExcludePatterns
              (capturedLines ["y"]) 30%Z (setCurrent 7 repeated_frame_run) 0%Z)
    as (Hs & _).
  - vm_compute. congruence.
  - exact Hs.
Defined.

(** X9. Flushing a context the tracer does not know changes nothing, and
    flushing a context a second time changes nothing more. *)
Theorem flush_unknown_context (asyncId : Z) (now : nat → Z) (t : Tracer) :
  (activeSpans t !! asyncId = None → samples t !! asyncId = None →
   flushAsyncContext asyncId now t = t) ∧
  (∀ now', flushAsyncContext asyncId now' (flushAsyncContext asyncId now t)
           = flushAsyncContext asyncId now t).
Proof.
  split; [apply flushAsyncContext_unknown|].
  intros now'. apply flushAsyncContext_unknown.
  - unfold flushAsyncContext.
    destruct (activeSpans t !! asyncId) eqn:Hact; simpl; [|done].
    apply lookup_delete_eq.
  - unfold flushAsyncContext.
    destruct (activeSpans t !! asyncId); simpl; apply lookup_delete_eq.
Qed.

Lemma flush_unknown_context_witness :
  flushAsyncContext 7 (λ _, 30%Z) repeated_frame_run = repeated_frame_run.
Proof.
  destruct (flush_unknown_context 7 (λ _, 30%Z) repeated_frame_run) as [Hnoop _].
  apply Hnoop; vm_compute; reflexivity.
Defined.

(** X19. A tick whose filtered stack is not empty files exactly one more
    sample under the current context, after the ones it has; nothing but a
    flush ever removes a sample. *)
Theorem tick_records_one_sample (excludePatterns : list (string → bool))
    (lines : list string) (now : Z) (t : Tracer) :
  functionNames excludePatterns lines ≠ [] →
  samples (captureStackSample excludePatterns lines now t) !! currentAsyncId t
  = Some (default [] (samples t !! currentAsyncId t)
          ++ [mkSample now (functionNames excludePatterns lines) (currentAsyncId t)]).
Proof.
  intros Hne. rewrite captureStackSample_unfold by done.
  destruct (lastStack t (currentAsyncId t)) as [prev|].
  - rewrite applyEventsToSpans_unfold. simpl. by rewrite lookup_insert_eq.
  - simpl. by rewrite lookup_insert_eq.
Qed.

Lemma tick_records_one_sample_witness :
  samples (tick ["y"] 30 repeated_frame_run) !! 0%Z
  = Some (default [] (samples repeated_frame_run !! 0%Z)
          ++ [mkSample 30 (functionNames defaultExcludePatterns (capturedLines ["y"])) 0]).
Proof.
  apply (tick_records_one_sample defaultExcludePatterns (capturedLines ["y"]) 30%Z
           repeated_frame_run).
  vm_compute. congruence.
Defined.

(** *** Span names come from filtered stacks *)

Lemma store_evolves_inv {T} (store store' : list (Span T)) r s' :
  store_evolves store store' → length store' = length store →
  store' !! r = Some s' →
  ∃ s, store !! r = Some s ∧ evolves s s'.
Proof.
  intros Hev Hlen Hs'.
  destruct (lookup_lt_is_Some_2 store r) as [s Hs].
  { rewrite <- Hlen. by eapply lookup_lt_Some. }
  destruct (Hev r s Hs) as (s'' & Hs'' & He). exists s. split; [done|congruence].
Qed.

Lemma diff_start_names (prev curr : list string) (ts : Z) event :
  event ∈ convertSamplesToEvents prev curr ts → kind event = START →
  name event ∈ curr.
Proof.
  rewrite convertSamplesToEvents_spec.
  intros [Hin|Hin]%elem_of_app Hkind.
  - apply list_elem_of_fmap in Hin as (f & -> & _). done.
  - apply list_elem_of_fmap in Hin as (f & -> & Hf). simpl.
    by apply (subseteq_drop (commonLen prev curr) curr).
Qed.

Lemma applyEvent_names (P : string → Prop) event st :
  (kind event = START → P (name event)) →
  (∀ r s, st.2 !! r = Some s → P (span_name s)) →
  ∀ r s, (applyEvent event st).2 !! r = Some s → P (span_name s).
Proof.
  destruct st as [table store], event as [[] ts frame]; intros Hev Hst r s; simpl in *.
  - intros [Hs|[_ Hs]]%lookup_app_Some; [by eapply Hst|].
    destruct (r - length store) as [|k]; simpl in Hs; [|done].
    simplify_eq. simpl. by apply Hev.
  - destruct (table !! frame) as [span|]; simpl; [|by apply Hst].
    intros (s1 & Hs1 & -> & _)%endSpan_lookup_Some.
    apply setStatus_lookup_Some in Hs1 as (s0 & Hs0 & -> & _).
    by eapply Hst.
Qed.

Lemma applyEvents_names (P : string → Prop) events st :
  (∀ event, event ∈ events → kind event = START → P (name event)) →
  (∀ r s, st.2 !! r = Some s → P (span_name s)) →
  ∀ r s, (applyEvents events st).2 !! r = Some s → P (span_name s).
Proof.
  revert st. induction events as [|event events IH]; intros st Hev Hst; [done|].
  rewrite applyEvents_cons. apply IH.
  - intros e He. apply Hev. by right.
  - apply applyEvent_names; [|done]. apply Hev. by left.
Qed.

Lemma functionNames_allowed excludePatterns lines :
  Forall (allowed excludePatterns) (functionNames excludePatterns lines).
Proof.
  apply Forall_forall. intros name [Hok _]%list_elem_of_filter. exact Hok.
Qed.

Lemma processSamples_names (P : string → Prop) asyncId t :
  (∀ l sample, samples t !! asyncId = Some l → sample ∈ l →
     Forall P (s_stack sample)) →
  (∀ r s, spans t !! r = Some s → P (span_name s)) →
  ∀ r s, spans (processSamples asyncId t) !! r = Some s → P (span_name s).
Proof.
  intros Hsmp Hst. unfold processSamples.
  destruct (samples t !! asyncId) as [l|] eqn:Hl; [|done].
  case_decide; [done|].
  destruct (l !! (length l - 2)) as [prevSample|]; [|done].
  destruct (l !! (length l - 1)) as [currSample|] eqn:Hcurr; [|done].
  rewrite applyEventsToSpans_unfold. simpl.
  apply applyEvents_names; [|done].
  intros event Hin Hkind. apply (diff_start_names _ _ _ _ Hin) in Hkind.
  assert (Forall P (s_stack currSample)) as Hall.
  { eapply Hsmp; [done|]. by eapply list_elem_of_lookup_2. }
  by eapply Forall_forall in Hall.
Qed.

Section Names.
Variable excludePatterns : list (string → bool).
Variable stack_ok : list string → Prop.

Lemma step_names_allowed t t' :
  step excludePatterns stack_ok t t' →
  names_allowed excludePatterns t → names_allowed excludePatterns t'.
Proof.
  intros Hstep [Hsmp Hst]. destruct Hstep as [asyncId t|asyncId now t|lines now t _].
  - done.
  - split.
    + intros ctx l sample Hl Hin. apply (Hsmp ctx l sample); [|done].
      unfold flushAsyncContext in Hl.
      destruct (activeSpans t !! asyncId); simpl in Hl;
        by apply lookup_delete_Some in Hl as [_ ?].
    + intros r s Hs. unfold flushAsyncContext in Hs.
      destruct (activeSpans t !! asyncId) as [table|]; simpl in Hs; [|by eapply Hst].
      destruct (end_all_spec table now (spans t)) as (Hlen & _).
      destruct (store_evolves_inv (spans t) _ r s (end_all_evolves table now _) Hlen Hs)
        as (s0 & Hs0 & Hname & _).
      rewrite Hname. by eapply Hst.
  - unfold captureStackSample. case_decide as Hnil; [done|].
    set (names := functionNames excludePatterns lines) in *.
    set (cur := currentAsyncId t).
    set (smp := match samples t !! cur with
                | Some _ => samples t
                | None => <[cur := []]> (samples t)
                end).
    set (t1 := mkTracer _ _ _ _).
    assert (Hsmp1 : ∀ ctx l sample, samples t1 !! ctx = Some l → sample ∈ l →
              s_asyncId sample = ctx ∧ s_stack sample ≠ [] ∧
              Forall (allowed excludePatterns) (s_stack sample)).
    { intros ctx l sample. unfold t1. simpl.
      destruct (decide (ctx = cur)) as [->|Hne].
      - rewrite lookup_insert_eq. intros [= <-] [Hin|Hin]%elem_of_app.
        + assert (smp !! cur = samples t !! cur ∨ smp !! cur = Some []) as [Heq|Heq].
          { unfold smp. destruct (samples t !! cur) eqn:Hc; [by left|].
            right. by rewrite lookup_insert_eq. }
          * rewrite Heq in Hin. destruct (samples t !! cur) as [l0|] eqn:Hl0; simpl in Hin.
            -- by eapply Hsmp.
            -- by apply elem_of_nil in Hin.
          * rewrite Heq in Hin. by apply elem_of_nil in Hin.
        + apply list_elem_of_singleton in Hin as ->. simpl.
          split; [done|]. split; [by destruct names|apply functionNames_allowed].
      - rewrite lookup_insert_ne by done. unfold smp.
        destruct (samples t !! cur); [apply Hsmp|].
        rewrite lookup_insert_ne by done. apply Hsmp. }
    split.
    + intros ctx l sample Hl. apply Hsmp1.
      unfold processSamples in Hl.
      destruct (samples t1 !! cur) as [l1|]; [|done].
      case_decide; [done|].
      destruct (l1 !! _); [|done]. destruct (l1 !! _); [|done].
      by rewrite applyEventsToSpans_unfold in Hl.
    + apply processSamples_names; [|exact Hst].
      intros l sample Hl Hin. by destruct (Hsmp1 _ _ _ Hl Hin) as (_ & _ & ?).
Qed.

(** X11. The filter holds for the whole life of the tracer: in every
    reachable state each recorded sample belongs to the context it is filed
    under, its stack is not empty and has no excluded frame, and no span
    has an empty name or a name that a pattern excludes. *)
Theorem reachable_names_allowed (t : Tracer) :
  reachable excludePatterns stack_ok t → names_allowed excludePatterns t.
Proof.
  unfold reachable. revert t. apply rtc_ind_r.
  - split; [by intros ctx l sample|by intros r s].
  - intros t1 t2 _ Hstep IH. by eapply step_names_allowed.
Qed.

End Names.

Lemma reachable_names_allowed_witness :
  names_allowed defaultExcludePatterns repeated_frame_run.
Proof.
  apply (reachable_names_allowed defaultExcludePatterns (λ _, True)).
  eapply rtc_r; [eapply rtc_r; [apply rtc_refl|]|].
  - by apply (step_tick defaultExcludePatterns (λ _, True) (capturedLines ["x"]) 10%Z).
  - by apply (step_tick defaultExcludePatterns (λ _, True)
                (capturedLines ["a"; "a"; "x"]) 20%Z).
Defined.

(** *** Statuses *)

(** [span.setStatus({code: OK}); span.end(ts)] on one span: the span is
    unchanged, or it was open and is now ended with the status OK. *)
Lemma close_lookup span (ts : Z) store r s' :
  endSpan span ts (setStatus span OK store) !! r = Some s' →
  ∃ s, store !! r = Some s ∧
       (s' = s ∨ (endTime s = None ∧ status s' = OK ∧ endTime s' = Some ts)).
Proof.
  destruct (decide (r = span)) as [->|Hne].
  - unfold endSpan, setStatus.
    destruct (store !! span) as [s|] eqn:Hs; [|rewrite Hs; by rewrite Hs].
    destruct (endTime s) eqn:He.
    + rewrite Hs, He, Hs. intros [= <-]. eauto.
    + rewrite list_lookup_insert_eq by (by eapply lookup_lt_Some). simpl.
      rewrite list_lookup_insert_eq
        by (rewrite length_insert; by eapply lookup_lt_Some).
      intros [= <-]. exists s. split; [done|]. right. by simpl.
  - rewrite endSpan_lookup_ne, setStatus_lookup_ne by done. eauto.
Qed.

Lemma endSpan_lookup_status {T} ref (e : T) (store : list (Span T)) r s' :
  endSpan ref e store !! r = Some s' →
  ∃ s, store !! r = Some s ∧ status s' = status s ∧
       (endTime s ≠ None → endTime s' ≠ None).
Proof.
  destruct (decide (r = ref)) as [->|Hne].
  - unfold endSpan. destruct (store !! ref) as [s|] eqn:Hs; [|by rewrite Hs].
    destruct (endTime s) eqn:He.
    + rewrite Hs. intros [= <-]. exists s. by rewrite He.
    + rewrite list_lookup_insert_eq by (by eapply lookup_lt_Some).
      intros [= <-]. exists s. by rewrite He.
  - rewrite endSpan_lookup_ne by done. eauto.
Qed.

Lemma end_all_status {T K} `{Countable K} (table : gmap K nat) (now : nat → T)
    (store : list (Span T)) r s' :
  map_fold (λ _ span st, endSpan span (now span) st) store table !! r = Some s' →
  ∃ s, store !! r = Some s ∧ status s' = status s ∧
       (endTime s ≠ None → endTime s' ≠ None).
Proof.
  revert r s'.
  apply (map_fold_weak_ind
    (λ (st' : list (Span T)) (_ : gmap K nat),
       ∀ r s', st' !! r = Some s' →
         ∃ s, store !! r = Some s ∧ status s' = status s ∧
              (endTime s ≠ None → endTime s' ≠ None))).
  - eauto.
  - intros k ref m st _ IH r s' (s1 & Hs1 & Hst & He)%endSpan_lookup_status.
    destruct (IH r s1 Hs1) as (s & Hs & Hst' & He'). exists s.
    split; [done|]. split; [congruence|auto].
Qed.

Lemma applyEvent_statuses event st :
  statuses_ok st.2 → statuses_ok (applyEvent event st).2.
Proof.
  destruct st as [table store], event as [[] ts frame]; intros Hok r s; simpl in *.
  - intros [Hs|[_ Hs]]%lookup_app_Some; [by eapply Hok|].
    destruct (r - length store) as [|k]; simpl in Hs; [|done]. by simplify_eq.
  - destruct (table !! frame) as [span|]; simpl; [|by apply Hok].
    intros (s0 & Hs0 & [->|(_ & Hst & He)])%close_lookup; [by eapply Hok|].
    rewrite Hst, He. done.
Qed.

Lemma applyEvents_statuses events st :
  statuses_ok st.2 → statuses_ok (applyEvents events st).2.
Proof.
  revert st. induction events as [|event events IH]; intros st Hok; [done|].
  rewrite applyEvents_cons. by apply IH, applyEvent_statuses.
Qed.

Lemma applyEvent_named event st :
  table_ok st → table_named st → table_named (applyEvent event st).
Proof.
  destruct st as [table store], event as [[] ts frame];
    intros [Hopen Hinj] Hnamed f ref; simpl in *.
  - rewrite lookup_insert. case_decide.
    + intros [= <-]. subst. eexists. split; [by apply list_lookup_middle|done].
    + intros Hf. destruct (Hnamed f ref Hf) as (s & Hs & Hn).
      exists s. split; [|done]. rewrite lookup_app_l; [done|by eapply lookup_lt_Some].
  - destruct (table !! frame) as [span|] eqn:Hspan; simpl; [|by apply Hnamed].
    intros [Hne Hf]%lookup_delete_Some.
    destruct (Hnamed f ref Hf) as (s & Hs & Hn). exists s. split; [|done].
    rewrite endSpan_lookup_ne, setStatus_lookup_ne; [done|..];
      intros ->; by specialize (Hinj _ _ _ Hf Hspan).
Qed.

Lemma applyEvents_named events st :
  table_ok st → table_named st → table_named (applyEvents events st).
Proof.
  revert st. induction events as [|event events IH]; intros st Hok Hnamed; [done|].
  rewrite applyEvents_cons. apply IH; [by apply applyEvent_ok|by apply applyEvent_named].
Qed.

Lemma applyEventsToSpans_status asyncId events t :
  tables_open t → held_once t → status_sound t →
  status_sound (applyEventsToSpans asyncId events t).
Proof.
  intros Hopen Honce [Hst Hheld]. rewrite applyEventsToSpans_unfold.
  set (table0 := default ∅ (activeSpans t !! asyncId)).
  set (st' := applyEvents events (table0, spans t)). simpl.
  split.
  - apply (applyEvents_statuses events (table0, spans t)). exact Hst.
  - assert (table_named st') as Hnamed.
    { apply applyEvents_named; [by apply own_table_ok|].
      intros f ref Hf. apply holds_own in Hf. by eapply Hheld. }
    intros ctx f ref (table & Htable & Hf). simpl in *.
    destruct (decide (ctx = asyncId)) as [->|Hne].
    + rewrite lookup_insert_eq in Htable. simplify_eq. by apply Hnamed.
    + rewrite lookup_insert_ne in Htable by done.
      assert (holds t ctx f ref) as Hh by (by exists table).
      destruct (Hheld _ _ _ Hh) as (s & Hs & Hn). exists s. split; [|done].
      destruct (applyEvents_frame events (table0, spans t) ref) as [Heq _].
      * simpl. by eapply is_open_lt, Hopen.
      * simpl. intros f' Hf'. apply holds_own in Hf'.
        destruct (Honce _ _ _ _ _ Hh Hf'). congruence.
      * fold st' in Heq. simpl in Heq. by rewrite Heq.
Qed.

Lemma flushAsyncContext_status asyncId now t :
  held_once t → status_sound t → status_sound (flushAsyncContext asyncId now t).
Proof.
  intros Honce [Hst Hheld]. split.
  - intros r s Hs. unfold flushAsyncContext in Hs.
    destruct (activeSpans t !! asyncId) as [table|]; simpl in Hs; [|by eapply Hst].
    apply end_all_status in Hs as (s0 & Hs0 & Hstat & He).
    destruct (Hst _ _ Hs0) as [Herr Hok]. rewrite Hstat. split; [done|]. auto.
  - intros ctx f ref [Hne Hh]%flushAsyncContext_holds.
    destruct (Hheld _ _ _ Hh) as (s & Hs & Hn). exists s. split; [|done].
    unfold flushAsyncContext.
    destruct (activeSpans t !! asyncId) as [table|] eqn:Htable; simpl; [|done].
    destruct (end_all_spec table now (spans t)) as (_ & _ & _ & Hframe).
    rewrite Hframe; [done|]. intros k Hk.
    assert (holds t asyncId k ref) as Hh' by (by exists table).
    by destruct (Honce _ _ _ _ _ Hh Hh').
Qed.

(** X12. In every reachable state no span has the status ERROR, a span with
    the status OK has ended (OK is set by an END event only, just before the
    span ends; a flush ends spans without a status), and the span a table
    holds under a frame has that frame as name and no status yet. *)
Theorem reachable_status_sound (excludePatterns : list (string → bool))
    (stack_ok : list string → Prop) (t : Tracer) :
  reachable excludePatterns stack_ok t → status_sound t.
Proof.
  unfold reachable. revert t. apply rtc_ind_r.
  - split; [by intros r s|by intros ctx f ref (tb & Htb & _)].
  - intros t1 t2 Hreach Hstep IH.
    destruct (reachable_inv _ _ _ Hreach) as [Hopen Honce].
    destruct Hstep as [asyncId t|asyncId now t|lines now t _].
    + done.
    + by apply flushAsyncContext_status.
    + unfold captureStackSample. case_decide; [done|].
      unfold processSamples. simpl.
      destruct (_ !! currentAsyncId t) as [l|]; [|done].
      case_decide; [done|].
      destruct (l !! _); [|done]. destruct (l !! _); [|done].
      by apply applyEventsToSpans_status.
Qed.

Lemma reachable_status_sound_witness : status_sound repeated_frame_run.
Proof.
  apply (reachable_status_sound defaultExcludePatterns (λ _, True)).
  eapply rtc_r; [eapply rtc_r; [apply rtc_refl|]|].
  - by apply (step_tick defaultExcludePatterns (λ _, True) (capturedLines ["x"]) 10%Z).
  - by apply (step_tick defaultExcludePatterns (λ _, True)
                (capturedLines ["a"; "a"; "x"]) 20%Z).
Defined.

(** *** Ticks that always see one stack *)

(** X22. When every tick captures the same filtered stack, the sampler never
    starts a span: in every reachable state the span store is empty, every
    table is empty and the last stack of a context, if it has one, is that
    stack. Spans come from the diff of two different stacks of one context
    only. *)
Theorem constant_stack_starts_no_span (excludePatterns : list (string → bool))
    (names : list string) (t : Tracer) :
  reachable excludePatterns (λ stack, stack = names) t →
  spans t = [] ∧
  (∀ ctx table, activeSpans t !! ctx = Some table → table = ∅) ∧
  (∀ ctx stack, lastStack t ctx = Some stack → stack = names).
Proof.
  unfold reachable. revert t. apply rtc_ind_r.
  - split; [done|]. split; [by intros ctx table|by intros ctx stack].
  - intros t t' _ Hstep (Hspans & Htables & Hlast).
    destruct Hstep as [asyncId t|asyncId now t|lines now t Hok].
    + done.
    + split; [|split].
      * unfold flushAsyncContext.
        destruct (activeSpans t !! asyncId) as [table|] eqn:Htable; [|done].
        simpl. rewrite (Htables _ _ Htable). by rewrite map_fold_empty.
      * intros ctx table. unfold flushAsyncContext.
        destruct (activeSpans t !! asyncId); simpl.
        -- intros [_ Hctx]%lookup_delete_Some. by eapply Htables.
        -- apply Htables.
      * intros ctx stack. rewrite flushAsyncContext_lastStack.
        case_decide; [done|apply Hlast].
    + destruct (decide (functionNames excludePatterns lines = [])) as [Hnil|Hne].
      { unfold captureStackSample. by rewrite Hnil. }
      rewrite captureStackSample_unfold by done. rewrite Hok.
      destruct (lastStack t (currentAsyncId t)) as [prev|] eqn:Hprev.
      * rewrite (Hlast _ _ Hprev), convertSamplesToEvents_same.
        rewrite applyEventsToSpans_unfold. cbn [applyEvents fold_left fst snd].
        cbn [samples activeSpans currentAsyncId spans].
        split; [done|]. split.
        -- intros ctx table [[_ <-]|[_ Hctx]]%lookup_insert_Some.
           ++ destruct (activeSpans t !! currentAsyncId t) as [table|] eqn:Htable;
                [by eapply Htables|done].
           ++ by eapply Htables.
        -- intros ctx stack. rewrite recorded_lastStack.
           case_decide; [by intros [= <-]|apply Hlast].
      * split; [done|]. split; [done|].
        intros ctx stack. rewrite recorded_lastStack.
        case_decide; [by intros [= <-]|apply Hlast].
Qed.

Lemma constant_stack_starts_no_span_witness :
  spans (tick ["listOnTimeout"] 20 (tick ["listOnTimeout"] 10 initial)) = [].
Proof.
  apply (constant_stack_starts_no_span defaultExcludePatterns ["listOnTimeout"]).
  eapply rtc_r; [eapply rtc_r; [apply rtc_refl|]|].
  - apply (step_tick defaultExcludePatterns _ (capturedLines ["listOnTimeout"]) 10%Z).
    vm_compute. reflexivity.
  - apply (step_tick defaultExcludePatterns _ (capturedLines ["listOnTimeout"]) 20%Z).
    vm_compute. reflexivity.
Defined.

(** *** [stop] *)

Lemma flushAll_spec now t0 :
  let t' := flushAll now t0 in
  currentAsyncId t' = currentAsyncId t0 ∧
  activeSpans t' = ∅ ∧
  (∀ k, samples t' !! k
        = match activeSpans t0 !! k with Some _ => None | None => samples t0 !! k end) ∧
  (∀ ctx frame ref, holds t0 ctx frame ref → is_open (spans t0) ref →
     ended_at (spans t') ref (now ref)) ∧
  (∀ r, is_open (spans t') r →
     is_open (spans t0) r ∧ ∀ ctx frame, ¬ holds t0 ctx frame r).
Proof.
  unfold flushAll.
  pose (P := λ (t' : Tracer) (m : gmap Z (gmap string nat)),
    currentAsyncId t' = currentAsyncId t0 ∧
    (∀ k, activeSpans t' !! k
          = match m !! k with Some _ => None | None => activeSpans t0 !! k end) ∧
    (∀ k, samples t' !! k
          = match m !! k with Some _ => None | None => samples t0 !! k end) ∧
    (∀ r e, ended_at (spans t0) r e → ended_at (spans t') r e) ∧
    (∀ r, is_open (spans t0) r →
       ended_at (spans t') r (now r) ∨
       (is_open (spans t') r ∧
        ∀ k table f, is_Some (m !! k) → activeSpans t0 !! k = Some table →
          table !! f ≠ Some r)) ∧
    (∀ r, is_open (spans t') r → is_open (spans t0) r)).
  assert (P (map_fold (λ asyncId _ t, flushAsyncContext asyncId now t) t0 (activeSpans t0))
            (activeSpans t0)) as (Hcur & Hact & Hsmp & _ & Hopen & Hback).
  { apply (map_fold_weak_ind P).
    - split; [done|]. split; [done|]. split; [done|]. split; [done|].
      split; [|done]. intros r Hr. right. split; [done|].
      intros k table f [? Hk]. by rewrite lookup_empty in Hk.
    - intros i x m t' Hi (Hcur & Hact & Hsmp & Hmono & Hopen & Hback).
      pose proof (Hact i) as Hacti. rewrite Hi in Hacti.
      unfold flushAsyncContext. rewrite Hacti.
      destruct (activeSpans t0 !! i) as [table|] eqn:Htable; simpl.
      + destruct (end_all_spec table now (spans t')) as (Hlen & Hmono' & Hends & _).
        unfold P. simpl.
        split; [done|]. split; [|split; [|split; [|split]]].
        * intros k. rewrite lookup_delete, lookup_insert.
          case_decide; [done|apply Hact].
        * intros k. rewrite lookup_delete, lookup_insert.
          case_decide; [done|apply Hsmp].
        * intros r e Hr. by apply Hmono', Hmono.
        * intros r Hr. destruct (Hopen r Hr) as [He|[Ho Hnot]].
          -- left. by apply Hmono'.
          -- destruct (Hends r Ho) as [[He _]|[Ho' Hnot']]; [by left|].
             right. split; [done|]. intros k table' f Hk Hk'.
             rewrite lookup_insert in Hk. case_decide.
             ++ subst. rewrite Htable in Hk'. simplify_eq. apply Hnot'.
             ++ by eapply Hnot.
        * intros r [Ho _]%end_all_open_inv. by apply Hback.
      + unfold P. simpl.
        split; [done|]. split; [|split; [|split; [done|split; [|done]]]].
        * intros k. rewrite lookup_insert. case_decide; [by subst|apply Hact].
        * intros k. rewrite lookup_delete, lookup_insert.
          case_decide; [done|apply Hsmp].
        * intros r Hr. destruct (Hopen r Hr) as [He|[Ho Hnot]]; [by left|].
          right. split; [done|]. intros k table' f Hk Hk'.
          rewrite lookup_insert in Hk. case_decide; [subst; congruence|by eapply Hnot]. }
  split; [done|]. split; [|split; [|split]].
  - apply map_eq. intros k. rewrite Hact, lookup_empty.
    by destruct (activeSpans t0 !! k).
  - done.
  - intros ctx frame ref (table & Htable & Hf) Hr.
    destruct (Hopen ref Hr) as [He|[_ Hnot]]; [done|].
    exfalso. by apply (Hnot ctx table frame).
  - intros r Hr. pose proof (Hback r Hr) as Ho. split; [done|].
    intros ctx frame (table & Htable & Hf).
    destruct (Hopen r Ho) as [He|[_ Hnot]].
    + eapply open_not_ended; [exact Hr|exact He].
    + by apply (Hnot ctx table frame).
Qed.

(** X13. [stop] on a stopped sampler changes nothing. [stop] on a started
    sampler disables it and flushes every context that has a table:
    afterwards no table is left, the samples of those contexts are gone and
    the samples of a context without a table are kept, every span a table
    held that was open has an end time, and the spans still open are open
    spans that no table held. *)
Theorem stop_flushes_every_context (now : nat → Z) (s : Sampling) :
  (enabled s = false → stop now s = s) ∧
  (enabled s = true →
   let t := tracer s in
   let t' := tracer (stop now s) in
   enabled (stop now s) = false ∧
   activeSpans t' = ∅ ∧
   (∀ ctx, samples t' !! ctx
           = match activeSpans t !! ctx with
             | Some _ => None
             | None => samples t !! ctx
             end) ∧
   (∀ ctx frame ref, holds t ctx frame ref → is_open (spans t) ref →
      ∃ time, ended_at (spans t') ref time) ∧
   (∀ r, is_open (spans t') r →
      is_open (spans t) r ∧ ∀ ctx frame, ¬ holds t ctx frame r)).
Proof.
  split.
  - intros Hen. unfold stop. by rewrite Hen.
  - intros Hen t t'. unfold t', stop. rewrite Hen. simpl.
    destruct (flushAll_spec now t) as (_ & Hact & Hsmp & Hends & Hopen).
    split; [done|]. split; [done|]. split; [done|]. split; [|done].
    intros ctx frame ref Hh Ho. exists (now ref). by eapply Hends.
Qed.

Lemma stop_flushes_every_context_witness :
  ∃ time,
    ended_at (spans (tracer (stop (λ _, 30%Z) (mkSampling true repeated_frame_run))))
      2 time.
Proof.
  destruct (stop_flushes_every_context (λ _, 30%Z) (mkSampling true repeated_frame_run))
    as (_ & Hstop).
  destruct (Hstop eq_refl) as (_ & _ & _ & Hends & _).
  apply (Hends 0%Z "x" 2).
  - exists {[ "a" := 1; "x" := 2 ]}. split; vm_compute; reflexivity.
  - eexists. split; vm_compute; reflexivity.
Defined.

End SamplerExtras.

(** ** The batch reconstructor, continued *)

Module GraphFacts.
Import Otel OtelFacts Differ DifferFacts Profile ProfileFacts Graph.
Import Lifecycle SamplerExtras.

Implicit Types (entries : list (Z * string * list string * option Z)).

Lemma node_entries_ids outer parent node :
  entry_id <$> node_entries outer parent node = node_ids node.
Proof.
  revert outer parent.
  induction node as [id fn children IH] using ProfileNode_forall_ind.
  intros outer parent. cbn [node_entries node_ids]. rewrite fmap_cons. f_equal.
  induction IH as [|child children Hchild _ IHc]; cbn [flat_map]; [done|].
  by rewrite fmap_app, Hchild, IHc.
Qed.

Lemma insert_frames_app entries1 entries2 nodeMap :
  insert_frames (entries1 ++ entries2) nodeMap
  = insert_frames entries2 (insert_frames entries1 nodeMap).
Proof. unfold insert_frames. by rewrite fold_left_app. Qed.

Lemma insert_parents_app entries1 entries2 parentMap :
  insert_parents (entries1 ++ entries2) parentMap
  = insert_parents entries2 (insert_parents entries1 parentMap).
Proof. unfold insert_parents. by rewrite fold_left_app. Qed.

(** [traverse] writes the entries of the graph into the two maps, but for
    the parent of the node it starts from, which the caller writes. *)
Lemma traverse_entries node :
  ∀ outer parent maps,
    traverse node maps
    = (insert_frames (node_entries outer parent node) maps.1,
       insert_parents (tail (node_entries outer parent node)) maps.2).
Proof.
  induction node as [id fn children IH] using ProfileNode_forall_ind.
  intros outer parent maps.
  set (here := outer ++ [frameOf fn]).
  assert (Hfold : ∀ nm pm,
    fold_left
      (λ (maps : gmap Z string * gmap Z Z) child,
         traverse child (maps.1, <[node_id child := id]> maps.2))
      children (nm, pm)
    = (insert_frames (flat_map (node_entries here (Some id)) children) nm,
       insert_parents (flat_map (node_entries here (Some id)) children) pm)).
  { induction IH as [|child children Hchild _ IHc]; intros nm pm;
      cbn [fold_left flat_map]; [done|].
    rewrite (Hchild here (Some id)). cbn [fst snd].
    rewrite IHc, insert_frames_app, insert_parents_app.
    destruct child as [cid cfn cchildren]. reflexivity. }
  cbn [traverse node_entries tail]. fold (frameOf fn). fold here.
  rewrite Hfold. reflexivity.
Qed.

Lemma insert_frames_lookup entries nodeMap e :
  NoDup (entry_id <$> entries) → e ∈ entries →
  insert_frames entries nodeMap !! entry_id e = Some (entry_frame e).
Proof.
  revert nodeMap. induction entries as [|e0 entries IH]; intros nodeMap Hnd Hin.
  { by apply elem_of_nil in Hin. }
  rewrite fmap_cons in Hnd. apply NoDup_cons in Hnd as [Hfresh Hnd].
  apply elem_of_cons in Hin as [->|Hin]; simpl; [|by apply IH].
  clear IH. revert nodeMap. induction entries as [|e1 entries IH]; intros nodeMap; simpl.
  - by rewrite lookup_insert_eq.
  - rewrite fmap_cons in Hfresh, Hnd.
    apply not_elem_of_cons in Hfresh as [Hne Hfresh].
    apply NoDup_cons in Hnd as [_ Hnd].
    rewrite insert_insert_ne by done. by apply IH.
Qed.

Lemma insert_parents_lookup entries parentMap e :
  NoDup (entry_id <$> entries) → e ∈ entries →
  insert_parents entries parentMap !! entry_id e
  = match entry_parent e with
    | Some p => Some p
    | None => parentMap !! entry_id e
    end.
Proof.
  revert parentMap. induction entries as [|e0 entries IH]; intros parentMap Hnd Hin.
  { by apply elem_of_nil in Hin. }
  rewrite fmap_cons in Hnd. apply NoDup_cons in Hnd as [Hfresh Hnd].
  apply elem_of_cons in Hin as [->|Hin]; simpl.
  - assert (Hkeep : ∀ m, insert_parents entries m !! entry_id e0 = m !! entry_id e0).
    { clear IH Hnd. induction entries as [|e1 entries IH]; intros m; simpl; [done|].
      rewrite fmap_cons in Hfresh. apply not_elem_of_cons in Hfresh as [Hne Hfresh].
      fold (insert_parents entries). rewrite IH by done.
      destruct (entry_parent e1); [by rewrite lookup_insert_ne|done]. }
    fold (insert_parents entries). rewrite Hkeep.
    destruct (entry_parent e0); [by rewrite lookup_insert_eq|done].
  - fold (insert_parents entries). rewrite IH by done.
    destruct (entry_parent e) as [p|]; [done|].
    destruct (entry_parent e0) as [p0|]; [|done].
    rewrite lookup_insert_ne; [done|]. intros Heq. apply Hfresh.
    rewrite Heq. by apply list_elem_of_fmap_2.
Qed.

(** Every entry but the first has its parent among the entries, and the
    frames above it are those of the parent followed by the parent's own. *)
Lemma node_entries_parent node :
  ∀ outer parent e,
    e ∈ node_entries outer parent node →
    (e = (node_id node, frameOf (functionName node), outer, parent)) ∨
    (∃ e', e' ∈ node_entries outer parent node ∧
           entry_parent e = Some (entry_id e') ∧
           entry_outer e = entry_outer e' ++ [entry_frame e']).
Proof.
  induction node as [id fn children IH] using ProfileNode_forall_ind.
  intros outer parent e. simpl. intros [->|Hin]%elem_of_cons; [by left|].
  right. apply list_elem_of_In, in_flat_map in Hin as (child & Hchild & Hin).
  apply list_elem_of_In in Hchild, Hin.
  eapply Forall_forall in IH; [|exact Hchild].
  destruct (IH _ _ _ Hin) as [->|(e' & He' & Hp & Ho)].
  - exists (id, frameOf fn, outer, parent). split; [by left|]. done.
  - exists e'. split; [|done]. right.
    apply list_elem_of_In, in_flat_map. exists child.
    split; by apply list_elem_of_In.
Qed.

Lemma insert_parents_notin entries parentMap id :
  id ∉ entry_id <$> entries →
  insert_parents entries parentMap !! id = parentMap !! id.
Proof.
  revert parentMap. induction entries as [|e entries IH]; intros parentMap Hnot; [done|].
  rewrite fmap_cons in Hnot. apply not_elem_of_cons in Hnot as [Hne Hnot].
  simpl. fold (insert_parents entries). rewrite IH by done.
  destruct (entry_parent e); [by rewrite lookup_insert_ne|done].
Qed.

(** In a graph whose ids are distinct, the walk from a node collects the
    frames above the node and then the node's own. *)
Lemma walkUp_entry root fuel e stack :
  NoDup (node_ids root) →
  e ∈ node_entries [] None root →
  length (entry_outer e) < fuel →
  walkUp fuel (traverse root (∅, ∅)).1 (traverse root (∅, ∅)).2
    (Some (entry_id e)) stack
  = Some (entry_outer e ++ entry_frame e :: stack).
Proof.
  intros Hnd. rewrite (traverse_entries root [] None). simpl.
  set (E := node_entries [] None root).
  assert (NoDup (entry_id <$> E)) as HndE by (unfold E; by rewrite node_entries_ids).
  assert (∃ tl, E = (node_id root, frameOf (functionName root), [], None) :: tl)
    as [tl HE] by (unfold E; destruct root; simpl; eauto).
  revert e stack. induction fuel as [|fuel IH]; intros e stack He Hlen; [lia|].
  cbn [walkUp]. rewrite (insert_frames_lookup E ∅ e HndE He).
  destruct (node_entries_parent root [] None e He) as [->|(e' & He' & Hp & Ho)].
  - cbn [entry_id entry_frame entry_outer fst snd].
    assert (insert_parents (tail E) ∅ !! node_id root = None) as ->.
    { rewrite insert_parents_notin; [done|].
      rewrite HE in HndE. rewrite fmap_cons in HndE.
      apply NoDup_cons in HndE as [Hfresh _]. by rewrite HE. }
    by destruct fuel.
  - assert (e ∈ tail E) as Htail.
    { rewrite HE in He |- *. apply elem_of_cons in He as [->|?]; [|done].
      by simpl in Hp. }
    assert (NoDup (entry_id <$> tail E)) as Hndt.
    { rewrite HE in HndE. rewrite fmap_cons in HndE.
      apply NoDup_cons in HndE as [_ ?]. by rewrite HE. }
    rewrite (insert_parents_lookup (tail E) ∅ e Hndt Htail), Hp.
    rewrite IH; [|done|rewrite Ho, length_app in Hlen; simpl in Hlen; lia].
    rewrite Ho. by rewrite <- app_assoc.
Qed.

Section Paths.
Context {num : Type} `{JSNumber num}.

(** X14. On a call graph whose node ids are distinct, the Sample of an
    entry of [samples] that is a node of the graph has as stack the frames on
    the way from the root to that node, outermost first, a node without a
    function name counting as [(anonymous)]. *)
Theorem sample_stack_is_path (profile : CpuProfile num) root rest fuel
    (samples : list (Sample num)) k e :
  nodes profile = root :: rest →
  NoDup (node_ids root) →
  reconstruct fuel profile = Some (Returned samples) →
  e ∈ node_entries [] None root →
  profileSamples profile !! k = Some (entry_id e) →
  ∃ s, samples !! k = Some s ∧ s_stack s = entry_outer e ++ [entry_frame e].
Proof.
  intros Hnodes Hnd Hrun He Hk.
  pose proof (reconstruct_Returned _ _ _ _ _ Hnodes Hrun) as Hbuild.
  apply buildSamples_spec in Hbuild as (_ & _ & Hnth).
  destruct (Hnth k _ Hk) as (s & Hs & Hwalk & _). simpl in Hs.
  exists s. split; [done|].
  pose proof (walkUp_entry root (S (length (entry_outer e))) e [] Hnd He) as Hpath.
  specialize (Hpath ltac:(lia)).
  apply (walkUp_mono _ (fuel `max` S (length (entry_outer e)))) in Hwalk; [|lia].
  apply (walkUp_mono _ (fuel `max` S (length (entry_outer e)))) in Hpath; [|lia].
  congruence.
Qed.

End Paths.

Lemma sample_stack_is_path_witness :
  ∃ s, [ mkSample (ms 1) ["(root)"; "main"];
         mkSample (ms 2) ["(root)"; "main"; "work"] ] !! 1 = Some s ∧
       s_stack s = ["(root)"; "main"] ++ ["work"].
Proof.
  apply (sample_stack_is_path nested_profile graph [] 3 _ 1
           (3%Z, "work", ["(root)"; "main"], Some 2%Z)).
  - reflexivity.
  - by_compute.
  - vm_compute. reflexivity.
  - by_compute.
  - reflexivity.
Defined.

Section Times.
Context {num : Type} `{JSNumber num}.
Implicit Types (deltas : list num) (ids : list Z).

Lemma buildSamples_times fuel nodeMap parentMap deltas ids index currentTime
    (acc result : list (Sample num)) :
  buildSamples fuel nodeMap parentMap deltas ids index currentTime acc = Some result →
  ∀ k, k < length ids → index + k < length deltas →
    ∃ s, result !! (length acc + k) = Some s ∧
         s_ts s = num_div (fold_left num_add (take (S k) (drop index deltas)) currentTime)
                    (num_lit 1000).
Proof.
  revert index currentTime acc.
  induction ids as [|id ids IH]; intros index currentTime acc Hbuild k Hk Hd.
  { simpl in Hk. lia. }
  cbn [buildSamples] in Hbuild.
  destruct (walkUp fuel _ _ _ _) as [stack|]; [|done].
  destruct (lookup_lt_is_Some_2 deltas index) as [d Hdelta]; [lia|].
  rewrite Hdelta in Hbuild. rewrite (drop_S _ _ _ Hdelta).
  destruct k as [|k].
  - apply buildSamples_spec in Hbuild as (_ & Hpre & _).
    eexists. split.
    + rewrite Hpre by (rewrite length_app; simpl; lia).
      rewrite Nat.add_0_r. by apply list_lookup_middle.
    + done.
  - destruct (IH _ _ _ Hbuild k) as (s & Hs & Hts); [simpl in Hk; lia|lia|].
    exists s. split.
    + rewrite <- Hs. f_equal. rewrite length_app. simpl. lia.
    + rewrite Hts. by rewrite firstn_cons.
Qed.

Lemma buildSamples_surplus fuel nodeMap parentMap deltas extra ids index
    currentTime (acc : list (Sample num)) :
  index + length ids ≤ length deltas →
  buildSamples fuel nodeMap parentMap (deltas ++ extra) ids index currentTime acc
  = buildSamples fuel nodeMap parentMap deltas ids index currentTime acc.
Proof.
  revert index currentTime acc.
  induction ids as [|id ids IH]; intros index currentTime acc Hlen; [done|].
  simpl in Hlen. cbn [buildSamples]. rewrite lookup_app_l by lia.
  destruct (walkUp fuel _ _ _ _); [|done]. apply IH. lia.
Qed.

(** X15. The timestamp of the k-th Sample is the start time plus the first
    k + 1 time deltas, added in that order, divided by 1000; time deltas
    beyond the number of samples do not matter. *)
Theorem sample_timestamps (profile : CpuProfile num) :
  (∀ fuel samples k,
     reconstruct fuel profile = Some (Returned samples) →
     k < length (profileSamples profile) →
     k < length (timeDeltas profile) →
     ∃ s, samples !! k = Some s ∧
          s_ts s = num_div (fold_left num_add (take (S k) (timeDeltas profile))
                              (profileStartTime profile))
                     (num_lit 1000)) ∧
  (∀ fuel extra,
     length (profileSamples profile) ≤ length (timeDeltas profile) →
     reconstruct fuel
       (mkProfile (nodes profile) (profileStartTime profile)
          (profileSamples profile) (timeDeltas profile ++ extra))
     = reconstruct fuel profile).
Proof.
  split.
  - intros fuel samples k Hrun Hk Hd.
    destruct (nodes profile) as [|root rest] eqn:Hnodes.
    { unfold reconstruct in Hrun. by rewrite Hnodes in Hrun. }
    pose proof (reconstruct_Returned _ _ _ _ _ Hnodes Hrun) as Hbuild.
    destruct (buildSamples_times _ _ _ _ _ _ _ _ _ Hbuild k Hk) as (s & Hs & Hts);
      [simpl; lia|].
    exists s. split; [done|]. by rewrite drop_0 in Hts.
  - intros fuel extra Hlen. unfold reconstruct. simpl.
    destruct (nodes profile) as [|root rest]; [done|].
    destruct (traverse root (∅, ∅)) as [nodeMap parentMap].
    by rewrite buildSamples_surplus.
Qed.

End Times.

Lemma sample_timestamps_witness :
  ∃ s, [ mkSample (ms 1) ["(root)"; "main"];
         mkSample (ms 2) ["(root)"; "main"; "work"] ] !! 1 = Some s ∧
       s_ts s = num_div (fold_left num_add (take 2 [ms 1000; ms 1000]) (ms 0))
                  (num_lit 1000).
Proof.
  destruct (sample_timestamps nested_profile) as [Htimes _].
  apply (Htimes 3); [vm_compute; reflexivity|vm_compute; lia|vm_compute; lia].
Defined.

Section Table.
Context {num : Type} `{JSNumber num}.
Implicit Types (st : @Active num).

(** *** The names of the spans of a run *)

Lemma endOld_names (N : string → Prop) base i commonLen ts st :
  (∀ r s, base ≤ r → st.2 !! r = Some s → N (span_name s)) →
  ∀ r s, base ≤ r → (endOld i commonLen ts st).2 !! r = Some s → N (span_name s).
Proof.
  revert st. induction i as [|i IH]; intros st Hst; cbn [endOld]; [done|].
  case_decide; [|done]. apply IH.
  destruct (st.1 !! S i) as [span|]; [|done]. simpl.
  intros r s Hr (s0 & Hs0 & -> & _)%endSpan_lookup_Some. by eapply Hst.
Qed.

Lemma startNew_names (N : string → Prop) base fuel i currStack ts parentSpan st :
  (∀ frame, frame ∈ currStack → frame ≠ "(root)" → N frame) →
  (∀ r s, base ≤ r → st.2 !! r = Some s → N (span_name s)) →
  ∀ r s, base ≤ r →
    (startNew fuel i currStack ts parentSpan st).2 !! r = Some s → N (span_name s).
Proof.
  intros Hframes. revert i st.
  induction fuel as [|fuel IH]; intros i st Hst; cbn [startNew]; [done|].
  case_decide as Hi; [|done]. apply IH.
  case_decide as Hroot; [done|]. simpl.
  intros r s Hr [Hs|[_ Hs]]%lookup_app_Some; [by eapply Hst|].
  destruct (r - length st.2) as [|k]; simpl in Hs; [|done]. simplify_eq. simpl.
  apply Hframes; [|done]. apply list_elem_of_lookup. exists i.
  by apply list_lookup_lookup_total_lt.
Qed.

Lemma processAll_names (N : string → Prop) base parentSpan
    (samples : list (Sample num)) (st : @Active num * list string) :
  (∀ sample frame, sample ∈ samples → frame ∈ s_stack sample →
     frame ≠ "(root)" → N frame) →
  (∀ r s, base ≤ r → st.1.2 !! r = Some s → N (span_name s)) →
  ∀ r s, base ≤ r →
    (processAll parentSpan samples st).1.2 !! r = Some s → N (span_name s).
Proof.
  revert st. induction samples as [|sample samples IH]; intros [act prev] Hframes Hst;
    [done|].
  simpl. apply IH.
  - intros sample' frame Hin. apply Hframes. by right.
  - simpl. apply startNew_names.
    + intros frame. apply Hframes. by left.
    + by apply endOld_names.
Qed.

(** X16. No span is named [(root)]: a frame of that name is skipped at
    whatever depth it stands, and every span a call of
    [processProfileToSpans] makes is named after a frame of one of the
    reconstructed Samples. *)
Theorem no_span_for_root fuel (profile : CpuProfile num) parentSpan now
    (store0 store' : list (Span (@HrTime num))) samples :
  reconstruct fuel profile = Some (Returned samples) →
  processProfileToSpans fuel profile parentSpan now store0 = Some (Returned store') →
  ∀ r s, length store0 ≤ r → store' !! r = Some s →
    span_name s ≠ "(root)" ∧
    ∃ sample, sample ∈ samples ∧ span_name s ∈ s_stack sample.
Proof.
  intros Hrun. unfold processProfileToSpans. rewrite Hrun.
  pose proof (processAll_names
    (λ frame, frame ≠ "(root)" ∧ ∃ sample, sample ∈ samples ∧ frame ∈ s_stack sample)
    (length store0) parentSpan samples ((∅, store0), [])) as Hnames.
  destruct (processAll parentSpan samples _) as [act prev]. simpl in Hnames.
  intros [= <-] r s Hr Hs. unfold cleanup in Hs.
  destruct (end_all_spec act.1 now act.2) as (Hlen & _).
  destruct (store_evolves_inv act.2 _ r s (end_all_evolves act.1 now _) Hlen Hs)
    as (s0 & Hs0 & Hname & _).
  rewrite Hname. eapply Hnames; [| |exact Hr|exact Hs0].
  - intros sample frame Hin Hframe Hroot. split; [done|]. by exists sample.
  - intros r' s' Hr' Hs'. apply lookup_lt_Some in Hs'. lia.
Qed.

(** *** The table mirrors the stack *)

Lemma endOld_mirrors i commonLen ts st (stack : list string) :
  mirrors i st stack →
  mirrors (i `min` commonLen) (endOld i commonLen ts st) stack.
Proof.
  revert st. induction i as [|i IH]; intros st Hm; cbn [endOld]; [done|].
  case_decide as Hc; [|by replace (S i `min` commonLen) with (S i) by lia].
  replace (S i `min` commonLen) with (i `min` commonLen) by lia.
  apply IH. destruct Hm as (Hkeys & Hinj & Hframes).
  destruct (st.1 !! S i) as [span|] eqn:Hspan.
  - split; [|split]; simpl.
    + intros d ref [Hne Hd]%lookup_delete_Some.
      pose proof (Hkeys _ _ Hd). lia.
    + intros d1 d2 ref [_ H1]%lookup_delete_Some [_ H2]%lookup_delete_Some.
      by eapply Hinj.
    + intros j frame Hj Hframe. rewrite lookup_delete_ne by lia.
      specialize (Hframes j frame ltac:(lia) Hframe).
      destruct (st.1 !! S j) as [ref|] eqn:Href; [|done].
      destruct Hframes as (Hroot & s & Hs & Hn & He). split; [done|].
      exists s. split; [|done]. rewrite endSpan_lookup_ne; [done|].
      intros ->. specialize (Hinj _ _ _ Href Hspan). lia.
  - split; [|split; [done|]].
    + intros d ref Hd. pose proof (Hkeys _ _ Hd).
      destruct (decide (d = S i)) as [->|]; [congruence|lia].
    + intros j frame Hj. apply Hframes. lia.
Qed.

Lemma mirrors_held_lt n st (stack : list string) d ref :
  n ≤ length stack → mirrors n st stack → st.1 !! d = Some ref →
  ref < length st.2.
Proof.
  intros Hn (Hkeys & _ & Hframes) Hd. pose proof (Hkeys _ _ Hd) as Hb.
  destruct d as [|j]; [lia|].
  destruct (lookup_lt_is_Some_2 stack j) as [frame Hframe]; [lia|].
  specialize (Hframes j frame ltac:(lia) Hframe). rewrite Hd in Hframes.
  destruct Hframes as (_ & s & Hs & _). by eapply lookup_lt_Some.
Qed.

Lemma startNew_mirrors fuel i currStack ts parentSpan st :
  i ≤ length currStack → length currStack - i ≤ fuel →
  mirrors i st currStack →
  mirrors (length currStack) (startNew fuel i currStack ts parentSpan st) currStack.
Proof.
  revert i st. induction fuel as [|fuel IH]; intros i st Hi Hfuel Hm; cbn [startNew].
  { by replace (length currStack) with i by lia. }
  case_decide as Hlt; [|by replace (length currStack) with i by lia].
  apply IH; [lia|lia|].
  destruct (lookup_lt_is_Some_2 currStack i Hlt) as [frame Hframe].
  rewrite (list_lookup_total_correct _ _ _ Hframe).
  pose proof Hm as (Hkeys & Hinj & Hframes).
  assert (st.1 !! S i = None) as Hnone.
  { apply eq_None_not_Some. intros [ref Href]. pose proof (Hkeys _ _ Href). lia. }
  case_decide as Hroot.
  - split; [|split; [done|]].
    + intros d ref Hd. pose proof (Hkeys _ _ Hd). lia.
    + intros j frame' Hj Hframe'. destruct (decide (j = i)) as [->|Hne].
      * rewrite Hnone. congruence.
      * apply Hframes; [lia|done].
  - simpl. replace (i + 1) with (S i) by lia.
    split; [|split]; simpl.
    + intros d ref. rewrite lookup_insert. case_decide; [intros _; lia|].
      intros Hd. pose proof (Hkeys _ _ Hd). lia.
    + intros d1 d2 ref. rewrite !lookup_insert.
      repeat case_decide; subst; try done.
      * intros [= <-] Hd2.
        pose proof (mirrors_held_lt _ _ _ _ _ Hi Hm Hd2). lia.
      * intros Hd1 [= <-].
        pose proof (mirrors_held_lt _ _ _ _ _ Hi Hm Hd1). lia.
      * apply Hinj.
    + intros j frame' Hj Hframe'. destruct (decide (j = i)) as [->|Hne].
      * rewrite lookup_insert_eq. simplify_eq. split; [done|].
        eexists. split; [by apply list_lookup_middle|done].
      * rewrite lookup_insert_ne by lia.
        specialize (Hframes j frame' ltac:(lia) Hframe').
        destruct (st.1 !! S j) as [ref|]; [|done].
        destruct Hframes as (Hroot' & s & Hs & Hn). split; [done|].
        exists s. split; [|done].
        rewrite lookup_app_l; [done|by eapply lookup_lt_Some].
Qed.

Lemma mirrors_prefix n st (stack stack' : list string) :
  (∀ i, i < n → stack !! i = stack' !! i) →
  mirrors n st stack → mirrors n st stack'.
Proof.
  intros Hagree (Hkeys & Hinj & Hframes). split; [done|]. split; [done|].
  intros i frame Hi Hframe. apply Hframes; [done|]. by rewrite Hagree.
Qed.

Lemma processAll_mirrors parentSpan (samples : list (Sample num))
    (st : @Active num * list string) :
  mirrors (length st.2) st.1 st.2 →
  mirrors (length (processAll parentSpan samples st).2)
    (processAll parentSpan samples st).1 (processAll parentSpan samples st).2.
Proof.
  revert st. induction samples as [|sample samples IH]; intros [act prev] Hm; [done|].
  simpl. apply IH. simpl.
  destruct (commonLen_spec prev (s_stack sample)) as (Hp & Hc & Hagree & _).
  apply startNew_mirrors; [done|lia|].
  apply (mirrors_prefix _ _ prev); [done|].
  replace (commonLen prev (s_stack sample))
    with (length prev `min` commonLen prev (s_stack sample)) at 1 by lia.
  by apply endOld_mirrors.
Qed.

(** X17. After every sample the table of step 3 mirrors the stack of that
    sample: each frame other than the root has exactly one span, at the depth
    of the frame, open and named after it; the root frame and the depths
    beyond the stack have none. *)
Theorem table_mirrors_stack (parentSpan : nat) (samples : list (Sample num))
    (store0 : list (Span (@HrTime num))) :
  let st := processAll parentSpan samples ((∅, store0), []) in
  mirrors (length st.2) st.1 st.2 ∧
  st.2 = default [] (s_stack <$> last samples).
Proof.
  intros st. split.
  - apply (processAll_mirrors parentSpan samples ((∅, store0), [])).
    split; [done|]. split; [done|]. simpl. intros i frame Hi. lia.
  - unfold st. generalize (∅ : gmap nat nat, store0). generalize (@nil string).
    induction samples as [|sample samples IH]; intros prev act; [done|].
    simpl. rewrite IH, last_cons. by destruct (last samples).
Qed.

(** X18. A sample whose stack is the previous stack changes neither the
    table nor the store of step 3. *)
Theorem same_stack_sample_changes_nothing (parentSpan : nat) (ts : num)
    (stack : list string) (act : @Active num) :
  processSample parentSpan (mkSample ts stack) (act, stack) = (act, stack).
Proof.
  unfold processSample. simpl. rewrite commonLen_refl, Nat.sub_diag.
  by rewrite endOld_le.
Qed.

End Table.

Lemma no_span_for_root_witness :
  ∃ store',
    processProfileToSpans 3 nested_profile 0 (λ _, (ms 9, ms 9)) caller_store
      = Some (Returned store') ∧
    ∀ r s, 1 ≤ r → store' !! r = Some s →
      span_name s ≠ "(root)" ∧
      ∃ sample,
        sample ∈ [ mkSample (ms 1) ["(root)"; "main"];
                   mkSample (ms 2) ["(root)"; "main"; "work"] ] ∧
        span_name s ∈ s_stack sample.
Proof.
  eexists. split; [vm_compute; reflexivity|].
  apply (no_span_for_root 3 nested_profile 0 (λ _, (ms 9, ms 9)) caller_store);
    vm_compute; reflexivity.
Defined.

End GraphFacts.

(** ** The event tracer *)

Module EventTracerFacts.
Import Otel EventTracer.

Section Spans.
Context {E M : Type}.
Implicit Types store : list (HandlerSpan E M).

Lemma on_open_lookup_ne ref f store r :
  r ≠ ref → on_open ref f store !! r = store !! r.
Proof.
  intros Hne. unfold on_open. destruct (store !! ref) as [s|]; [|done].
  destruct (h_end s); [done|]. by rewrite list_lookup_insert_ne.
Qed.

Lemma on_open_lookup_open ref f store s :
  store !! ref = Some s → h_end s = None →
  on_open ref f store !! ref = Some (f s).
Proof.
  intros Hs He. unfold on_open. rewrite Hs, He.
  apply list_lookup_insert_eq. by eapply lookup_lt_Some.
Qed.
End Spans.

(** X20. The promise of a wrapped handler settles as the await of the
    handler does, with one exception: when the handler throws [null] or
    [undefined], the wrapper throws the TypeError of [error.message]. The
    handler is called after the span is started, and the wrapper changes no
    span but its own. When the handler leaves that span alone, the span has
    an end time when the call is over and keeps its name and attributes;
    its status is OK after a value, ERROR with the message of the error and
    the error given to [recordException] after an error that is not [null]
    or [undefined], and still UNSET, with nothing recorded, after [null] or
    [undefined]. *)
Theorem wrapHandler_settles_as_handler {A R E M : Type} (message : E → M)
    (handler : @Handler A R E M) (isAsync : bool) (spanName : string)
    (start now : Z) (args : A) (store : list (HandlerSpan E M)) :
  let span := length store in
  let started := store ++ [newSpan spanName isAsync start] in
  let wrapped := wrapHandler message handler isAsync spanName start now args store in
  wrapped.1 = match (handler args started).1 with
              | Fulfilled value => Fulfilled value
              | Rejected Nullish => Rejected MessageTypeError
              | Rejected (Value e) => Rejected (Rethrown (Value e))
              end ∧
  (∀ r, r ≠ span → wrapped.2 !! r = (handler args started).2 !! r) ∧
  ((handler args started).2 !! span = Some (newSpan spanName isAsync start) →
   ∃ s, wrapped.2 !! span = Some s ∧
        h_name s = spanName ∧
        h_attributes s = [("cap.event.name", AttrString spanName);
                          ("cap.handler.async", AttrBool isAsync)] ∧
        h_end s ≠ None ∧
        match (handler args started).1 with
        | Fulfilled _ =>
            h_status s = OK ∧ h_message s = None ∧ h_exceptions s = []
        | Rejected Nullish =>
            h_status s = UNSET ∧ h_message s = None ∧ h_exceptions s = []
        | Rejected (Value e) =>
            h_status s = ERROR ∧ h_message s = Some (message e) ∧
            h_exceptions s = [Value e]
        end).
Proof.
  intros span started wrapped. unfold wrapped, wrapHandler. fold span started.
  destruct (handler args started) as [result store'] eqn:Hcall.
  cbn [fst snd].
  destruct result as [value|[|e]]; cbn [fst snd].
  - split; [done|]. split.
    + intros r Hr. unfold h_endSpan, h_setStatus. by rewrite !on_open_lookup_ne.
    + intros Hspan. eexists. split.
      * unfold h_endSpan, h_setStatus. erewrite on_open_lookup_open; cycle 1.
        { erewrite on_open_lookup_open; [reflexivity|exact Hspan|reflexivity]. }
        { reflexivity. }
        reflexivity.
      * done.
  - split; [done|]. split.
    + intros r Hr. unfold h_endSpan. by rewrite on_open_lookup_ne.
    + intros Hspan. eexists. split.
      * unfold h_endSpan. erewrite on_open_lookup_open; [reflexivity|exact Hspan|].
        reflexivity.
      * done.
  - split; [done|]. split.
    + intros r Hr. unfold h_endSpan, h_recordException, h_setStatus.
      by rewrite !on_open_lookup_ne.
    + intros Hspan. eexists. split.
      * unfold h_endSpan, h_recordException, h_setStatus.
        erewrite on_open_lookup_open; cycle 1.
        { erewrite on_open_lookup_open; cycle 1.
          { erewrite on_open_lookup_open; [reflexivity|exact Hspan|reflexivity]. }
          { reflexivity. }
          reflexivity. }
        { reflexivity. }
        reflexivity.
      * done.
Qed.

Lemma wrapHandler_settles_as_handler_witness :
  ∃ s,
    (wrapHandler (λ e : string, e)
       (λ (args : Z) store, (Rejected (R := Z) (Value "No book"), store)) true
       "on:READ:Books" 10 20 7%Z []).2 !! 0 = Some s ∧
    h_status s = ERROR ∧ h_message s = Some "No book" ∧
    h_exceptions s = [Value "No book"] ∧ h_end s ≠ None.
Proof.
  destruct (wrapHandler_settles_as_handler (λ e : string, e)
              (λ (args : Z) store, (Rejected (R := Z) (Value "No book"), store)) true
              "on:READ:Books" 10 20 7%Z []) as (_ & _ & Hspan).
  destruct (Hspan eq_refl) as (s & Hs & _ & _ & Hend & Hst & Hmsg & Hex).
  exists s. done.
Defined.

End EventTracerFacts.
